(** * pwgen: the generator package (internal/generator)

    A shallow embedding of [Generate] and of the functions it calls, and
    the properties of the specification checked against it.

    Modelling conventions.
    - Go's [int] is the 64-bit two's-complement integer of the platforms
      the project builds for (amd64, arm64). It is a [Z], and every
      addition and multiplication of the source is followed by [wrap].
    - A [rune] is an [ascii]: the four character classes are ASCII, so
      the UTF-8 encoding of each rune is one byte, the byte offset that
      [range] yields over a string is the rune index, and [string(out)]
      has as many bytes as [out] has runes.
    - A slice is a [list], read with [!!] and written with [<[i:=x]>].
    - crypto/rand is the only collaborator. A [Reader] answers the n-th
      request made to it with a [draw]: raw random material, or an error.
      [rand_Int] reduces the raw material below its bound, [rand_Read]
      cuts it into bytes; every in-range answer is reachable that way.
    - A Go function returning [(T, error)] is a computation of [M T]: it
      returns a value, returns an error, panics, or is stopped by a
      fatal error of the runtime, which no caller can recover from.
    - The Go release is the one the README asks for (1.25 or later):
      [rand.Read] stops the process when the source fails, and
      [strings.Builder] allocates through [bytealg.MakeNoZero].
    - The runtime refuses an allocation of more than [maxAlloc] bytes
      with a panic, and grants one within it. [make([]rune, 0, o.Length)]
      and [b.Grow(n)] are the two allocations whose size comes from the
      options; they are checked against it. An [append] within the
      capacity allocates nothing, and none outgrows the capacity that
      [make] gave when the minima sum within an [int]: the properties
      that speak of every outcome of [Generate] ask for that. *)

From Stdlib Require Import ZArith List String Ascii Bool Lia.
From stdpp Require Import base tactics option list numbers strings pretty.

Local Open Scope Z_scope.

(** ** Integers *)

Definition max_int : Z := 2 ^ 63 - 1.
Definition min_int : Z := - 2 ^ 63.

(** The value an [int] holds after an arithmetic operation whose exact
    result is [z]. *)
Definition wrap (z : Z) : Z := (z + 2 ^ 63) mod 2 ^ 64 - 2 ^ 63.

(** ** Formats, character classes, options *)

Abbreviation rune := ascii.

Definition FormatGeneric : string := "generic".
Definition FormatAppKey : string := "appkey".
Definition FormatGUID : string := "guid".

Definition lowerChars : list rune := list_ascii_of_string "abcdefghijklmnopqrstuvwxyz".
Definition upperChars : list rune := list_ascii_of_string "ABCDEFGHIJKLMNOPQRSTUVWXYZ".
Definition numberChars : list rune := list_ascii_of_string "0123456789".
Definition symbolChars : list rune := list_ascii_of_string "!@#$%^&*()-_=+[]{};:,.?/<>~".

Record Options := mkOptions {
  Format : string;
  Length : Z;
  UseLower : bool;
  UseUpper : bool;
  UseNumber : bool;
  UseSymbol : bool;
  MinLower : Z;
  MinUpper : Z;
  MinNumber : Z;
  MinSymbol : Z;
  Segments : Z;
  SegmentLength : Z
}.

(** The four classes, in the order [collectClassesAndValidate] visits
    them, with the fields of [Options] that belong to each. *)
Inductive class := Lower | Upper | Number | Symbol.

Definition class_chars (c : class) : list rune :=
  match c with
  | Lower => lowerChars
  | Upper => upperChars
  | Number => numberChars
  | Symbol => symbolChars
  end.

Definition Use (o : Options) (c : class) : bool :=
  match c with
  | Lower => UseLower o
  | Upper => UseUpper o
  | Number => UseNumber o
  | Symbol => UseSymbol o
  end.

Definition Min (o : Options) (c : class) : Z :=
  match c with
  | Lower => MinLower o
  | Upper => MinUpper o
  | Number => MinNumber o
  | Symbol => MinSymbol o
  end.

(** ** Errors *)

(** An error value handed back by the random source. *)
Inductive io_error := IoError (msg : string).

(** The errors [Generate] can return; [Error] gives the message of each. *)
Inductive error :=
| ErrLength
| ErrMinimaExceedLength (totalMin length : Z)
| ErrSegments
| ErrSegmentLength
| ErrDisabledClassMinimum (c : class)
| ErrNoClasses
| ErrNegativeMinimum
| ErrEmptySet
| ErrUnknownFormat (f : string)
| ErrRandom (e : io_error).

Definition Error (e : error) : string :=
  match e with
  | ErrLength => "length must be > 0"
  | ErrMinimaExceedLength t l =>
      "sum of minimum counts (" +:+ pretty t +:+ ") exceeds requested length " +:+ pretty l
  | ErrSegments => "segments must be > 0"
  | ErrSegmentLength => "segment-length must be > 0"
  | ErrDisabledClassMinimum Lower => "min-lower specified but lowercase disabled"
  | ErrDisabledClassMinimum Upper => "min-upper specified but uppercase disabled"
  | ErrDisabledClassMinimum Number => "min-number specified but numbers disabled"
  | ErrDisabledClassMinimum Symbol => "min-symbol specified but symbols disabled"
  | ErrNoClasses => "no character classes enabled"
  | ErrNegativeMinimum => "minimum counts cannot be negative"
  | ErrEmptySet => "empty character set"
  | ErrUnknownFormat f => "unknown format: " +:+ f
  | ErrRandom (IoError msg) => msg
  end.

(** ** The random source and the computations over it *)

Inductive draw := Rnd (raw : Z) | Broken (e : io_error).

Definition Reader := nat -> draw.

Inductive outcome (A : Type) :=
| Ret (a : A)
| Fail (e : error)
| Panic (msg : string)
| Fatal (msg : string).
Arguments Ret {A} a.
Arguments Fail {A} e.
Arguments Panic {A} msg.
Arguments Fatal {A} msg.

(** A computation reads the source [rd] from request number [p] on and
    hands back the number of the next request with its value. *)
Definition M (A : Type) : Type := Reader -> nat -> outcome (A * nat).

Definition ret {A} (a : A) : M A := fun _ p => Ret (a, p).
Definition fail {A} (e : error) : M A := fun _ _ => Fail e.
Definition panic {A} (msg : string) : M A := fun _ _ => Panic msg.
Definition bind {A B} (m : M A) (f : A -> M B) : M B :=
  fun rd p =>
    match m rd p with
    | Ret (a, p') => f a rd p'
    | Fail e => Fail e
    | Panic msg => Panic msg
    | Fatal msg => Fatal msg
    end.

Notation "'let*' x := m 'in' k" := (bind m (fun x => k))
  (at level 10, x name, m at level 100, k at level 200).

(** What the caller of a computation started on a fresh source sees. *)
Definition run {A} (m : M A) (rd : Reader) : outcome A :=
  match m rd 0%nat with
  | Ret (a, _) => Ret a
  | Fail e => Fail e
  | Panic msg => Panic msg
  | Fatal msg => Fatal msg
  end.

Definition outcome_map {A B} (f : A -> B) (r : outcome A) : outcome B :=
  match r with
  | Ret a => Ret (f a)
  | Fail e => Fail e
  | Panic msg => Panic msg
  | Fatal msg => Fatal msg
  end.

(** [rand.Int(rand.Reader, max)]: the pair [(n, nil)] or [(nil, err)].
    It panics on a bound that is not positive and asks the source for
    nothing when the only value below the bound is 0. *)
Inductive big_result := BigInt (n : Z) | BigNil (e : io_error).

Definition rand_Int (max : Z) : M big_result :=
  fun rd p =>
    if max <=? 0 then Panic "crypto/rand: argument to Int is <= 0"
    else if max =? 1 then Ret (BigInt 0, p)
    else match rd p with
         | Rnd raw => Ret (BigInt (raw mod max), S p)
         | Broken e => Ret (BigNil e, S p)
         end.

(** [rand.Read(b)] for a slice of [k] bytes. Byte [i] is bits
    [8i .. 8i+7] of the raw material. The error it returns is always
    nil: when the source fails, [rand.Read] calls [fatal] with the
    message of the error, and the process stops. *)
Definition bytes_of (k : nat) (raw : Z) : list Z :=
  map (fun i => Z.land (Z.shiftr raw (8 * Z.of_nat i)) 255) (seq 0 k).

Definition failed_read (e : io_error) : string :=
  match e with
  | IoError msg =>
      "crypto/rand: failed to read random data (see https://go.dev/issue/66821): "
      +:+ msg
  end.

Definition rand_Read (k : nat) : M (list Z + io_error) :=
  fun rd p =>
    match rd p with
    | Rnd raw => Ret (inl (bytes_of k raw), S p)
    | Broken e => Fatal (failed_read e)
    end.

(** ** Allocation *)

(** The most bytes the runtime allocates at once on the 64-bit
    platforms: [maxAlloc], 2^48. *)
Definition maxAlloc : Z := 2 ^ 48.

(** [make([]rune, 0, cap)]: [makeslice] multiplies [cap] by the four
    bytes of a rune and panics when the product overflows or exceeds
    [maxAlloc]; a negative [cap], read as a [uintptr], does. *)
Definition makeRunes (cap : Z) : M (list rune) :=
  if (cap <? 0) || (maxAlloc <? 4 * cap)
  then panic "makeslice: cap out of range"
  else ret [].

(** ** The generator *)

(** One of the four blocks of [collectClassesAndValidate]: an enabled
    class is appended with its minimum, a disabled one may not carry a
    minimum above zero. *)
Definition collectClass (use : bool) (chars : list rune) (min : Z) (c : class)
    (acc : list (list rune) * list Z) : list (list rune) * list Z + error :=
  if use then inl (acc.1 ++ [chars], acc.2 ++ [min])
  else if min >? 0 then inr (ErrDisabledClassMinimum c)
  else inl acc.

Definition collectClassesAndValidate (o : Options)
    : list (list rune) * list Z + error :=
  match collectClass (UseLower o) lowerChars (MinLower o) Lower ([], []) with
  | inr e => inr e
  | inl acc =>
  match collectClass (UseUpper o) upperChars (MinUpper o) Upper acc with
  | inr e => inr e
  | inl acc =>
  match collectClass (UseNumber o) numberChars (MinNumber o) Number acc with
  | inr e => inr e
  | inl acc =>
  match collectClass (UseSymbol o) symbolChars (MinSymbol o) Symbol acc with
  | inr e => inr e
  | inl (sets, mins) =>
      if (length sets =? 0)%nat then inr ErrNoClasses
      else if existsb (fun v => v <? 0) mins then inr ErrNegativeMinimum
      else inl (sets, mins)
  end end end end.

Definition concatClasses (classes : list (list rune)) : list rune :=
  fold_left (fun out c => out ++ c) classes [].

Definition randomRune (set : list rune) : M rune :=
  if (length set =? 0)%nat then fail ErrEmptySet
  else
    let* res := rand_Int (Z.of_nat (length set)) in
    match res with
    | BigNil e => fail (ErrRandom e)
    | BigInt n =>
        match set !! Z.to_nat n with
        | Some r => ret r
        | None => panic "index out of range"
        end
    end.

(** [r[i], r[j] = r[j], r[i]] *)
Definition swap (i j : nat) (r : list rune) : M (list rune) :=
  match r !! i, r !! j with
  | Some ri, Some rj => ret (<[j:=ri]> (<[i:=rj]> r))
  | _, _ => panic "index out of range"
  end.

(** The loop of [shuffleRunes] from index [i] down to 1. The error of
    [rand.Int] is dropped; [jBig] is then nil and [jBig.Int64()]
    dereferences it. *)
Fixpoint shuffleFrom (i : nat) (r : list rune) : M (list rune) :=
  match i with
  | O => ret r
  | S i' =>
      let* jBig := rand_Int (Z.of_nat i + 1) in
      match jBig with
      | BigNil _ => panic "invalid memory address or nil pointer dereference"
      | BigInt j => let* r' := swap i (Z.to_nat j) r in shuffleFrom i' r'
      end
  end.

Definition shuffleRunes (r : list rune) : M (list rune) :=
  shuffleFrom (length r - 1) r.

(** [for c := 0; c < minCount; c++] with [n] iterations left. *)
Fixpoint drawRunes (n : nat) (set : list rune) (out : list rune) : M (list rune) :=
  match n with
  | O => ret out
  | S n' => let* r := randomRune set in drawRunes n' set (out ++ [r])
  end.

(** [for i, set := range classSets] with [minima[i]] read alongside. *)
Fixpoint satisfyMinima (classSets : list (list rune)) (minima : list Z)
    (out : list rune) : M (list rune) :=
  match classSets with
  | [] => ret out
  | set :: classSets' =>
      match minima with
      | [] => panic "index out of range"
      | minCount :: minima' =>
          let* out' := drawRunes (Z.to_nat minCount) set out in
          satisfyMinima classSets' minima' out'
      end
  end.

Definition sumMinima (minima : list Z) : Z :=
  fold_left (fun totalMin v => wrap (totalMin + v)) minima 0.

(** [for len(out) < o.Length] appends one rune per iteration, so it runs
    [o.Length - len(out)] times, or not at all. *)
Definition fillRemainder (all : list rune) (length_ : Z) (out : list rune)
    : M (list rune) :=
  drawRunes (Z.to_nat (length_ - Z.of_nat (length out))) all out.

Definition generateGeneric (o : Options) : M string :=
  if Length o <=? 0 then fail ErrLength
  else
    match collectClassesAndValidate o with
    | inr e => fail e
    | inl (classSets, minima) =>
        let totalMin := sumMinima minima in
        if totalMin >? Length o then fail (ErrMinimaExceedLength totalMin (Length o))
        else
          let* out := makeRunes (Length o) in
          let* out := satisfyMinima classSets minima out in
          let all := concatClasses classSets in
          let* out := fillRemainder all (Length o) out in
          let* out := shuffleRunes out in
          ret (string_of_list_ascii out)
    end.

(** The loop of [generateAppKey] over [core] from offset [i] on. *)
Fixpoint writeSegments (segmentLength : Z) (i : Z) (core : list rune) : list rune :=
  match core with
  | [] => []
  | r :: core' =>
      (if (0 <? i) && (Z.rem i segmentLength =? 0) then ["-"%char] else [])
        ++ r :: writeSegments segmentLength (i + 1) core'
  end.

(** [b.Grow(n)] on an empty builder: it panics on a negative count,
    allocates [n] bytes through [bytealg.MakeNoZero] when [n] is
    positive, which panics beyond [maxAlloc], and has no other effect on
    what is written. *)
Definition Grow (n : Z) : M unit :=
  if n <? 0 then panic "strings.Builder.Grow: negative count"
  else if maxAlloc <? n then panic "makeslice: len out of range"
  else ret tt.

Definition withLength (o : Options) (total : Z) : Options :=
  mkOptions FormatGeneric total
    (UseLower o) (UseUpper o) (UseNumber o) (UseSymbol o)
    (MinLower o) (MinUpper o) (MinNumber o) (MinSymbol o)
    (Segments o) (SegmentLength o).

Definition generateAppKey (o : Options) : M string :=
  if Segments o <=? 0 then fail ErrSegments
  else if SegmentLength o <=? 0 then fail ErrSegmentLength
  else
    let total := wrap (Segments o * SegmentLength o) in
    let tmp := withLength o total in
    let* core := generateGeneric tmp in
    let* _ := Grow (wrap (total + wrap (Segments o - 1))) in
    ret (string_of_list_ascii
           (writeSegments (SegmentLength o) 0 (list_ascii_of_string core))).

Definition hexdigits : list rune := list_ascii_of_string "0123456789abcdef".

(** [hexdigits[i]]; the index is a nibble, always in range. *)
Definition hexdigit (i : Z) : rune := nth (Z.to_nat i) hexdigits "0"%char.

Definition hex (x : Z) : list rune :=
  [hexdigit (Z.shiftr x 4); hexdigit (Z.land x 15)].

(** The loop of [generateUUIDv4] over the bytes, from index [i] on. *)
Fixpoint writeUUID (i : nat) (b : list Z) : list rune :=
  match b with
  | [] => []
  | v :: b' =>
      hex v
        ++ (if (i =? 3)%nat || (i =? 5)%nat || (i =? 7)%nat || (i =? 9)%nat
            then ["-"%char] else [])
        ++ writeUUID (S i) b'
  end.

(** [b[i] = f(b[i])] *)
Definition setByte (i : nat) (f : Z -> Z) (b : list Z) : M (list Z) :=
  match b !! i with
  | Some v => ret (<[i:=f v]> b)
  | None => panic "index out of range"
  end.

Definition generateUUIDv4 : M string :=
  let* res := rand_Read 16 in
  match res with
  | inr e => fail (ErrRandom e)
  | inl b =>
      let* b := setByte 6 (fun v => Z.lor (Z.land v 15) 64) b in
      let* b := setByte 8 (fun v => Z.lor (Z.land v 63) 128) b in
      ret (string_of_list_ascii (writeUUID 0 b))
  end.

Definition Generate (o : Options) (rd : Reader) : outcome string :=
  if String.eqb (Format o) FormatGUID then run generateUUIDv4 rd
  else if String.eqb (Format o) FormatAppKey then run (generateAppKey o) rd
  else if String.eqb (Format o) FormatGeneric then run (generateGeneric o) rd
  else Fail (ErrUnknownFormat (Format o)).

Definition DefaultOptions : Options :=
  mkOptions FormatGeneric 16 true true true true 0 0 0 0 0 0.

(** A source that never fails, for the examples. *)
Definition counting : Reader := fun n => Rnd (Z.of_nat (7 * n + 3)).

(** * The vocabulary of the properties *)

(** ** Outcomes of computations *)

(** A source that never fails. *)
Definition healthy (rd : Reader) : Prop := forall n, exists raw, rd n = Rnd raw.

(** [spec rd P r]: the outcome [r] of a computation over [rd] is a value
    satisfying [P], an error of the random source, a panic or a fatal
    error; and it is a value whenever the source never fails. *)
Definition spec {A} (rd : Reader) (P : A -> Prop) (r : outcome (A * nat)) : Prop :=
  match r with
  | Ret (a, _) => P a
  | Fail e => (exists io, e = ErrRandom io) /\ ~ healthy rd
  | Panic _ => ~ healthy rd
  | Fatal _ => ~ healthy rd
  end.

(** ** The class pool and the sequences composed from it *)

#[global] Instance class_eq_dec : EqDecision class.
Proof. solve_decision. Defined.

(** The toggled-on classes, in pool order. *)
Definition enabled (o : Options) : list class :=
  (if UseLower o then [Lower] else []) ++ (if UseUpper o then [Upper] else [])
  ++ (if UseNumber o then [Number] else []) ++ (if UseSymbol o then [Symbol] else []).

(** The pool of a configuration: the runes of its toggled-on classes. *)
Definition pool (o : Options) : list rune := concat (class_chars <$> enabled o).

(** The exact sum of the minima of the toggled-on classes. *)
Definition sum_enabled_minima (o : Options) : Z :=
  (if UseLower o then MinLower o else 0) + (if UseUpper o then MinUpper o else 0)
  + (if UseNumber o then MinNumber o else 0) + (if UseSymbol o then MinSymbol o else 0).

(** The number of runes of [l] that belong to [set]. *)
Definition count_in (set : list rune) (l : list rune) : nat :=
  length (filter (.∈ set) l).

(** [composed sets mins x]: [x] is, for each set in turn, as many runes
    of that set as its minimum asks for. *)
Fixpoint composed (sets : list (list rune)) (mins : list Z) (x : list rune) : Prop :=
  match sets, mins with
  | [], _ => x = []
  | set :: sets', m :: mins' =>
      exists c x', x = c ++ x' /\ length c = Z.to_nat m /\ Forall (.∈ set) c
                   /\ composed sets' mins' x'
  | _ :: _, [] => False
  end.

(** [generic_output o out]: [out] is a rearrangement of the minima of the
    toggled-on classes followed by runes of the pool up to [Length o]. *)
Definition generic_output (o : Options) (out : list rune) : Prop :=
  exists x f,
    composed (class_chars <$> enabled o) (Min o <$> enabled o) x
    /\ length f = Z.to_nat (Length o - Z.of_nat (length x))
    /\ Forall (.∈ pool o) f
    /\ out ≡ₚ x ++ f.

(** ** Strings and segments *)

(** The runes of a Go string made of ASCII characters. *)
Definition runes (s : string) : list rune := list_ascii_of_string s.

(** The contract of the segment formatter, in the words of the
    specification: [segments] groups of [segmentLength] runes each, in
    sequence order, joined by single dashes. [writeSegments] is the code
    it is compared with. *)
Fixpoint groups (segments segmentLength : nat) (core : list rune) : list (list rune) :=
  match segments with
  | O => []
  | S n => take segmentLength core :: groups n segmentLength (drop segmentLength core)
  end.

Fixpoint join_dash (gs : list (list rune)) : list rune :=
  match gs with
  | [] => []
  | g :: gs' =>
      match gs' with
      | [] => g
      | _ :: _ => g ++ "-"%char :: join_dash gs'
      end
  end.

Definition segment_format (segments segmentLength : Z) (core : string) : string :=
  string_of_list_ascii
    (join_dash (groups (Z.to_nat segments) (Z.to_nat segmentLength) (runes core))).

(** The output of [generateAppKey] without its separators: with groups
    of [k] runes, every rune at an offset that is [k] modulo [k + 1] is a
    separator. [phase] is the offset within the current group. *)
Fixpoint unsegment (k phase : nat) (s : list rune) : list rune :=
  match s with
  | [] => []
  | c :: s' =>
      if (phase =? k)%nat then unsegment k 0 s' else c :: unsegment k (S phase) s'
  end.

(** The offset within its group of the rune written at offset [i]. *)
Definition phase (k i : Z) : nat :=
  if i =? 0 then 0%nat else Z.to_nat ((i - 1) mod k + 1).

(** The generated runes of an output: all of them, or for an app key
    those that are not separators. *)
Definition generated (o : Options) (s : string) : list rune :=
  if String.eqb (Format o) FormatAppKey
  then unsegment (Z.to_nat (SegmentLength o)) 0 (runes s)
  else runes s.

(** ** Lengths *)

(** The length the generic logic works with: [o.Length], or the [total]
    that [generateAppKey] computes. *)
Definition derivedLength (o : Options) : Z :=
  if String.eqb (Format o) FormatAppKey
  then wrap (Segments o * SegmentLength o)
  else Length o.

(** The derived length in exact arithmetic. *)
Definition derived_length (o : Options) : Z :=
  if String.eqb (Format o) FormatAppKey
  then Segments o * SegmentLength o
  else Length o.

(** The length the output is expected to have. *)
Definition expected_length (o : Options) : Z :=
  if String.eqb (Format o) FormatAppKey
  then Segments o * SegmentLength o + Segments o - 1
  else Length o.

(** ** Validation *)

(** The checks made before the class pool is built. *)
Definition length_checks (o : Options) : Prop :=
  (Format o = FormatAppKey -> 0 < Segments o /\ 0 < SegmentLength o)
  /\ 0 < derivedLength o.

(** A configuration that passes validation: a class is toggled on, the
    minima are not negative and sit on toggled-on classes only, their sum
    does not exceed the derived length, and the length, or the segment
    count and the segment length, is positive. *)
Definition valid_config (o : Options) : Prop :=
  (exists c, Use o c = true)
  /\ (forall c, 0 <= Min o c)
  /\ (forall c, Use o c = false -> Min o c = 0)
  /\ MinLower o + MinUpper o + MinNumber o + MinSymbol o <= derived_length o
  /\ (Format o = FormatGeneric -> 0 < Length o)
  /\ (Format o = FormatAppKey -> 0 < Segments o /\ 0 < SegmentLength o).

(** Everything validation asks for, the sum of the minima apart. *)
Definition validates_apart_from_sum (o : Options) : Prop :=
  (exists c, Use o c = true)
  /\ (forall c, Use o c = true -> 0 <= Min o c)
  /\ (forall c, Use o c = false -> Min o c <= 0)
  /\ (Format o = FormatGeneric -> 0 < Length o)
  /\ (Format o = FormatAppKey -> 0 < Segments o /\ 0 < SegmentLength o).

(** ** UUIDs *)

(** The bytes of a UUID once the version and the variant are set. *)
Definition stamped (b : list Z) : list Z :=
  <[8%nat := Z.lor (Z.land (b !!! 8%nat) 63) 128]>
    (<[6%nat := Z.lor (Z.land (b !!! 6%nat) 15) 64]> b).

(** The offsets of the four hyphens. *)
Definition hyphens : list nat := [8; 13; 18; 23]%nat.

(** ** Example configurations and sources *)

(** Ten runes of lowercase letters and digits, three and two at least. *)
Definition example_generic : Options :=
  mkOptions FormatGeneric 10 true false true false 3 0 2 0 0 0.

(** Three segments of five runes, every class on. *)
Definition example_appkey : Options :=
  mkOptions FormatAppKey 16 true true true true 0 0 0 0 3 5.

(** Five runes, three lowercase letters and two digits exactly. *)
Definition exact_minima : Options :=
  mkOptions FormatGeneric 5 true false true false 3 0 2 0 0 0.

(** Two segments of three runes, three lowercase letters and three
    digits exactly. *)
Definition two_by_three : Options :=
  mkOptions FormatAppKey 5 true false true false 3 0 3 0 2 3.

(** Three segments whose product with the segment length exceeds the
    largest [int]: [total] wraps to 2. *)
Definition overflowing_appkey : Options :=
  mkOptions FormatAppKey 16 true true true true 0 0 0 0 3 6148914691236517206.

(** Two minima of 2^62 each, for one rune: [totalMin] wraps to -2^63. *)
Definition overflowing_minima : Options :=
  mkOptions FormatGeneric 1 true true false false
    4611686018427387904 4611686018427387904 0 0 0 0.

(** Four runes for minima of three and two. *)
Definition minima_above_length : Options :=
  mkOptions FormatGeneric 4 true false true false 3 0 2 0 0 0.

(** 2^62 runes, all of them lowercase letters by the minimum. *)
Definition exact_beyond_allocation : Options :=
  mkOptions FormatGeneric 4611686018427387904 true false false false
    4611686018427387904 0 0 0 0 0.

(** A negative minimum on a class that is off. *)
Definition negative_on_disabled : Options :=
  mkOptions FormatGeneric 4 false true true true (-1) 0 0 0 0 0.

(** Negative minima on a class that is on and on a class that is off. *)
Definition negative_on_enabled : Options :=
  mkOptions FormatAppKey 16 true true false true 0 (-2) (-7) 0 4 4.

(** A minimum of two digits with the digits off. *)
Definition minimum_on_disabled : Options :=
  mkOptions FormatGeneric 12 true true false true 0 0 2 0 0 0.

(** Every class off. *)
Definition nothing_enabled : Options :=
  mkOptions FormatAppKey 16 false false false false 0 0 0 0 4 4.

(** Every class off and a length of 0. *)
Definition zero_length_nothing_enabled : Options :=
  mkOptions FormatGeneric 0 false false false false 0 0 0 0 0 0.

(** Neither a segment count nor a segment length. *)
Definition no_segments_no_length : Options :=
  mkOptions FormatAppKey 16 true true true true 0 0 0 0 0 0.

(** A source that fails at every request. *)
Definition broken : Reader := fun _ => Broken (IoError "entropy source unavailable").

(** A source that answers its first [n] requests and fails from then on. *)
Definition failing_from (n : nat) : Reader :=
  fun p => if (p <? n)%nat then Rnd (Z.of_nat (7 * p + 3))
           else Broken (IoError "entropy source unavailable").

(** ** Requests to the source *)

(** The source answers the [n] requests from number [p] on. *)
Definition answers (rd : Reader) (p n : nat) : Prop :=
  forall q, (p <= q < p + n)%nat -> exists raw, rd q = Rnd raw.

(** Request number [q] is the first from [p] on that the source fails,
    and [e] is its error. *)
Definition fails_first (rd : Reader) (p q : nat) (e : io_error) : Prop :=
  (p <= q)%nat /\ rd q = Broken e /\ answers rd p (q - p).

(** The message of the panic of a nil dereference. *)
Definition nil_dereference : string :=
  "invalid memory address or nil pointer dereference".

(** ** Kinds of errors *)

(** The errors that a check of the configuration raises. *)
Definition validation_error (e : error) : Prop :=
  match e with
  | ErrEmptySet | ErrRandom _ => False
  | _ => True
  end.

(** The message of the panic of [Grow]. *)
Definition negative_grow : string := "strings.Builder.Grow: negative count".

(** The messages of the panics of an allocation beyond [maxAlloc]: of
    [make] with a capacity, and of [bytealg.MakeNoZero]. *)
Definition makeslice_cap : string := "makeslice: cap out of range".
Definition makeslice_len : string := "makeslice: len out of range".

(** ** The checks, in the order they are made *)

(** The checks of [collectClassesAndValidate]: a minimum above zero on a
    class that is off, class by class; then no class on; then a negative
    minimum on a class that is on. *)
Definition class_checks (o : Options) : option error :=
  if negb (UseLower o) && (MinLower o >? 0) then Some (ErrDisabledClassMinimum Lower)
  else if negb (UseUpper o) && (MinUpper o >? 0) then Some (ErrDisabledClassMinimum Upper)
  else if negb (UseNumber o) && (MinNumber o >? 0) then Some (ErrDisabledClassMinimum Number)
  else if negb (UseSymbol o) && (MinSymbol o >? 0) then Some (ErrDisabledClassMinimum Symbol)
  else if negb (UseLower o || UseUpper o || UseNumber o || UseSymbol o)
  then Some ErrNoClasses
  else if (UseLower o && (MinLower o <? 0)) || (UseUpper o && (MinUpper o <? 0))
          || (UseNumber o && (MinNumber o <? 0)) || (UseSymbol o && (MinSymbol o <? 0))
  then Some ErrNegativeMinimum
  else None.

(** The checks of [generateGeneric] for the length [L]: the length, the
    classes, then the sum of the minima as the code adds them up. *)
Definition generic_checks (o : Options) (L : Z) : option error :=
  if L <=? 0 then Some ErrLength
  else match class_checks o with
       | Some e => Some e
       | None =>
           if wrap (sum_enabled_minima o) >? L
           then Some (ErrMinimaExceedLength (wrap (sum_enabled_minima o)) L)
           else None
       end.

(** The first check of [Generate] that fails, if any. *)
Definition first_failed_check (o : Options) : option error :=
  if String.eqb (Format o) FormatGUID then None
  else if String.eqb (Format o) FormatAppKey then
    if Segments o <=? 0 then Some ErrSegments
    else if SegmentLength o <=? 0 then Some ErrSegmentLength
    else generic_checks o (wrap (Segments o * SegmentLength o))
  else if String.eqb (Format o) FormatGeneric then generic_checks o (Length o)
  else Some (ErrUnknownFormat (Format o)).

(** An outcome that is a value, an error, or the panic of a nil
    dereference. *)
Definition quiet {A} (r : outcome (A * nat)) : Prop :=
  match r with
  | Panic msg => msg = nil_dereference
  | Fatal _ => False
  | _ => True
  end.

(** Four runes from a product that wraps, for 2^62 + 1 segments. *)
Definition overgrown_appkey : Options :=
  mkOptions FormatAppKey 16 true true true true 0 0 0 0 4611686018427387905 4.

(** Two segment counts of 2^32: [total] wraps to 0. *)
Definition wrapping_to_zero : Options :=
  mkOptions FormatAppKey 16 true true true true 0 0 0 0 4294967296 4294967296.

(** The source that answers its requests with the numbers of a list,
    in turn, and with 0 after them. *)
Definition reader_of (js : list Z) : Reader := fun n => Rnd (nth n js 0).

(** ** Configurations with a field changed *)

Definition setLength (o : Options) (l : Z) : Options :=
  mkOptions (Format o) l
    (UseLower o) (UseUpper o) (UseNumber o) (UseSymbol o)
    (MinLower o) (MinUpper o) (MinNumber o) (MinSymbol o)
    (Segments o) (SegmentLength o).

Definition setSegments (o : Options) (segments segmentLength : Z) : Options :=
  mkOptions (Format o) (Length o)
    (UseLower o) (UseUpper o) (UseNumber o) (UseSymbol o)
    (MinLower o) (MinUpper o) (MinNumber o) (MinSymbol o)
    segments segmentLength.

(** The configuration with the minimum of one class changed. *)
Definition setMin (o : Options) (c : class) (m : Z) : Options :=
  mkOptions (Format o) (Length o)
    (UseLower o) (UseUpper o) (UseNumber o) (UseSymbol o)
    (match c with Lower => m | _ => MinLower o end)
    (match c with Upper => m | _ => MinUpper o end)
    (match c with Number => m | _ => MinNumber o end)
    (match c with Symbol => m | _ => MinSymbol o end)
    (Segments o) (SegmentLength o).

(** ** Reading a UUID back *)

(** The place of a rune in a list, or the length of the list. *)
Fixpoint index_of (r : rune) (l : list rune) : nat :=
  match l with
  | [] => 0
  | x :: l' => if Ascii.eqb x r then 0 else S (index_of r l')
  end.

(** The byte that two hexadecimal digits write. *)
Definition unhex (hi lo : rune) : Z :=
  16 * Z.of_nat (index_of hi hexdigits) + Z.of_nat (index_of lo hexdigits).

(** The bytes of a string of hexadecimal digits and hyphens. *)
Fixpoint parseHex (s : list rune) : list Z :=
  match s with
  | [] => []
  | c :: s1 =>
      if Ascii.eqb c "-" then parseHex s1
      else match s1 with
           | [] => []
           | lo :: s2 => unhex c lo :: parseHex s2
           end
  end.

(** ** The command line *)

(** The flag variables of the root command. *)
Record Flags := mkFlags {
  flagLength : Z;
  flagFormat : string;
  flagUseLower : bool;
  flagUseUpper : bool;
  flagUseNumber : bool;
  flagUseSymbol : bool;
  flagMinLower : Z;
  flagMinUpper : Z;
  flagMinNumber : Z;
  flagMinSymbol : Z;
  flagSegments : Z;
  flagSegmentLength : Z
}.

(** The defaults that [init] registers. *)
Definition defaultFlags : Flags :=
  mkFlags 16 "generic" true true true true 0 0 0 0 4 4.

(** The options that [runGenerate] builds from the flags. *)
Definition optionsOfFlags (f : Flags) : Options :=
  mkOptions (flagFormat f) (flagLength f)
    (flagUseLower f) (flagUseUpper f) (flagUseNumber f) (flagUseSymbol f)
    (flagMinLower f) (flagMinUpper f) (flagMinNumber f) (flagMinSymbol f)
    (flagSegments f) (flagSegmentLength f).

(** [runGenerate]: what [fmt.Println] writes, or the error returned. *)
Definition runGenerate (f : Flags) (rd : Reader) : outcome string :=
  match Generate (optionsOfFlags f) rd with
  | Ret pw => Ret (pw +:+ String "010"%char EmptyString)
  | Fail e => Fail e
  | Panic msg => Panic msg
  | Fatal msg => Fatal msg
  end.

(** The flags after [--format]. *)
Definition withFormat (f : Flags) (format : string) : Flags :=
  mkFlags (flagLength f) format
    (flagUseLower f) (flagUseUpper f) (flagUseNumber f) (flagUseSymbol f)
    (flagMinLower f) (flagMinUpper f) (flagMinNumber f) (flagMinSymbol f)
    (flagSegments f) (flagSegmentLength f).

(** * The properties *)

(** ** Reasoning about computations *)

(** The rules for [spec], and what each drawing operation of the
    generator does, over one source [rd]. *)
Section OverReader.
Variable rd : Reader.

Lemma spec_bind {A B} (P : A -> Prop) (Q : B -> Prop) (m : M A) (f : A -> M B) p :
  spec rd P (m rd p) ->
  (forall a p', P a -> spec rd Q (f a rd p')) ->
  spec rd Q (bind m f rd p).
Proof.
  unfold bind. destruct (m rd p) as [[a p']|e|msg|msg]; simpl; intros Hm Hf; auto.
Qed.

Lemma spec_weaken {A} (P Q : A -> Prop) r :
  spec rd P r -> (forall a, P a -> Q a) -> spec rd Q r.
Proof. destruct r as [[a p']|e|msg|msg]; simpl; auto. Qed.

Lemma spec_healthy {A} (P : A -> Prop) r :
  spec rd P r -> healthy rd -> exists a p, r = Ret (a, p) /\ P a.
Proof.
  destruct r as [[a p']|e|msg|msg]; simpl; intros H Hh.
  - eauto.
  - destruct H as [_ H]. contradiction.
  - contradiction.
  - contradiction.
Qed.

Lemma broken_not_healthy p e : rd p = Broken e -> ~ healthy rd.
Proof. intros Hb Hh. destruct (Hh p) as [raw Hr]. congruence. Qed.

(** ** The random primitives *)

Lemma spec_rand_Int max p :
  1 <= max ->
  spec rd (fun res => exists n, res = BigInt n /\ 0 <= n < max) (rand_Int max rd p)
  \/ exists e, rand_Int max rd p = Ret (BigNil e, S p) /\ rd p = Broken e.
Proof.
  intros Hmax. unfold rand_Int.
  destruct (Z.leb_spec max 0); [lia|].
  destruct (Z.eqb_spec max 1).
  - left. simpl. exists 0. split; [done|lia].
  - destruct (rd p) as [raw|e] eqn:Hrd.
    + left. simpl. exists (raw mod max). split; [done|]. apply Z.mod_pos_bound. lia.
    + right. eauto.
Qed.

Lemma spec_randomRune (set : list rune) p :
  set <> [] -> spec rd (fun r => r ∈ set) (randomRune set rd p).
Proof.
  intros Hset. unfold randomRune.
  destruct (Nat.eqb_spec (length set) 0) as [H0|H0].
  { destruct set; simpl in *; congruence. }
  destruct (spec_rand_Int (Z.of_nat (length set)) p) as [H|[e [H Hrd]]]; [lia| |].
  - eapply spec_bind; [exact H|]. intros res p' [n [-> Hn]].
    destruct (lookup_lt_is_Some_2 set (Z.to_nat n)) as [r Hr]; [lia|].
    rewrite Hr. unfold ret; simpl. eapply list_elem_of_lookup_2, Hr.
  - unfold bind. rewrite H. unfold fail. simpl.
    split; [by exists e|]. exact (broken_not_healthy _ _ Hrd).
Qed.

Lemma spec_drawRunes n (set out : list rune) p :
  set <> [] ->
  spec rd (fun out' => exists c, out' = out ++ c /\ length c = n /\ Forall (.∈ set) c)
       (drawRunes n set out rd p).
Proof.
  intros Hset. revert out p. induction n as [|n IH]; intros out p; simpl.
  - unfold ret; simpl. exists []. rewrite app_nil_r. auto.
  - eapply spec_bind; [apply spec_randomRune, Hset|].
    intros r p' Hr. eapply spec_weaken; [apply IH|].
    cbv beta. intros out' [c [-> [Hlen Hc]]]. exists (r :: c).
    rewrite <- app_assoc. simpl. repeat split; auto.
Qed.

(** ** The shuffle *)

Lemma spec_swap i j (r : list rune) p :
  (i < length r)%nat -> (j < length r)%nat ->
  spec rd (fun r' => r' ≡ₚ r) (swap i j r rd p).
Proof.
  intros Hi Hj. unfold swap.
  destruct (lookup_lt_is_Some_2 r i Hi) as [ri Hri].
  destruct (lookup_lt_is_Some_2 r j Hj) as [rj Hrj].
  rewrite Hri, Hrj. unfold ret; simpl.
  by apply Permutation_insert_swap.
Qed.

Lemma spec_shuffleFrom i (r : list rune) p :
  (i < length r)%nat ->
  spec rd (fun r' => r' ≡ₚ r) (shuffleFrom i r rd p).
Proof.
  revert r p. induction i as [|i IH]; intros r p Hi.
  - unfold shuffleFrom, ret; simpl. done.
  - cbn [shuffleFrom].
    destruct (spec_rand_Int (Z.of_nat (S i) + 1) p) as [H|[e [H Hrd]]]; [lia| |].
    + eapply spec_bind; [exact H|]. cbv beta. intros res p' [j [-> Hj]].
      eapply spec_bind; [apply (spec_swap (S i) (Z.to_nat j)); lia|].
      cbv beta. intros r' p'' Hr'. eapply spec_weaken.
      * apply IH. rewrite (Permutation_length Hr'). lia.
      * cbv beta. intros r'' Hr''. by rewrite Hr''.
    + unfold bind. rewrite H. unfold panic. simpl.
      exact (broken_not_healthy _ _ Hrd).
Qed.

Lemma spec_shuffleRunes (r : list rune) p :
  spec rd (fun r' => r' ≡ₚ r) (shuffleRunes r rd p).
Proof.
  unfold shuffleRunes. destruct r as [|x r].
  - unfold shuffleFrom, ret; simpl. done.
  - apply spec_shuffleFrom. simpl. lia.
Qed.

(** ** Minima first, then the remainder *)

Lemma spec_satisfyMinima sets mins (out : list rune) p :
  length sets = length mins ->
  Forall (fun set => set <> []) sets ->
  spec rd (fun out' => exists x, out' = out ++ x /\ composed sets mins x)
       (satisfyMinima sets mins out rd p).
Proof.
  revert mins out p. induction sets as [|set sets IH]; intros mins out p Hlen Hne.
  - unfold satisfyMinima, ret; simpl. exists []. by rewrite app_nil_r.
  - destruct mins as [|m mins]; [discriminate|]. cbn [satisfyMinima].
    inversion Hne as [|? ? Hset Hsets]; subst.
    eapply spec_bind; [apply spec_drawRunes, Hset|].
    cbv beta. intros out' p' [c [-> [Hc Hin]]].
    eapply spec_weaken; [apply IH; [by inversion Hlen|done]|].
    cbv beta. intros out'' [x' [-> Hx']]. exists (c ++ x').
    rewrite app_assoc. split; [done|]. simpl. eauto 10.
Qed.

End OverReader.

Lemma concatClasses_concat (classes : list (list rune)) :
  concatClasses classes = concat classes.
Proof.
  unfold concatClasses.
  assert (H : forall acc, fold_left (fun out c : list rune => out ++ c) classes acc
                          = acc ++ concat classes).
  { induction classes as [|c cs IH]; intros acc; simpl.
    - by rewrite app_nil_r.
    - by rewrite IH, app_assoc. }
  apply H.
Qed.

Lemma composed_elem_of sets mins x :
  composed sets mins x -> Forall (.∈ concat sets) x.
Proof.
  revert mins x. induction sets as [|set sets IH]; intros mins x; simpl.
  - by intros ->.
  - destruct mins as [|m mins]; [done|].
    intros [c [x' [-> [_ [Hc Hx']]]]]. apply Forall_app. split.
    + eapply Forall_impl; [exact Hc|]. intros r Hr. apply elem_of_app. by left.
    + eapply Forall_impl; [exact (IH _ _ Hx')|]. intros r Hr.
      apply elem_of_app. by right.
Qed.

(** ** The class pool *)

Lemma elem_of_enabled o c : c ∈ enabled o <-> Use o c = true.
Proof.
  unfold enabled.
  destruct o as [? ? [] [] [] [] ? ? ? ? ? ?], c; simpl;
    first [ by (split; [done | intros _; apply (bool_decide_unpack _); vm_compute])
          | by (split; [intros H; apply (bool_decide_pack _) in H;
                        vm_compute in H | done]) ].
Qed.

Lemma NoDup_enabled o : NoDup (enabled o).
Proof.
  unfold enabled.
  destruct o as [? ? [] [] [] [] ? ? ? ? ? ?]; simpl;
    apply (bool_decide_unpack _); by vm_compute.
Qed.

Ltac split_min_tests :=
  repeat (match goal with
          | |- context [?m >? 0] => destruct (Z.gtb_spec m 0)
          | |- context [?m <? 0] => destruct (Z.ltb_spec m 0)
          end; simpl).

Lemma collect_inl o sets mins :
  collectClassesAndValidate o = inl (sets, mins) ->
  sets = class_chars <$> enabled o /\ mins = Min o <$> enabled o
  /\ enabled o <> []
  /\ (forall c, Use o c = true -> 0 <= Min o c)
  /\ (forall c, Use o c = false -> Min o c <= 0).
Proof.
  unfold collectClassesAndValidate, collectClass, enabled.
  destruct o as [? ? [] [] [] [] ? ? ? ? ? ?]; simpl;
    split_min_tests; simpl; intros Hc; try discriminate;
    inversion Hc; subst; clear Hc;
    (split; [reflexivity|]; split; [reflexivity|]; split; [discriminate|];
     split; intros []; simpl; intros; (done || lia)).
Qed.

Lemma collect_total o :
  enabled o <> [] ->
  (forall c, Use o c = true -> 0 <= Min o c) ->
  (forall c, Use o c = false -> Min o c <= 0) ->
  collectClassesAndValidate o
  = inl (class_chars <$> enabled o, Min o <$> enabled o).
Proof.
  unfold collectClassesAndValidate, collectClass, enabled.
  destruct o as [? ? uL uU uN uS mL mU mN mS ? ?]; simpl. intros Hne Hon Hoff.
  pose proof (Hon Lower) as HL. pose proof (Hon Upper) as HU.
  pose proof (Hon Number) as HN. pose proof (Hon Symbol) as HS.
  pose proof (Hoff Lower) as HL'. pose proof (Hoff Upper) as HU'.
  pose proof (Hoff Number) as HN'. pose proof (Hoff Symbol) as HS'.
  simpl in *.
  destruct uL, uU, uN, uS; simpl in *; try done;
    split_min_tests; simpl; try done; lia.
Qed.

Lemma collect_disabled_minimum o :
  (exists c, Use o c = false /\ 0 < Min o c) ->
  exists c, collectClassesAndValidate o = inr (ErrDisabledClassMinimum c)
            /\ Use o c = false /\ 0 < Min o c.
Proof.
  unfold collectClassesAndValidate, collectClass.
  destruct o as [? ? uL uU uN uS mL mU mN mS ? ?]; simpl. intros [c [Hc Hm]].
  destruct uL, uU, uN, uS, c; simpl in *; try discriminate; split_min_tests;
    try lia;
    first [ by (exists Lower) | by (exists Upper) | by (exists Number)
          | by (exists Symbol) ].
Qed.

Lemma collect_no_classes o :
  (forall c, Use o c = false) -> (forall c, Min o c <= 0) ->
  collectClassesAndValidate o = inr ErrNoClasses.
Proof.
  unfold collectClassesAndValidate, collectClass. intros Hu Hm.
  pose proof (Hu Lower) as HL. pose proof (Hu Upper) as HU.
  pose proof (Hu Number) as HN. pose proof (Hu Symbol) as HS.
  pose proof (Hm Lower) as HL'. pose proof (Hm Upper) as HU'.
  pose proof (Hm Number) as HN'. pose proof (Hm Symbol) as HS'.
  simpl in *. rewrite HL, HU, HN, HS. split_min_tests; (done || lia).
Qed.

Lemma collect_negative_minimum o :
  (forall c, Use o c = false -> Min o c <= 0) ->
  (exists c, Use o c = true /\ Min o c < 0) ->
  collectClassesAndValidate o = inr ErrNegativeMinimum.
Proof.
  unfold collectClassesAndValidate, collectClass.
  destruct o as [? ? uL uU uN uS mL mU mN mS ? ?]; simpl. intros Hoff [c [Hc Hm]].
  pose proof (Hoff Lower) as HL'. pose proof (Hoff Upper) as HU'.
  pose proof (Hoff Number) as HN'. pose proof (Hoff Symbol) as HS'.
  simpl in *.
  destruct uL, uU, uN, uS, c; simpl in *; try discriminate; split_min_tests;
    (done || lia).
Qed.

(** ** Counting the runes of a class *)

Lemma count_in_app set l1 l2 :
  count_in set (l1 ++ l2) = (count_in set l1 + count_in set l2)%nat.
Proof. unfold count_in. by rewrite filter_app, length_app. Qed.

Lemma count_in_perm set l1 l2 : l1 ≡ₚ l2 -> count_in set l1 = count_in set l2.
Proof. unfold count_in. intros H. by rewrite H. Qed.

Lemma count_in_all set l : Forall (.∈ set) l -> count_in set l = length l.
Proof.
  unfold count_in. induction 1 as [|r l Hr Hl IH]; [done|].
  rewrite filter_cons_True by done. simpl. by rewrite IH.
Qed.

Lemma count_in_none set l : Forall (.∉ set) l -> count_in set l = 0%nat.
Proof.
  unfold count_in. induction 1 as [|r l Hr Hl IH]; [done|].
  by rewrite filter_cons_False.
Qed.

(** No rune belongs to two classes. *)
Lemma classes_disjoint c c' r :
  r ∈ class_chars c -> r ∈ class_chars c' -> c = c'.
Proof.
  assert (H : forall a b, a <> b ->
                Forall (fun r => r ∉ class_chars b) (class_chars a)).
  { intros a b Hab. destruct a, b; try done;
      apply (bool_decide_unpack _); by vm_compute. }
  intros Hc Hc'. destruct (decide (c = c')) as [|Hne]; [done|].
  specialize (H c c' Hne). rewrite Forall_forall in H.
  exfalso. by apply (H r).
Qed.

Lemma class_chars_nonempty c : class_chars c <> [].
Proof. by destruct c. Qed.

(** In a sequence composed for distinct classes, each of these classes
    has exactly its minimum, and every other class has nothing. *)
Lemma composed_count o cs x c :
  NoDup cs ->
  composed (class_chars <$> cs) (Min o <$> cs) x ->
  count_in (class_chars c) x = if decide (c ∈ cs) then Z.to_nat (Min o c) else 0%nat.
Proof.
  intros Hnd. revert x. induction Hnd as [|c0 cs Hc0 Hnd IH]; intros x; simpl.
  - intros ->. done.
  - intros [ch [x' [-> [Hlen [Hin Hx']]]]]. rewrite count_in_app, (IH _ Hx').
    destruct (decide (c = c0)) as [->|Hne].
    + rewrite count_in_all, Hlen by done.
      rewrite (decide_False (P := c0 ∈ cs)) by done.
      rewrite decide_True by (by left). lia.
    + rewrite count_in_none.
      * destruct (decide (c ∈ cs)) as [Hc|Hc].
        -- rewrite (decide_True (P := c ∈ c0 :: cs)) by (by right). done.
        -- rewrite (decide_False (P := c ∈ c0 :: cs)); [done|].
           rewrite elem_of_cons. intros [?|?]; done.
      * eapply Forall_impl; [exact Hin|]. intros r Hr Hr'. simpl in *.
        apply Hne. eapply classes_disjoint; eauto.
Qed.

(** ** Sums of minima *)

Lemma wrap_id z : min_int <= z <= max_int -> wrap z = z.
Proof.
  unfold wrap, min_int, max_int. intros H.
  rewrite Z.mod_small; lia.
Qed.

Lemma wrap_add_l a b : wrap (wrap a + b) = wrap (a + b).
Proof.
  unfold wrap. f_equal.
  replace ((a + 2 ^ 63) mod 2 ^ 64 - 2 ^ 63 + b + 2 ^ 63)
    with ((a + 2 ^ 63) mod 2 ^ 64 + b) by lia.
  rewrite Zplus_mod_idemp_l. f_equal. lia.
Qed.

(** [totalMin] is the exact sum of the minima, wrapped once. *)
Lemma sumMinima_wrap mins : sumMinima mins = wrap (foldr Z.add 0 mins).
Proof.
  unfold sumMinima.
  assert (H : forall acc, fold_left (fun t v => wrap (t + v)) mins (wrap acc)
                          = wrap (acc + foldr Z.add 0 mins)).
  { induction mins as [|m mins IH]; intros acc; simpl.
    - f_equal. lia.
    - rewrite wrap_add_l, IH. f_equal. lia. }
  specialize (H 0). rewrite wrap_id in H by (unfold min_int, max_int; lia).
  exact H.
Qed.

Lemma sum_enabled_minima_foldr o :
  foldr Z.add 0 (Min o <$> enabled o) = sum_enabled_minima o.
Proof.
  unfold sum_enabled_minima, enabled.
  destruct o as [? ? [] [] [] [] ? ? ? ? ? ?]; simpl; lia.
Qed.

Lemma composed_length_classes o cs x :
  composed (class_chars <$> cs) (Min o <$> cs) x ->
  length x = foldr (fun c n => (Z.to_nat (Min o c) + n)%nat) 0%nat cs.
Proof.
  revert x. induction cs as [|c cs IH]; intros x; simpl.
  - by intros ->.
  - intros [ch [x' [-> [Hlen [_ Hx']]]]]. rewrite length_app, Hlen.
    by rewrite (IH _ Hx').
Qed.

Lemma composed_length_enabled o x :
  (forall c, Use o c = true -> 0 <= Min o c) ->
  composed (class_chars <$> enabled o) (Min o <$> enabled o) x ->
  Z.of_nat (length x) = sum_enabled_minima o.
Proof.
  intros Hon Hx. rewrite (composed_length_classes _ _ _ Hx).
  pose proof (Hon Lower) as HL. pose proof (Hon Upper) as HU.
  pose proof (Hon Number) as HN. pose proof (Hon Symbol) as HS.
  unfold sum_enabled_minima, enabled.
  destruct o as [? ? [] [] [] [] ? ? ? ? ? ?]; simpl in *; lia.
Qed.

(** ** What [generateGeneric] returns *)

Lemma pool_nonempty o : enabled o <> [] -> pool o <> [].
Proof.
  unfold pool, enabled.
  by destruct o as [? ? [] [] [] [] ? ? ? ? ? ?].
Qed.

Lemma bind_makeRunes {B} cap (f : list rune -> M B) rd p :
  0 <= cap -> 4 * cap <= maxAlloc ->
  bind (makeRunes cap) f rd p = f [] rd p.
Proof.
  intros H0 Hcap. unfold bind, makeRunes.
  destruct (Z.ltb_spec cap 0); [lia|].
  destruct (Z.ltb_spec maxAlloc (4 * cap)); [lia|]. reflexivity.
Qed.

Lemma bind_makeRunes_panic {B} cap (f : list rune -> M B) rd p :
  maxAlloc < 4 * cap ->
  bind (makeRunes cap) f rd p = Panic makeslice_cap.
Proof.
  intros Hcap. unfold bind, makeRunes.
  destruct (Z.ltb_spec maxAlloc (4 * cap)); [|lia].
  by rewrite orb_true_r.
Qed.

Lemma spec_compose rd o p :
  enabled o <> [] ->
  spec rd (generic_output o)
    (bind (satisfyMinima (class_chars <$> enabled o) (Min o <$> enabled o) [])
       (fun out =>
          bind (fillRemainder (concatClasses (class_chars <$> enabled o)) (Length o) out)
            shuffleRunes) rd p).
Proof.
  intros Hne.
  eapply spec_bind.
  { apply spec_satisfyMinima; [by rewrite !length_fmap|].
    apply Forall_fmap, Forall_forall. intros c _. apply class_chars_nonempty. }
  cbv beta. intros out p' [x [-> Hx]]. simpl in *.
  eapply spec_bind.
  { unfold fillRemainder. apply spec_drawRunes.
    rewrite concatClasses_concat. by apply pool_nonempty. }
  cbv beta. intros out' p'' [f [-> [Hlen Hf]]].
  eapply spec_weaken; [apply spec_shuffleRunes|].
  cbv beta. intros r Hr. exists x, f. repeat split; try done.
  by rewrite concatClasses_concat in Hf.
Qed.

Lemma spec_generateGeneric rd o p :
  0 < Length o ->
  enabled o <> [] ->
  (forall c, Use o c = true -> 0 <= Min o c) ->
  (forall c, Use o c = false -> Min o c <= 0) ->
  sumMinima (Min o <$> enabled o) <= Length o ->
  4 * Length o <= maxAlloc ->
  spec rd (fun s => exists out, s = string_of_list_ascii out /\ generic_output o out)
    (generateGeneric o rd p).
Proof.
  intros HL Hne Hon Hoff Hsum Hcap. unfold generateGeneric.
  destruct (Z.leb_spec (Length o) 0); [lia|].
  rewrite (collect_total o Hne Hon Hoff).
  destruct (Z.gtb_spec (sumMinima (Min o <$> enabled o)) (Length o)); [lia|].
  rewrite bind_makeRunes by lia.
  pose proof (spec_compose rd o p Hne) as Hc.
  unfold bind in *.
  destruct (satisfyMinima _ _ _ rd p) as [[out p1]|e|msg|msg]; [|exact Hc..].
  destruct (fillRemainder _ _ out rd p1) as [[out2 p2]|e|msg|msg]; [|exact Hc..].
  destruct (shuffleRunes out2 rd p2) as [[out3 p3]|e|msg|msg]; [|exact Hc..].
  unfold ret; simpl in *. eauto.
Qed.

Lemma generateGeneric_Ret o rd p s p' :
  generateGeneric o rd p = Ret (s, p') ->
  0 < Length o /\ enabled o <> []
  /\ (forall c, Use o c = true -> 0 <= Min o c)
  /\ (forall c, Use o c = false -> Min o c <= 0)
  /\ sumMinima (Min o <$> enabled o) <= Length o
  /\ 4 * Length o <= maxAlloc
  /\ exists out, s = string_of_list_ascii out /\ generic_output o out.
Proof.
  intros Hret. pose proof Hret as Hg. unfold generateGeneric in Hg.
  destruct (Z.leb_spec (Length o) 0) as [|HL]; [discriminate|].
  destruct (collectClassesAndValidate o) as [[sets mins]|e] eqn:Hcol; [|discriminate].
  destruct (collect_inl _ _ _ Hcol) as (-> & -> & Hne & Hon & Hoff).
  destruct (Z.gtb_spec (sumMinima (Min o <$> enabled o)) (Length o)) as [|Hsum];
    [discriminate|].
  assert (Hcap : 4 * Length o <= maxAlloc).
  { destruct (Z.le_gt_cases (4 * Length o) maxAlloc) as [|Hbig]; [done|].
    rewrite bind_makeRunes_panic in Hg by lia. discriminate. }
  repeat (split; [assumption|]).
  pose proof (spec_generateGeneric rd o p HL Hne Hon Hoff Hsum Hcap) as Hs.
  rewrite Hret in Hs. exact Hs.
Qed.

Lemma runes_string_of_list l : runes (string_of_list_ascii l) = l.
Proof. apply list_ascii_of_string_of_list_ascii. Qed.

Lemma length_runes s : length (runes s) = String.length s.
Proof. induction s as [|a s IH]; simpl; [done|by rewrite IH]. Qed.

Lemma elem_of_concat (r : rune) (ls : list (list rune)) :
  r ∈ concat ls <-> exists l, r ∈ l /\ l ∈ ls.
Proof.
  induction ls as [|l ls IH]; simpl.
  - split; [by intros ?%elem_of_nil|]. by intros [l [_ ?%elem_of_nil]].
  - rewrite elem_of_app, IH. split.
    + intros [H|[l' [H1 H2]]]; [exists l; split; [done|by left]|].
      exists l'. split; [done|by right].
    + intros [l' [H1 H2]]. apply elem_of_cons in H2 as [->|H2]; [by left|].
      right. eauto.
Qed.

Lemma elem_of_pool o r :
  r ∈ pool o <-> exists c, Use o c = true /\ r ∈ class_chars c.
Proof.
  unfold pool. rewrite elem_of_concat. split.
  - intros [set [Hr Hset]]. apply list_elem_of_fmap in Hset as [c [-> Hc]].
    exists c. by rewrite <- elem_of_enabled.
  - intros [c [Hc Hr]]. exists (class_chars c). split; [done|].
    apply list_elem_of_fmap. exists c. by rewrite elem_of_enabled.
Qed.

Lemma generic_output_pool o out : generic_output o out -> Forall (.∈ pool o) out.
Proof.
  intros (x & f & Hx & _ & Hf & Hperm). rewrite Hperm.
  apply Forall_app. split; [|done]. by apply composed_elem_of in Hx.
Qed.

Lemma generic_output_count o out c :
  generic_output o out -> Use o c = true ->
  (Z.to_nat (Min o c) <= count_in (class_chars c) out)%nat.
Proof.
  intros (x & f & Hx & _ & _ & Hperm) Hc.
  rewrite (count_in_perm _ _ _ Hperm), count_in_app.
  rewrite (composed_count o _ _ c (NoDup_enabled o) Hx).
  rewrite decide_True by (by apply elem_of_enabled). lia.
Qed.

Lemma generic_output_length o out :
  generic_output o out ->
  (forall c, Use o c = true -> 0 <= Min o c) ->
  Z.of_nat (length out) = Z.max (sum_enabled_minima o) (Length o).
Proof.
  intros (x & f & Hx & Hf & _ & Hperm) Hon.
  rewrite (Permutation_length Hperm), length_app, Hf.
  pose proof (composed_length_enabled o x Hon Hx). lia.
Qed.

(** With nothing left to fill, each class has exactly its minimum. *)
Lemma generic_output_exact o out c :
  generic_output o out ->
  (forall c, Use o c = true -> 0 <= Min o c) ->
  sum_enabled_minima o = Length o ->
  count_in (class_chars c) out
  = if Use o c then Z.to_nat (Min o c) else 0%nat.
Proof.
  intros (x & f & Hx & Hf & _ & Hperm) Hon Hsum.
  pose proof (composed_length_enabled o x Hon Hx) as Hlen.
  assert (f = []) as ->.
  { apply length_zero_iff_nil. lia. }
  rewrite app_nil_r in Hperm.
  rewrite (count_in_perm _ _ _ Hperm).
  rewrite (composed_count o _ _ c (NoDup_enabled o) Hx).
  destruct (Use o c) eqn:Hc.
  - rewrite decide_True; [done|]. by apply elem_of_enabled.
  - rewrite decide_False; [done|]. rewrite elem_of_enabled. congruence.
Qed.

(** ** Segments *)

Lemma writeSegments_inside k i (g rest : list rune) :
  0 < k -> 0 <= i ->
  (forall t, 0 <= t < Z.of_nat (length g) -> (i + t) mod k <> 0) ->
  writeSegments k i (g ++ rest) = g ++ writeSegments k (i + Z.of_nat (length g)) rest.
Proof.
  intros Hk. revert i. induction g as [|a g IH]; intros i Hi Hno.
  - simpl. f_equal. lia.
  - cbn [writeSegments app length].
    assert (Hrem : (Z.rem i k =? 0) = false).
    { apply Z.eqb_neq. rewrite Z.rem_mod_nonneg by lia.
      specialize (Hno 0). rewrite Z.add_0_r in Hno. apply Hno. simpl. lia. }
    rewrite Hrem, andb_false_r. simpl. f_equal.
    rewrite IH; [do 2 f_equal; lia|lia|].
    intros t Ht. replace (i + 1 + t) with (i + (t + 1)) by lia. apply Hno.
    cbn [length]. lia.
Qed.

Lemma writeSegments_group k m (g rest : list rune) :
  0 < k -> 0 <= m -> Z.of_nat (length g) = k ->
  writeSegments k (m * k) (g ++ rest)
  = (if 0 <? m then ["-"%char] else []) ++ g ++ writeSegments k ((m + 1) * k) rest.
Proof.
  intros Hk Hm Hg. destruct g as [|a g]; [simpl in Hg; lia|].
  cbn [writeSegments app].
  assert (Hrem : (Z.rem (m * k) k =? 0) = true).
  { apply Z.eqb_eq. rewrite Z.rem_mod_nonneg by nia. apply Z_mod_mult. }
  rewrite Hrem, andb_true_r.
  assert (H0 : (0 <? m * k) = (0 <? m)).
  { destruct (Z.ltb_spec 0 m), (Z.ltb_spec 0 (m * k)); try done; nia. }
  rewrite H0. f_equal. f_equal.
  rewrite writeSegments_inside; [simpl in Hg; do 2 f_equal; lia|lia|nia|].
  intros t Ht. simpl in Hg.
  replace (m * k + 1 + t) with ((1 + t) + m * k) by lia.
  rewrite Z_mod_plus_full, Z.mod_small; lia.
Qed.

Lemma writeSegments_groups n k m (core : list rune) :
  (0 < k)%nat -> 0 <= m -> length core = (n * k)%nat ->
  writeSegments (Z.of_nat k) (m * Z.of_nat k) core
  = match n with
    | O => []
    | S _ => (if 0 <? m then ["-"%char] else []) ++ join_dash (groups n k core)
    end.
Proof.
  intros Hk. revert m core. induction n as [|n IH]; intros m core Hm Hlen.
  - destruct core; [done|discriminate].
  - rewrite <- (take_drop k core) at 1.
    assert (Htake : length (take k core) = k) by (rewrite length_take; lia).
    assert (Hdrop : length (drop k core) = (n * k)%nat) by (rewrite length_drop; lia).
    rewrite writeSegments_group by lia. f_equal.
    rewrite (IH (m + 1) (drop k core)) by lia.
    cbn [groups join_dash]. destruct n as [|n].
    + simpl. by rewrite app_nil_r.
    + destruct (Z.ltb_spec 0 (m + 1)); [|lia]. done.
Qed.

Lemma length_groups n k (core : list rune) : length (groups n k core) = n.
Proof. revert core. induction n as [|n IH]; intros core; simpl; auto. Qed.

(** The groups are the sequence cut in order, each [k] runes long. *)
Lemma concat_groups n k (core : list rune) :
  length core = (n * k)%nat -> concat (groups n k core) = core.
Proof.
  revert core. induction n as [|n IH]; intros core Hlen; simpl.
  - by destruct core.
  - rewrite IH; [apply take_drop|]. rewrite length_drop. simpl in Hlen. lia.
Qed.

Lemma Forall_length_groups n k (core : list rune) :
  length core = (n * k)%nat -> Forall (fun g => length g = k) (groups n k core).
Proof.
  revert core. induction n as [|n IH]; intros core Hlen; simpl; constructor.
  - rewrite length_take. simpl in Hlen. lia.
  - apply IH. rewrite length_drop. simpl in Hlen. lia.
Qed.

Lemma length_join_dash gs :
  length (join_dash gs) = (length (concat gs) + (length gs - 1))%nat.
Proof.
  induction gs as [|g gs IH]; [done|].
  cbn [join_dash]. destruct gs as [|g' gs].
  - simpl. rewrite app_nil_r. lia.
  - rewrite length_app. cbn [length]. rewrite IH.
    cbn [concat length]. rewrite !length_app. lia.
Qed.

Lemma length_join_dash_groups n k (core : list rune) :
  length core = (n * k)%nat ->
  length (join_dash (groups n k core)) = (n * k + (n - 1))%nat.
Proof.
  intros Hlen.
  by rewrite length_join_dash, concat_groups, length_groups, Hlen.
Qed.

Lemma phase_succ k i :
  0 < k -> 0 <= i -> i mod k <> 0 \/ i = 0 -> phase k (i + 1) = S (phase k i).
Proof.
  intros Hk Hi Hmod. unfold phase.
  destruct (Z.eqb_spec (i + 1) 0); [lia|].
  replace (i + 1 - 1) with i by lia.
  destruct (Z.eqb_spec i 0) as [->|Hi0].
  - rewrite Z.mod_0_l by lia. done.
  - destruct Hmod as [Hmod|]; [|done].
    pose proof (Z.mod_pos_bound i k Hk). pose proof (Z.mod_pos_bound (i - 1) k Hk).
    assert ((i - 1) mod k = i mod k - 1); [|lia].
    symmetry. apply (Z.mod_unique_pos _ _ (i / k)); [lia|].
    pose proof (Z.div_mod i k). lia.
Qed.

Lemma phase_boundary k i :
  0 < k -> 0 < i -> i mod k = 0 -> phase k i = Z.to_nat k.
Proof.
  intros Hk Hi Hmod. unfold phase.
  destruct (Z.eqb_spec i 0); [lia|]. f_equal.
  assert ((i - 1) mod k = k - 1); [|lia].
  symmetry. apply (Z.mod_unique_pos _ _ (i / k - 1)); [lia|].
  pose proof (Z.div_mod i k). lia.
Qed.

Lemma phase_inside k i :
  0 < k -> 0 <= i -> i mod k <> 0 \/ i = 0 -> phase k i <> Z.to_nat k.
Proof.
  intros Hk Hi Hmod. unfold phase.
  destruct (Z.eqb_spec i 0) as [->|Hi0]; [lia|].
  destruct Hmod as [Hmod|]; [|done].
  pose proof (Z.mod_pos_bound (i - 1) k Hk).
  assert ((i - 1) mod k <> k - 1); [|lia].
  intros Heq. apply Hmod.
  symmetry. apply (Z.mod_unique_pos _ _ ((i - 1) / k + 1)); [lia|].
  pose proof (Z.div_mod (i - 1) k). lia.
Qed.

Lemma phase_after_boundary k i :
  0 < k -> 0 <= i -> i mod k = 0 -> phase k (i + 1) = 1%nat.
Proof.
  intros Hk Hi Hmod. unfold phase.
  destruct (Z.eqb_spec (i + 1) 0); [lia|].
  replace (i + 1 - 1) with i by lia. by rewrite Hmod.
Qed.

Lemma unsegment_writeSegments k i (core : list rune) :
  0 < k -> 0 <= i ->
  unsegment (Z.to_nat k) (phase k i) (writeSegments k i core) = core.
Proof.
  intros Hk. revert i. induction core as [|r core IH]; intros i Hi; [done|].
  cbn [writeSegments].
  destruct (Z.ltb_spec 0 i) as [Hi0|Hi0];
    [destruct (Z.eqb_spec (Z.rem i k) 0) as [Hrem|Hrem]|];
    cbn [andb app unsegment].
  - rewrite Z.rem_mod_nonneg in Hrem by lia.
    rewrite (phase_boundary k i) by lia. rewrite Nat.eqb_refl.
    destruct (Nat.eqb_spec 0 (Z.to_nat k)); [lia|].
    f_equal. specialize (IH (i + 1)).
    rewrite (phase_after_boundary k i) in IH by lia. apply IH. lia.
  - rewrite Z.rem_mod_nonneg in Hrem by lia.
    destruct (Nat.eqb_spec (phase k i) (Z.to_nat k)) as [Heq|_].
    { exfalso. revert Heq. apply phase_inside; auto. }
    f_equal. rewrite <- (phase_succ k i) by auto. apply IH. lia.
  - assert (i = 0) as -> by lia.
    destruct (Nat.eqb_spec (phase k 0) (Z.to_nat k)) as [Heq|_].
    { exfalso. revert Heq. apply phase_inside; auto. }
    f_equal. rewrite <- (phase_succ k 0) by auto. apply IH. lia.
Qed.

(** ** Dispatch *)

Lemma Generate_generic o rd :
  Format o = FormatGeneric -> Generate o rd = run (generateGeneric o) rd.
Proof. unfold Generate. by intros ->. Qed.

Lemma Generate_appkey o rd :
  Format o = FormatAppKey -> Generate o rd = run (generateAppKey o) rd.
Proof. unfold Generate. by intros ->. Qed.

Lemma Generate_guid o rd :
  Format o = FormatGUID -> Generate o rd = run generateUUIDv4 rd.
Proof. unfold Generate. by intros ->. Qed.

Lemma run_Ret {A} (m : M A) rd a :
  run m rd = Ret a <-> exists p, m rd 0%nat = Ret (a, p).
Proof.
  unfold run. destruct (m rd 0%nat) as [[a' p]|e|msg|msg]; split.
  - intros [= ->]. eauto.
  - by intros [p' [= -> _]].
  - done.
  - by intros [? ?].
  - done.
  - by intros [? ?].
  - done.
  - by intros [? ?].
Qed.

Lemma generateAppKey_Ret o rd p s p' :
  generateAppKey o rd p = Ret (s, p') ->
  0 < Segments o /\ 0 < SegmentLength o
  /\ 0 <= wrap (wrap (Segments o * SegmentLength o) + wrap (Segments o - 1))
       <= maxAlloc
  /\ exists core,
       generateGeneric (withLength o (wrap (Segments o * SegmentLength o))) rd p
       = Ret (core, p')
       /\ s = string_of_list_ascii (writeSegments (SegmentLength o) 0 (runes core)).
Proof.
  unfold generateAppKey.
  destruct (Z.leb_spec (Segments o) 0); [discriminate|].
  destruct (Z.leb_spec (SegmentLength o) 0); [discriminate|].
  unfold bind, Grow.
  destruct (generateGeneric _ rd p) as [[core p1]|e|msg|msg]; [|discriminate..].
  destruct (Z.ltb_spec (wrap (wrap (Segments o * SegmentLength o)
                                + wrap (Segments o - 1))) 0); [discriminate|].
  destruct (Z.ltb_spec maxAlloc (wrap (wrap (Segments o * SegmentLength o)
                                       + wrap (Segments o - 1)))); [discriminate|].
  unfold ret. intros [= <- <-]. eauto 10.
Qed.

(** Every successful generic or app-key generation is a generic output
    for the derived length, and passed every check on the way. *)
Lemma Generate_Ret o rd s :
  Format o = FormatGeneric \/ Format o = FormatAppKey ->
  Generate o rd = Ret s ->
  length_checks o
  /\ (forall c, Use o c = true -> 0 <= Min o c)
  /\ (forall c, Use o c = false -> Min o c <= 0)
  /\ sumMinima (Min o <$> enabled o) <= derivedLength o
  /\ generic_output (withLength o (derivedLength o)) (generated o s).
Proof.
  unfold length_checks, derivedLength, generated. intros [Hf|Hf] Hgen.
  - rewrite Generate_generic in Hgen by done. apply run_Ret in Hgen as [p Hgen].
    apply generateGeneric_Ret
      in Hgen as (HL & _ & Hon & Hoff & Hsum & _ & out & -> & Hout).
    rewrite Hf. simpl. rewrite runes_string_of_list.
    split; [split; [discriminate|done]|]. by repeat split.
  - rewrite Generate_appkey in Hgen by done. apply run_Ret in Hgen as [p Hgen].
    apply generateAppKey_Ret in Hgen as (Hs & Hk & _ & core & Hgen & ->).
    apply generateGeneric_Ret
      in Hgen as (HL & _ & Hon & Hoff & Hsum & _ & out & -> & Hout).
    rewrite Hf. simpl in *. rewrite !runes_string_of_list.
    change 0%nat with (phase (SegmentLength o) 0).
    rewrite unsegment_writeSegments by lia.
    split; [split; [done|done]|]. by repeat split.
Qed.

(** A successful generation allocated its runes within the limit. *)
Lemma Generate_Ret_allocated o rd s :
  Format o = FormatGeneric \/ Format o = FormatAppKey ->
  Generate o rd = Ret s ->
  4 * derivedLength o <= maxAlloc.
Proof.
  unfold derivedLength. intros [Hf|Hf] Hgen; rewrite Hf; simpl.
  - rewrite Generate_generic in Hgen by done. apply run_Ret in Hgen as [p Hgen].
    by apply generateGeneric_Ret in Hgen as (_ & _ & _ & _ & _ & Hcap & _).
  - rewrite Generate_appkey in Hgen by done. apply run_Ret in Hgen as [p Hgen].
    apply generateAppKey_Ret in Hgen as (_ & _ & _ & core & Hgen & _).
    by apply generateGeneric_Ret in Hgen as (_ & _ & _ & _ & _ & Hcap & _).
Qed.

Lemma healthy_counting : healthy counting.
Proof. intros n. eexists. reflexivity. Qed.

(** ** Success of a generation over a source that never fails *)

Lemma Generate_healthy o rd :
  Format o = FormatGeneric \/ Format o = FormatAppKey ->
  length_checks o ->
  (exists c, Use o c = true) ->
  (forall c, Use o c = true -> 0 <= Min o c) ->
  (forall c, Use o c = false -> Min o c <= 0) ->
  sumMinima (Min o <$> enabled o) <= derivedLength o ->
  4 * derivedLength o <= maxAlloc ->
  (Format o = FormatAppKey ->
   0 <= wrap (derivedLength o + wrap (Segments o - 1)) <= maxAlloc) ->
  healthy rd ->
  exists s, Generate o rd = Ret s.
Proof.
  unfold length_checks, derivedLength.
  intros Hfmt [Hseg HL] [c0 Hc0] Hon Hoff Hsum Hcap Hgrow Hrd.
  assert (Hne : enabled o <> []).
  { intros Hnil. apply elem_of_enabled in Hc0. rewrite Hnil in Hc0.
    by apply elem_of_nil in Hc0. }
  destruct Hfmt as [Hf|Hf]; rewrite Hf in *; simpl in *.
  - rewrite Generate_generic by done.
    destruct (spec_healthy _ _ _
                (spec_generateGeneric rd o 0%nat HL Hne Hon Hoff Hsum Hcap) Hrd)
      as (s & p & Hs & _).
    exists s. apply run_Ret. eauto.
  - rewrite Generate_appkey by done. destruct (Hseg eq_refl) as [Hs Hk].
    specialize (Hgrow eq_refl).
    set (tmp := withLength o (wrap (Segments o * SegmentLength o))).
    destruct (spec_healthy _ _ _
                (spec_generateGeneric rd tmp 0%nat HL Hne Hon Hoff Hsum Hcap) Hrd)
      as (core & p & Hcore & _).
    eexists. apply run_Ret. exists p. unfold generateAppKey.
    destruct (Z.leb_spec (Segments o) 0); [lia|].
    destruct (Z.leb_spec (SegmentLength o) 0); [lia|].
    unfold bind, Grow. fold tmp. rewrite Hcore.
    destruct (Z.ltb_spec (wrap (wrap (Segments o * SegmentLength o)
                                  + wrap (Segments o - 1))) 0); [lia|].
    destruct (Z.ltb_spec maxAlloc (wrap (wrap (Segments o * SegmentLength o)
                                         + wrap (Segments o - 1)))); [lia|].
    reflexivity.
Qed.

(** ** Minimum counts (C2) *)

(** C2. Whenever a generic or app-key generation succeeds, each
    toggled-on class has at least its declared minimum among the
    generated runes of the output (for an app key, the separators are
    not counted). *)
Theorem C2_minimum_counts o rd s c :
  Format o = FormatGeneric \/ Format o = FormatAppKey ->
  Generate o rd = Ret s ->
  Use o c = true ->
  Min o c <= Z.of_nat (count_in (class_chars c) (generated o s)).
Proof.
  intros Hfmt Hgen Hc.
  destruct (Generate_Ret o rd s Hfmt Hgen) as (_ & Hon & _ & _ & Hout).
  pose proof (generic_output_count _ _ c Hout Hc) as Hcount.
  change (Min (withLength o (derivedLength o)) c) with (Min o c) in Hcount.
  specialize (Hon c Hc). lia.
Qed.

(** C2 on [example_generic]: two digits at least. *)
Lemma C2_minimum_counts_witness :
  Generate example_generic counting = Ret "dkr1jc4qx4"
  /\ Use example_generic Number = true
  /\ Min example_generic Number
     <= Z.of_nat (count_in (class_chars Number) (generated example_generic "dkr1jc4qx4")).
Proof.
  assert (Hgen : Generate example_generic counting = Ret "dkr1jc4qx4")
    by (vm_compute; reflexivity).
  split; [exact Hgen|]. split; [reflexivity|].
  apply (C2_minimum_counts example_generic counting "dkr1jc4qx4" Number).
  - left. reflexivity.
  - exact Hgen.
  - reflexivity.
Defined.

(** ** Only toggled-on classes (C3) *)

(** C3. Every generated rune of a successful generic or app-key output
    belongs to the character set of a toggled-on class, and to the set
    of no toggled-off class. *)
Theorem C3_only_enabled_classes o rd s r :
  Format o = FormatGeneric \/ Format o = FormatAppKey ->
  Generate o rd = Ret s ->
  r ∈ generated o s ->
  (exists c, Use o c = true /\ r ∈ class_chars c)
  /\ (forall c, Use o c = false -> r ∉ class_chars c).
Proof.
  intros Hfmt Hgen Hr.
  destruct (Generate_Ret o rd s Hfmt Hgen) as (_ & _ & _ & _ & Hout).
  apply generic_output_pool in Hout. rewrite Forall_forall in Hout.
  apply Hout, elem_of_pool in Hr as [c [Hc Hrc]].
  change (Use (withLength o (derivedLength o)) c) with (Use o c) in Hc.
  split; [eauto|].
  intros c' Hc' Hrc'. rewrite (classes_disjoint _ _ _ Hrc' Hrc) in Hc'. congruence.
Qed.

(** C3 on [example_appkey], for one of its generated runes. *)
Lemma C3_only_enabled_classes_witness :
  Generate example_appkey counting = Ret "r_dk0-7;>Tf-F%Mmy"
  /\ "k"%char ∈ generated example_appkey "r_dk0-7;>Tf-F%Mmy"
  /\ (exists c, Use example_appkey c = true /\ "k"%char ∈ class_chars c)
  /\ (forall c, Use example_appkey c = false -> "k"%char ∉ class_chars c).
Proof.
  assert (Hgen : Generate example_appkey counting = Ret "r_dk0-7;>Tf-F%Mmy")
    by (vm_compute; reflexivity).
  assert (Hk : "k"%char ∈ generated example_appkey "r_dk0-7;>Tf-F%Mmy")
    by (apply (bool_decide_unpack _); vm_compute; exact I).
  split; [exact Hgen|]. split; [exact Hk|].
  apply (C3_only_enabled_classes example_appkey counting "r_dk0-7;>Tf-F%Mmy" "k").
  - right. reflexivity.
  - exact Hgen.
  - exact Hk.
Defined.

(** ** Output length (C1) *)

Lemma valid_config_sum o :
  valid_config o -> sum_enabled_minima o <= derived_length o
                    /\ 0 <= sum_enabled_minima o.
Proof.
  intros (_ & Hmin & Hoff & Hsum & _).
  pose proof (Hmin Lower). pose proof (Hmin Upper).
  pose proof (Hmin Number). pose proof (Hmin Symbol).
  pose proof (Hoff Lower). pose proof (Hoff Upper).
  pose proof (Hoff Number). pose proof (Hoff Symbol).
  unfold sum_enabled_minima. simpl in *.
  destruct (UseLower o), (UseUpper o), (UseNumber o), (UseSymbol o); lia.
Qed.

Lemma sumMinima_exact o :
  0 <= sum_enabled_minima o <= max_int ->
  sumMinima (Min o <$> enabled o) = sum_enabled_minima o.
Proof.
  intros H. rewrite sumMinima_wrap, sum_enabled_minima_foldr.
  apply wrap_id. unfold min_int, max_int in *. lia.
Qed.

Lemma length_writeSegments n k (core : list rune) :
  (0 < n)%nat -> (0 < k)%nat -> length core = (n * k)%nat ->
  length (writeSegments (Z.of_nat k) 0 core) = (n * k + (n - 1))%nat.
Proof.
  intros Hn Hk Hlen.
  pose proof (writeSegments_groups n k 0 core Hk (Z.le_refl 0) Hlen) as Hw.
  rewrite Z.mul_0_l in Hw. rewrite Hw. destruct n as [|n]; [lia|].
  cbn [Z.ltb Z.compare app]. by apply length_join_dash_groups.
Qed.

Lemma valid_overflowing_appkey : valid_config overflowing_appkey.
Proof.
  repeat split; try done.
  - by exists Lower.
  - by intros [].
  - by intros [].
Qed.

(** C1, as stated, fails: three segments of 6148914691236517206 runes
    pass validation, and [Generate] returns two runes. *)
Lemma C1_counterexample :
  ~ (forall o rd s,
        valid_config o ->
        Format o = FormatGeneric \/ Format o = FormatAppKey ->
        Generate o rd = Ret s ->
        Z.of_nat (String.length s) = expected_length o).
Proof.
  intros H.
  specialize (H overflowing_appkey counting "dk"%string valid_overflowing_appkey).
  discriminate H.
  - right. reflexivity.
  - vm_compute. reflexivity.
Qed.

(** C1, amended. For a configuration that passes validation and whose
    expected output length fits in an [int], every successful generation
    returns a string of the expected length: [Length] for the generic
    format, [Segments * SegmentLength + Segments - 1] for an app key. *)
Theorem C1_output_length o rd s :
  valid_config o ->
  Format o = FormatGeneric \/ Format o = FormatAppKey ->
  expected_length o <= max_int ->
  Generate o rd = Ret s ->
  Z.of_nat (String.length s) = expected_length o.
Proof.
  intros Hvalid Hfmt Hfit Hgen.
  destruct (valid_config_sum o Hvalid) as [Hsum Hsum0].
  destruct Hvalid as (Hex & Hmin & Hoff & _ & HL & Hseg).
  assert (Hder : derivedLength o = derived_length o /\ 0 < derived_length o
                 /\ derived_length o <= max_int).
  { unfold derivedLength, derived_length, expected_length in *.
    destruct Hfmt as [Hf|Hf]; rewrite Hf in *; simpl in *.
    - specialize (HL eq_refl). lia.
    - destruct (Hseg eq_refl) as [Hs Hk].
      assert (0 < Segments o * SegmentLength o) by nia.
      rewrite wrap_id; [lia|]. unfold min_int, max_int in *. lia. }
  destruct Hder as (Hder & Hpos & Hmax).
  destruct (Generate_Ret o rd s Hfmt Hgen) as (_ & Hon & _ & _ & Hout).
  apply generic_output_length in Hout; [|exact Hon].
  change (sum_enabled_minima (withLength o (derivedLength o)))
    with (sum_enabled_minima o) in Hout.
  change (Length (withLength o (derivedLength o))) with (derivedLength o) in Hout.
  rewrite Hder, Z.max_r in Hout by done.
  unfold generated, derived_length, expected_length in *.
  destruct Hfmt as [Hf|Hf]; rewrite Hf in *; simpl in *.
  - by rewrite <- length_runes.
  - rewrite Generate_appkey in Hgen by done. apply run_Ret in Hgen as [p Hgen].
    apply generateAppKey_Ret in Hgen as (Hs & Hk & _ & core & _ & ->).
    rewrite runes_string_of_list in Hout.
    change 0%nat with (phase (SegmentLength o) 0) in Hout.
    rewrite unsegment_writeSegments in Hout by lia.
    rewrite <- length_runes, runes_string_of_list.
    rewrite <- (Z2Nat.id (SegmentLength o)) at 1 by lia.
    rewrite (length_writeSegments (Z.to_nat (Segments o))); lia.
Qed.

(** C1 on [example_appkey]: 17 runes, two dashes among them. *)
Lemma C1_output_length_witness :
  valid_config example_appkey
  /\ expected_length example_appkey <= max_int
  /\ Generate example_appkey counting = Ret "r_dk0-7;>Tf-F%Mmy"
  /\ Z.of_nat (String.length "r_dk0-7;>Tf-F%Mmy") = 17.
Proof.
  assert (Hvalid : valid_config example_appkey).
  { repeat split; try done.
    - by exists Lower.
    - by intros [].
    - by intros []. }
  assert (Hfit : expected_length example_appkey <= max_int) by (vm_compute; discriminate).
  assert (Hgen : Generate example_appkey counting = Ret "r_dk0-7;>Tf-F%Mmy")
    by (vm_compute; reflexivity).
  split; [exact Hvalid|]. split; [exact Hfit|]. split; [exact Hgen|].
  exact (C1_output_length example_appkey counting "r_dk0-7;>Tf-F%Mmy" Hvalid
           (or_intror eq_refl) Hfit Hgen).
Defined.

(** ** Validation errors (C9, C10) *)

Lemma generateGeneric_collect_error o rd p e :
  0 < Length o -> collectClassesAndValidate o = inr e ->
  generateGeneric o rd p = Fail e.
Proof.
  intros HL He. unfold generateGeneric.
  destruct (Z.leb_spec (Length o) 0); [lia|]. by rewrite He.
Qed.

(** An error of the class pool is the error of [Generate], once the
    checks on the length have passed. *)
Lemma Generate_collect_error o rd e :
  Format o = FormatGeneric \/ Format o = FormatAppKey ->
  length_checks o ->
  collectClassesAndValidate o = inr e ->
  Generate o rd = Fail e.
Proof.
  unfold length_checks, derivedLength. intros [Hf|Hf] [Hseg HL] He.
  - rewrite Generate_generic by done. rewrite Hf in HL. simpl in HL.
    unfold run. by rewrite (generateGeneric_collect_error o rd 0%nat e).
  - rewrite Generate_appkey by done. rewrite Hf in HL. simpl in HL.
    destruct (Hseg Hf) as [Hs Hk]. unfold run, generateAppKey.
    destruct (Z.leb_spec (Segments o) 0); [lia|].
    destruct (Z.leb_spec (SegmentLength o) 0); [lia|].
    unfold bind.
    by rewrite (generateGeneric_collect_error
                  (withLength o (wrap (Segments o * SegmentLength o))) rd 0%nat e).
Qed.

(** C9. For a generic or app-key configuration that passes the checks on
    the length: a minimum above zero on a toggled-off class makes
    [Generate] fail with the disabled-class error of such a class; and
    with the four classes off and no minimum above zero, [Generate] fails
    with the no-classes error. *)
Theorem C9_class_pool_errors o rd :
  Format o = FormatGeneric \/ Format o = FormatAppKey ->
  length_checks o ->
  ((exists c, Use o c = false /\ 0 < Min o c) ->
   exists c, Use o c = false /\ 0 < Min o c
             /\ Generate o rd = Fail (ErrDisabledClassMinimum c))
  /\ ((forall c, Use o c = false) -> (forall c, Min o c <= 0) ->
      Generate o rd = Fail ErrNoClasses).
Proof.
  intros Hfmt Hlen. split.
  - intros Hex. destruct (collect_disabled_minimum o Hex) as (c & Hcol & Hc & Hm).
    exists c. repeat split; try done. by apply Generate_collect_error.
  - intros Hoff Hmin. apply Generate_collect_error; [done..|].
    by apply collect_no_classes.
Qed.

(** C9 on [minimum_on_disabled] and on [nothing_enabled]. *)
Lemma C9_class_pool_errors_witness :
  Generate minimum_on_disabled counting = Fail (ErrDisabledClassMinimum Number)
  /\ Generate nothing_enabled counting = Fail ErrNoClasses.
Proof.
  split.
  - assert (Hlen : length_checks minimum_on_disabled).
    { split; [discriminate|reflexivity]. }
    destruct (C9_class_pool_errors minimum_on_disabled counting
                (or_introl eq_refl) Hlen) as [Hdis _].
    destruct Hdis as (c & Hc & Hm & Hgen).
    { exists Number. split; reflexivity. }
    destruct c; simpl in Hc, Hm; try discriminate. exact Hgen.
  - assert (Hlen : length_checks nothing_enabled).
    { split; [intros _; split; reflexivity|reflexivity]. }
    destruct (C9_class_pool_errors nothing_enabled counting
                (or_intror eq_refl) Hlen) as [_ Hnone].
    apply Hnone.
    + by intros [].
    + by intros [].
Defined.

(** C10. A generic configuration whose length is not positive fails with
    the length error, whatever its toggles and minima are: the check
    comes before the class pool is built. *)
Theorem C10_length_not_positive o rd :
  Format o = FormatGeneric ->
  Length o <= 0 ->
  Generate o rd = Fail ErrLength /\ Error ErrLength = "length must be > 0"%string.
Proof.
  intros Hf HL. split; [|reflexivity].
  rewrite Generate_generic by done. unfold run, generateGeneric.
  destruct (Z.leb_spec (Length o) 0); [done|lia].
Qed.

(** C10 on [zero_length_nothing_enabled]: the length error, not the
    no-classes error. *)
Lemma C10_length_not_positive_witness :
  Length zero_length_nothing_enabled <= 0
  /\ Generate zero_length_nothing_enabled counting = Fail ErrLength.
Proof.
  assert (HL : Length zero_length_nothing_enabled <= 0) by (simpl; lia).
  split; [exact HL|].
  exact (proj1 (C10_length_not_positive zero_length_nothing_enabled counting
                  eq_refl HL)).
Defined.

(** ** The sum of the minima against the length (C4) *)

Lemma derivedLength_exact o :
  Format o = FormatGeneric \/ Format o = FormatAppKey ->
  (Format o = FormatGeneric -> 0 < Length o) ->
  (Format o = FormatAppKey -> 0 < Segments o /\ 0 < SegmentLength o) ->
  expected_length o <= max_int ->
  derivedLength o = derived_length o /\ 0 < derived_length o
  /\ (Format o = FormatAppKey ->
      wrap (derivedLength o + wrap (Segments o - 1)) = expected_length o
      /\ 0 < expected_length o).
Proof.
  unfold derivedLength, derived_length, expected_length.
  intros [Hf|Hf] HL Hseg Hfit; rewrite Hf in *; simpl in *.
  - specialize (HL eq_refl). repeat split; (done || lia).
  - destruct (Hseg eq_refl) as [Hs Hk].
    assert (0 < Segments o * SegmentLength o) by nia.
    unfold max_int in Hfit.
    rewrite (wrap_id (Segments o * SegmentLength o))
      by (unfold min_int, max_int; lia).
    rewrite (wrap_id (Segments o - 1)) by (unfold min_int, max_int; lia).
    rewrite wrap_id by (unfold min_int, max_int; lia).
    repeat split; lia.
Qed.

Lemma enabled_nonempty o : (exists c, Use o c = true) -> enabled o <> [].
Proof.
  intros [c Hc] Hnil. apply elem_of_enabled in Hc. rewrite Hnil in Hc.
  by apply elem_of_nil in Hc.
Qed.

Lemma generateGeneric_minima_exceed o rd p :
  0 < Length o ->
  enabled o <> [] ->
  (forall c, Use o c = true -> 0 <= Min o c) ->
  (forall c, Use o c = false -> Min o c <= 0) ->
  Length o < sumMinima (Min o <$> enabled o) ->
  generateGeneric o rd p
  = Fail (ErrMinimaExceedLength (sumMinima (Min o <$> enabled o)) (Length o)).
Proof.
  intros HL Hne Hon Hoff Hsum. unfold generateGeneric.
  destruct (Z.leb_spec (Length o) 0); [lia|].
  rewrite (collect_total o Hne Hon Hoff).
  destruct (Z.gtb_spec (sumMinima (Min o <$> enabled o)) (Length o)); [done|lia].
Qed.

(** Past the checks, runes beyond the allocation limit make [make]
    panic, before any draw. *)
Lemma generateGeneric_beyond_allocation o rd p :
  0 < Length o ->
  enabled o <> [] ->
  (forall c, Use o c = true -> 0 <= Min o c) ->
  (forall c, Use o c = false -> Min o c <= 0) ->
  sumMinima (Min o <$> enabled o) <= Length o ->
  maxAlloc < 4 * Length o ->
  generateGeneric o rd p = Panic makeslice_cap.
Proof.
  intros HL Hne Hon Hoff Hsum Hcap. unfold generateGeneric.
  destruct (Z.leb_spec (Length o) 0); [lia|].
  rewrite (collect_total o Hne Hon Hoff).
  destruct (Z.gtb_spec (sumMinima (Min o <$> enabled o)) (Length o)); [lia|].
  by apply bind_makeRunes_panic.
Qed.

(** What [Generate] returns for the generic and app-key formats, from
    what the generic logic returns for the derived length. *)
Lemma Generate_from_generic o rd :
  Format o = FormatGeneric \/ Format o = FormatAppKey ->
  (Format o = FormatAppKey -> 0 < Segments o /\ 0 < SegmentLength o) ->
  Generate o rd
  = match generateGeneric (withLength o (derivedLength o)) rd 0%nat with
    | Ret (core, _) =>
        if String.eqb (Format o) FormatAppKey
        then if wrap (derivedLength o + wrap (Segments o - 1)) <? 0
             then Panic negative_grow
             else if maxAlloc <? wrap (derivedLength o + wrap (Segments o - 1))
             then Panic makeslice_len
             else Ret (string_of_list_ascii
                         (writeSegments (SegmentLength o) 0 (runes core)))
        else Ret core
    | Fail e => Fail e
    | Panic msg => Panic msg
    | Fatal msg => Fatal msg
    end.
Proof.
  unfold derivedLength. intros [Hf|Hf] Hseg.
  - rewrite Generate_generic by done. rewrite Hf. simpl. unfold run.
    change (generateGeneric (withLength o (Length o)) rd 0%nat)
      with (generateGeneric o rd 0%nat).
    by destruct (generateGeneric o rd 0%nat) as [[core p]|e|msg|msg].
  - rewrite Generate_appkey by done. rewrite Hf. simpl.
    destruct (Hseg Hf) as [Hs Hk]. unfold run, generateAppKey.
    destruct (Z.leb_spec (Segments o) 0); [lia|].
    destruct (Z.leb_spec (SegmentLength o) 0); [lia|].
    unfold bind, Grow.
    destruct (generateGeneric _ rd 0%nat) as [[core p]|e|msg|msg]; try done.
    destruct (Z.ltb_spec (wrap (wrap (Segments o * SegmentLength o)
                                  + wrap (Segments o - 1))) 0); [done|].
    by destruct (Z.ltb_spec maxAlloc (wrap (wrap (Segments o * SegmentLength o)
                                            + wrap (Segments o - 1)))).
Qed.

Lemma sum_enabled_minima_nonneg o :
  (forall c, Use o c = true -> 0 <= Min o c) -> 0 <= sum_enabled_minima o.
Proof.
  intros Hon.
  pose proof (Hon Lower) as HL. pose proof (Hon Upper) as HU.
  pose proof (Hon Number) as HN. pose proof (Hon Symbol) as HS.
  unfold sum_enabled_minima. simpl in *.
  destruct (UseLower o), (UseUpper o), (UseNumber o), (UseSymbol o); lia.
Qed.

Lemma randomRune_broken (set : list rune) rd p e :
  (2 <= length set)%nat -> rd p = Broken e ->
  randomRune set rd p = Fail (ErrRandom e).
Proof.
  intros Hlen Hrd. unfold randomRune, bind, rand_Int.
  destruct (Nat.eqb_spec (length set) 0); [lia|].
  destruct (Z.leb_spec (Z.of_nat (length set)) 0); [lia|].
  destruct (Z.eqb_spec (Z.of_nat (length set)) 1); [lia|].
  by rewrite Hrd.
Qed.

Lemma generateGeneric_first_draw_broken o rd p set sets m mins e :
  0 < Length o ->
  collectClassesAndValidate o = inl (set :: sets, m :: mins) ->
  sumMinima (m :: mins) <= Length o ->
  4 * Length o <= maxAlloc ->
  0 < m -> (2 <= length set)%nat -> rd p = Broken e ->
  generateGeneric o rd p = Fail (ErrRandom e).
Proof.
  intros HL Hcol Hsum Hcap Hm Hset Hrd. unfold generateGeneric.
  destruct (Z.leb_spec (Length o) 0); [lia|]. rewrite Hcol.
  destruct (Z.gtb_spec (sumMinima (m :: mins)) (Length o)); [lia|].
  rewrite bind_makeRunes by lia.
  cbn [satisfyMinima]. unfold bind at 1 2.
  destruct (Z.to_nat m) as [|n] eqn:Hn; [lia|].
  cbn [drawRunes]. unfold bind at 1.
  by rewrite (randomRune_broken set rd p e Hset Hrd).
Qed.

Lemma validates_overflowing_minima : validates_apart_from_sum overflowing_minima.
Proof.
  repeat split; try done.
  - by exists Lower.
  - by intros [].
  - by intros [].
Qed.

Lemma validates_exact_beyond_allocation :
  validates_apart_from_sum exact_beyond_allocation.
Proof.
  repeat split; try done.
  - by exists Lower.
  - by intros [].
  - by intros [].
Qed.

(** C4, as stated, fails in both halves. With two minima of 2^62 and a
    length of 1 the sum of the minima exceeds the length, but [totalMin]
    wraps below it, the check passes and the first draw is made. And
    with a minimum of 2^62 for a length of 2^62 the sum equals the
    length, the checks pass, and [make] panics: nothing is generated. *)
Lemma C4_counterexample :
  ~ (forall o rd,
        Format o = FormatGeneric \/ Format o = FormatAppKey ->
        validates_apart_from_sum o ->
        (exists t l, Generate o rd = Fail (ErrMinimaExceedLength t l))
        <-> derived_length o < sum_enabled_minima o)
  /\ ~ (forall o rd,
           Format o = FormatGeneric \/ Format o = FormatAppKey ->
           validates_apart_from_sum o ->
           healthy rd -> sum_enabled_minima o = derived_length o ->
           exists s, Generate o rd = Ret s
                     /\ forall c, Use o c = true ->
                          Z.of_nat (count_in (class_chars c) (generated o s))
                          = Min o c).
Proof.
  split.
  - intros H.
    destruct (H overflowing_minima broken (or_introl eq_refl)
                validates_overflowing_minima) as [_ Hexceed].
    destruct Hexceed as (t & l & Hgen); [reflexivity|].
    rewrite Generate_generic in Hgen by reflexivity. unfold run in Hgen.
    rewrite (generateGeneric_first_draw_broken overflowing_minima broken 0%nat
               lowerChars [upperChars] 4611686018427387904 [4611686018427387904]
               (IoError "entropy source unavailable")) in Hgen.
    + discriminate Hgen.
    + reflexivity.
    + reflexivity.
    + vm_compute. discriminate.
    + vm_compute. discriminate.
    + reflexivity.
    + vm_compute. lia.
    + reflexivity.
  - intros H.
    destruct (H exact_beyond_allocation counting (or_introl eq_refl)
                validates_exact_beyond_allocation healthy_counting eq_refl)
      as (s & Hgen & _).
    assert (Hpanic : Generate exact_beyond_allocation counting = Panic makeslice_cap)
      by (vm_compute; reflexivity).
    rewrite Hpanic in Hgen. discriminate Hgen.
Qed.

(** C4, amended. Take a generic or app-key configuration that validates
    apart from the sum of its minima, and whose sum of toggled-on minima
    and expected output length both fit in an [int]. [Generate] fails
    with the minima-exceed-length error exactly when the sum exceeds the
    derived length. When the sum equals the derived length, the runes of
    that length are within the allocation limit and the source never
    fails, [Generate] succeeds and each toggled-on class has exactly its
    minimum among the generated runes. *)
Theorem C4_minima_against_length o rd :
  Format o = FormatGeneric \/ Format o = FormatAppKey ->
  validates_apart_from_sum o ->
  sum_enabled_minima o <= max_int ->
  expected_length o <= max_int ->
  ((exists t l, Generate o rd = Fail (ErrMinimaExceedLength t l))
   <-> derived_length o < sum_enabled_minima o)
  /\ (healthy rd -> sum_enabled_minima o = derived_length o ->
      4 * derived_length o <= maxAlloc ->
      exists s, Generate o rd = Ret s
                /\ forall c, Use o c = true ->
                     Z.of_nat (count_in (class_chars c) (generated o s))
                     = Min o c).
Proof.
  intros Hfmt (Hex & Hon & Hoff & HL & Hseg) Hsumfit Hfit.
  destruct (derivedLength_exact o Hfmt HL Hseg Hfit) as (Hder & Hpos & Hgrow).
  pose proof (enabled_nonempty o Hex) as Hne.
  pose proof (sum_enabled_minima_nonneg o Hon) as Hsum0.
  assert (Hsm : sumMinima (Min o <$> enabled o) = sum_enabled_minima o)
    by (apply sumMinima_exact; lia).
  set (tmp := withLength o (derivedLength o)).
  split; [split|].
  - intros (t & l & Hgen). destruct (Z.lt_ge_cases (derived_length o)
                                       (sum_enabled_minima o)) as [|Hle]; [done|].
    exfalso. rewrite (Generate_from_generic o rd Hfmt Hseg) in Hgen. fold tmp in Hgen.
    destruct (Z.le_gt_cases (4 * derivedLength o) maxAlloc) as [Hcap|Hcap].
    + assert (Hspec : spec rd
                (fun s => exists out, s = string_of_list_ascii out
                                      /\ generic_output tmp out)
                (generateGeneric tmp rd 0%nat)).
      { apply spec_generateGeneric; try assumption.
        - change (0 < derivedLength o). lia.
        - change (sumMinima (Min o <$> enabled o) <= derivedLength o). lia. }
      destruct (generateGeneric tmp rd 0%nat) as [[core p]|e|msg|msg].
      * destruct (Format o =? FormatAppKey)%string; [|discriminate].
        destruct (wrap (derivedLength o + wrap (Segments o - 1)) <? 0);
          [discriminate|].
        destruct (maxAlloc <? wrap (derivedLength o + wrap (Segments o - 1)));
          discriminate.
      * destruct Hspec as [[io ->] _]. discriminate.
      * discriminate.
      * discriminate.
    + rewrite (generateGeneric_beyond_allocation tmp rd 0%nat) in Hgen;
        try assumption; [discriminate Hgen| |].
      * change (0 < derivedLength o). lia.
      * change (sumMinima (Min o <$> enabled o) <= derivedLength o). lia.
  - intros Hlt. exists (sum_enabled_minima o), (derived_length o).
    rewrite (Generate_from_generic o rd Hfmt Hseg). fold tmp.
    rewrite (generateGeneric_minima_exceed tmp rd 0%nat); try assumption.
    + change (Length tmp) with (derivedLength o).
      change (sumMinima (Min tmp <$> enabled tmp))
        with (sumMinima (Min o <$> enabled o)).
      by rewrite Hder, Hsm.
    + change (0 < derivedLength o). lia.
    + change (derivedLength o < sumMinima (Min o <$> enabled o)). lia.
  - intros Hrd Heq Hcap.
    destruct (Generate_healthy o rd Hfmt) as [s Hs]; try done.
    + split; [done|]. by rewrite Hder.
    + rewrite Hsm, Hder. lia.
    + by rewrite Hder.
    + intros Hf. destruct (Hgrow Hf) as [-> ?].
      destruct (Hseg Hf) as [Hs Hk].
      unfold expected_length, derived_length, maxAlloc in *. rewrite Hf in *.
      simpl in *. nia.
    + exists s. split; [done|]. intros c Hc.
      destruct (Generate_Ret o rd s Hfmt Hs) as (_ & _ & _ & _ & Hout).
      fold tmp in Hout.
      rewrite (generic_output_exact tmp _ c Hout Hon).
      * change (Use tmp c) with (Use o c). rewrite Hc.
        specialize (Hon c Hc). change (Min tmp c) with (Min o c). lia.
      * simpl. by rewrite Hder.
Qed.

Lemma validates_exact_minima : validates_apart_from_sum exact_minima.
Proof.
  repeat split; try done.
  - by exists Lower.
  - by intros [].
  - by intros [].
Qed.

Lemma validates_minima_above_length : validates_apart_from_sum minima_above_length.
Proof.
  repeat split; try done.
  - by exists Lower.
  - by intros [].
  - by intros [].
Qed.

(** C4 on [minima_above_length], minima of five for four runes, and on
    [exact_minima]: three lowercase letters and two digits. *)
Lemma C4_minima_against_length_witness :
  (exists t l, Generate minima_above_length counting
               = Fail (ErrMinimaExceedLength t l))
  /\ sum_enabled_minima exact_minima = derived_length exact_minima
  /\ exists s, Generate exact_minima counting = Ret s
               /\ Z.of_nat (count_in (class_chars Lower) (generated exact_minima s)) = 3
               /\ Z.of_nat (count_in (class_chars Number) (generated exact_minima s)) = 2.
Proof.
  split; [|split; [reflexivity|]].
  - destruct (C4_minima_against_length minima_above_length counting
                (or_introl eq_refl) validates_minima_above_length)
      as [Hexceed _].
    + vm_compute. discriminate.
    + vm_compute. discriminate.
    + apply Hexceed. vm_compute. reflexivity.
  - destruct (C4_minima_against_length exact_minima counting (or_introl eq_refl)
                validates_exact_minima)
      as [_ Hexact].
    + vm_compute. discriminate.
    + vm_compute. discriminate.
    + destruct (Hexact healthy_counting eq_refl) as (s & Hs & Hcount).
      { vm_compute. discriminate. }
      exists s. split; [exact Hs|]. split.
      * exact (Hcount Lower eq_refl).
      * exact (Hcount Number eq_refl).
Defined.

(** ** App keys as re-partitioned generic output (C8) *)

Lemma join_dash_three_not_two (g1 g2 g3 : list rune) (a b : rune) :
  a <> "-"%char -> b <> "-"%char -> join_dash [g1; g2; g3] <> [a; b].
Proof.
  intros Ha Hb. cbn [join_dash].
  destruct g1 as [|x [|y [|z g1]]]; simpl; intros H.
  - injection H as H _. by apply Ha.
  - injection H as _ H _. by apply Hb.
  - discriminate H.
  - discriminate H.
Qed.

Lemma overflowing_appkey_not_three_groups (big : outcome string) :
  Generate overflowing_appkey counting
  <> outcome_map (segment_format (Segments overflowing_appkey)
                    (SegmentLength overflowing_appkey)) big.
Proof.
  assert (Hgen : Generate overflowing_appkey counting = Ret "dk"%string)
    by (vm_compute; reflexivity).
  rewrite Hgen. unfold segment_format.
  generalize (Z.to_nat (SegmentLength overflowing_appkey)). intros k.
  change (Z.to_nat (Segments overflowing_appkey)) with 3%nat.
  destruct big as [core|e|msg|msg]; [|discriminate..].
  intros Hr. injection Hr as Hr. apply (f_equal runes) in Hr.
  rewrite runes_string_of_list in Hr. cbn [groups] in Hr.
  symmetry in Hr. revert Hr. by apply join_dash_three_not_two.
Qed.

(** C8, as stated, fails twice. Where the product of the segment count
    and the segment length exceeds the largest [int], the app key is
    built from the wrapped product: two runes, not three groups. And with
    neither a segment count nor a segment length above zero, the error is
    that of the segment count, which is checked first. *)
Lemma C8_counterexample :
  ~ (forall o rd,
        Format o = FormatAppKey -> 0 < Segments o -> 0 < SegmentLength o ->
        Generate o rd
        = outcome_map (segment_format (Segments o) (SegmentLength o))
            (Generate (withLength o (Segments o * SegmentLength o)) rd))
  /\ ~ (forall o rd,
           Format o = FormatAppKey -> SegmentLength o <= 0 ->
           Generate o rd = Fail ErrSegmentLength).
Proof.
  split.
  - intros H.
    exact (overflowing_appkey_not_three_groups _
             (H overflowing_appkey counting eq_refl eq_refl eq_refl)).
  - intros H.
    specialize (H no_segments_no_length counting eq_refl).
    assert (Hgen : Generate no_segments_no_length counting = Fail ErrSegments)
      by reflexivity.
    rewrite Hgen in H. discriminate H. simpl. lia.
Qed.

(** C8, amended. For an app key with a positive segment count and a
    positive segment length, whose expected output length and whose sum
    of toggled-on minima fit in an [int], [Generate] is the generic
    generation of length [Segments * SegmentLength] over the same source,
    cut in sequence order into [Segments] groups of [SegmentLength] runes
    joined by single dashes. A segment count that is not positive fails
    with the segment-count error; with a positive segment count, a
    segment length that is not positive fails with the segment-length
    error. *)
Theorem C8_appkey_refines_generic o rd :
  Format o = FormatAppKey ->
  (0 < Segments o -> 0 < SegmentLength o ->
   expected_length o <= max_int -> sum_enabled_minima o <= max_int ->
   Generate o rd
   = outcome_map (segment_format (Segments o) (SegmentLength o))
       (Generate (withLength o (Segments o * SegmentLength o)) rd)
   /\ forall core,
        Generate (withLength o (Segments o * SegmentLength o)) rd = Ret core ->
        let gs := groups (Z.to_nat (Segments o)) (Z.to_nat (SegmentLength o))
                    (runes core) in
        Z.of_nat (length gs) = Segments o
        /\ Forall (fun g => Z.of_nat (length g) = SegmentLength o) gs
        /\ concat gs = runes core)
  /\ (Segments o <= 0 -> Generate o rd = Fail ErrSegments)
  /\ (0 < Segments o -> SegmentLength o <= 0 ->
      Generate o rd = Fail ErrSegmentLength).
Proof.
  intros Hf. split; [|split].
  - intros Hs Hk Hfit Hsumfit.
    assert (Hseg : Format o = FormatAppKey -> 0 < Segments o /\ 0 < SegmentLength o)
      by done.
    destruct (derivedLength_exact o (or_intror Hf) ltac:(by rewrite Hf) Hseg Hfit)
      as (Hder & Hpos & Hgrow).
    destruct (Hgrow Hf) as [Hgrow1 Hgrow2].
    assert (Hprod : derived_length o = Segments o * SegmentLength o).
    { unfold derived_length. by rewrite Hf. }
    set (tmp := withLength o (Segments o * SegmentLength o)).
    assert (Hlen : forall core p, generateGeneric tmp rd 0%nat = Ret (core, p) ->
              length (runes core)
              = (Z.to_nat (Segments o) * Z.to_nat (SegmentLength o))%nat).
    { intros core p Hcore.
      apply generateGeneric_Ret in Hcore
        as (_ & _ & Hon & _ & Hsum & _ & out & -> & Hout).
      rewrite runes_string_of_list.
      pose proof (generic_output_length tmp out Hout Hon) as Hl.
      pose proof (sum_enabled_minima_nonneg tmp Hon) as Hsum0.
      change (sum_enabled_minima tmp) with (sum_enabled_minima o) in *.
      change (Length tmp) with (Segments o * SegmentLength o) in *.
      change (sumMinima (Min tmp <$> enabled tmp))
        with (sumMinima (Min o <$> enabled o)) in Hsum.
      rewrite sumMinima_exact in Hsum by lia. nia. }
    split.
    + rewrite (Generate_from_generic o rd (or_intror Hf) Hseg).
      rewrite Hgrow1, Hder, Hprod. fold tmp.
      rewrite (Generate_generic tmp rd eq_refl). unfold run.
      destruct (generateGeneric tmp rd 0%nat) as [[core p]|e|msg|msg] eqn:Hcore;
        [|done..].
      rewrite Hf. simpl. destruct (Z.ltb_spec (expected_length o) 0); [lia|].
      destruct (Z.ltb_spec maxAlloc (expected_length o)) as [Hbig|_].
      { exfalso.
        apply generateGeneric_Ret in Hcore as (_ & _ & _ & _ & _ & Hcap & _).
        change (Length tmp) with (Segments o * SegmentLength o) in Hcap.
        unfold expected_length in Hbig. rewrite Hf in Hbig. simpl in Hbig.
        unfold maxAlloc in *. nia. }
      unfold segment_format. do 2 f_equal.
      pose proof (writeSegments_groups (Z.to_nat (Segments o))
                    (Z.to_nat (SegmentLength o)) 0 (runes core)) as Hw.
      rewrite Z2Nat.id, Z.mul_0_l in Hw by lia.
      rewrite Hw; [|lia|lia|by eapply Hlen].
      destruct (Z.to_nat (Segments o)) eqn:Hn; [lia|done].
    + intros core Hcore. rewrite (Generate_generic tmp rd eq_refl) in Hcore.
      apply run_Ret in Hcore as [p Hcore]. specialize (Hlen core p Hcore).
      cbv zeta. rewrite length_groups, (concat_groups _ _ _ Hlen).
      split; [lia|]. split; [|done].
      eapply Forall_impl; [exact (Forall_length_groups _ _ _ Hlen)|].
      simpl. intros g ->. lia.
  - intros Hs. rewrite Generate_appkey by done. unfold run, generateAppKey.
    destruct (Z.leb_spec (Segments o) 0); [done|lia].
  - intros Hs Hk. rewrite Generate_appkey by done. unfold run, generateAppKey.
    destruct (Z.leb_spec (Segments o) 0); [lia|].
    destruct (Z.leb_spec (SegmentLength o) 0); [done|lia].
Qed.

(** C8 on [two_by_three]: the six generic runes, cut in two. *)
Lemma C8_appkey_refines_generic_witness :
  Generate (withLength two_by_three 6) counting = Ret "1kd8r4"
  /\ Generate two_by_three counting = Ret "1kd-8r4".
Proof.
  assert (Hcore : Generate (withLength two_by_three 6) counting = Ret "1kd8r4"%string)
    by (vm_compute; reflexivity).
  split; [exact Hcore|].
  destruct (C8_appkey_refines_generic two_by_three counting eq_refl) as [Href _].
  destruct Href as [Href _].
  - reflexivity.
  - reflexivity.
  - vm_compute. discriminate.
  - vm_compute. discriminate.
  - rewrite Href. change (Segments two_by_three * SegmentLength two_by_three) with 6.
    rewrite Hcore. reflexivity.
Defined.

(** ** UUIDs (C7) *)

Lemma forall_below (f : Z -> bool) (n : nat) :
  forallb f (List.map Z.of_nat (seq 0 n)) = true ->
  forall x, 0 <= x < Z.of_nat n -> f x = true.
Proof.
  intros H x Hx. rewrite forallb_forall in H. apply H.
  apply in_map_iff. exists (Z.to_nat x). split; [lia|]. apply in_seq. lia.
Qed.

(** The high nibble of byte 6 is the version, 4. *)
Lemma version_nibble v : Z.shiftr (Z.lor (Z.land v 15) 64) 4 = 4.
Proof.
  change 15 with (Z.ones 4). rewrite Z.land_ones by lia.
  pose proof (Z.mod_pos_bound v (2 ^ 4) ltac:(lia)) as Hx.
  apply Z.eqb_eq.
  apply (forall_below (fun x => Z.shiftr (Z.lor x 64) 4 =? 4) 16); [reflexivity|].
  exact Hx.
Qed.

(** The high nibble of byte 8 carries the variant: 8, 9, 10 or 11. *)
Lemma variant_nibble v : 8 <= Z.shiftr (Z.lor (Z.land v 63) 128) 4 <= 11.
Proof.
  change 63 with (Z.ones 6). rewrite Z.land_ones by lia.
  pose proof (Z.mod_pos_bound v (2 ^ 6) ltac:(lia)) as Hx.
  pose proof (forall_below
                (fun x => (8 <=? Z.shiftr (Z.lor x 128) 4)
                          && (Z.shiftr (Z.lor x 128) 4 <=? 11)) 64 eq_refl
                _ Hx) as H.
  apply andb_true_iff in H as [H1 H2]. lia.
Qed.

Lemma hexdigit_elem_of x : hexdigit x ∈ hexdigits.
Proof.
  unfold hexdigit. apply list_elem_of_In.
  destruct (nth_in_or_default (Z.to_nat x) hexdigits "0"%char) as [H|Heq];
    [done|].
  rewrite Heq. by left.
Qed.

Lemma hexdigit_variant x :
  8 <= x <= 11 -> hexdigit x ∈ ["8"; "9"; "a"; "b"]%char.
Proof.
  intros Hx.
  assert (x = 8 \/ x = 9 \/ x = 10 \/ x = 11) as [-> | [-> | [-> | ->]]] by lia;
    apply (bool_decide_unpack _); by vm_compute.
Qed.

(** The 36 runes written for 16 bytes. *)
Lemma writeUUID_16 b0 b1 b2 b3 b4 b5 b6 b7 b8 b9 b10 b11 b12 b13 b14 b15 :
  writeUUID 0 [b0; b1; b2; b3; b4; b5; b6; b7; b8; b9; b10; b11; b12; b13; b14; b15]
  = [hexdigit (Z.shiftr b0 4); hexdigit (Z.land b0 15);
     hexdigit (Z.shiftr b1 4); hexdigit (Z.land b1 15);
     hexdigit (Z.shiftr b2 4); hexdigit (Z.land b2 15);
     hexdigit (Z.shiftr b3 4); hexdigit (Z.land b3 15); "-"%char;
     hexdigit (Z.shiftr b4 4); hexdigit (Z.land b4 15);
     hexdigit (Z.shiftr b5 4); hexdigit (Z.land b5 15); "-"%char;
     hexdigit (Z.shiftr b6 4); hexdigit (Z.land b6 15);
     hexdigit (Z.shiftr b7 4); hexdigit (Z.land b7 15); "-"%char;
     hexdigit (Z.shiftr b8 4); hexdigit (Z.land b8 15);
     hexdigit (Z.shiftr b9 4); hexdigit (Z.land b9 15); "-"%char;
     hexdigit (Z.shiftr b10 4); hexdigit (Z.land b10 15);
     hexdigit (Z.shiftr b11 4); hexdigit (Z.land b11 15);
     hexdigit (Z.shiftr b12 4); hexdigit (Z.land b12 15);
     hexdigit (Z.shiftr b13 4); hexdigit (Z.land b13 15);
     hexdigit (Z.shiftr b14 4); hexdigit (Z.land b14 15);
     hexdigit (Z.shiftr b15 4); hexdigit (Z.land b15 15)].
Proof. reflexivity. Qed.

Lemma length_bytes_of k raw : length (bytes_of k raw) = k.
Proof. unfold bytes_of. by rewrite length_map, length_seq. Qed.

(** With the 16 bytes drawn, [Generate] returns their rendering, whatever
    else the configuration holds. *)
Lemma Generate_guid_bytes o rd raw :
  Format o = FormatGUID -> rd 0%nat = Rnd raw ->
  Generate o rd
  = Ret (string_of_list_ascii (writeUUID 0 (stamped (bytes_of 16 raw)))).
Proof.
  intros Hf Hrd. rewrite Generate_guid by done.
  unfold run, generateUUIDv4, bind, rand_Read. rewrite Hrd.
  pose proof (length_bytes_of 16 raw) as Hlen. unfold stamped.
  destruct (bytes_of 16 raw)
    as [|b0 [|b1 [|b2 [|b3 [|b4 [|b5 [|b6 [|b7 [|b8 [|b9 [|b10 [|b11 [|b12
        [|b13 [|b14 [|b15 [|b16 b]]]]]]]]]]]]]]]]]; try discriminate Hlen.
  reflexivity.
Qed.

Lemma stamped_16 b0 b1 b2 b3 b4 b5 b6 b7 b8 b9 b10 b11 b12 b13 b14 b15 :
  stamped [b0; b1; b2; b3; b4; b5; b6; b7; b8; b9; b10; b11; b12; b13; b14; b15]
  = [b0; b1; b2; b3; b4; b5; Z.lor (Z.land b6 15) 64; b7;
     Z.lor (Z.land b8 63) 128; b9; b10; b11; b12; b13; b14; b15].
Proof. reflexivity. Qed.

(** C7. For every configuration of the GUID format, once the 16 bytes
    are drawn [Generate] returns a string of 36 runes with a hyphen at
    offsets 8, 13, 18 and 23, a lowercase hexadecimal digit at every
    other offset, a 4 at offset 14 and one of 8, 9, a, b at offset 19.
    Any GUID configuration and any source delivering the same 16 bytes
    yield the same string. *)
Theorem C7_uuid_layout o rd raw :
  Format o = FormatGUID ->
  rd 0%nat = Rnd raw ->
  exists s,
    Generate o rd = Ret s
    /\ String.length s = 36%nat
    /\ (forall i, i ∈ hyphens -> runes s !! i = Some "-"%char)
    /\ (forall i r, i ∉ hyphens -> runes s !! i = Some r -> r ∈ hexdigits)
    /\ runes s !! 14%nat = Some "4"%char
    /\ (exists r, runes s !! 19%nat = Some r /\ r ∈ ["8"; "9"; "a"; "b"]%char)
    /\ (forall o' rd' raw',
          Format o' = FormatGUID -> rd' 0%nat = Rnd raw' ->
          bytes_of 16 raw' = bytes_of 16 raw ->
          Generate o' rd' = Ret s).
Proof.
  intros Hf Hrd.
  exists (string_of_list_ascii (writeUUID 0 (stamped (bytes_of 16 raw)))).
  split; [by apply Generate_guid_bytes|].
  rewrite <- length_runes, runes_string_of_list.
  assert (Hsame : forall o' rd' raw',
             Format o' = FormatGUID -> rd' 0%nat = Rnd raw' ->
             bytes_of 16 raw' = bytes_of 16 raw ->
             Generate o' rd'
             = Ret (string_of_list_ascii (writeUUID 0 (stamped (bytes_of 16 raw))))).
  { intros o' rd' raw' Hf' Hrd' Hb. rewrite <- Hb. by apply Generate_guid_bytes. }
  pose proof (length_bytes_of 16 raw) as Hlen.
  destruct (bytes_of 16 raw)
    as [|b0 [|b1 [|b2 [|b3 [|b4 [|b5 [|b6 [|b7 [|b8 [|b9 [|b10 [|b11 [|b12
        [|b13 [|b14 [|b15 [|b16 b]]]]]]]]]]]]]]]]]; try discriminate Hlen.
  clear Hlen. rewrite stamped_16 in *. rewrite writeUUID_16 in *.
  split; [reflexivity|]. split; [|split; [|split; [|split]]].
  - intros i Hi. unfold hyphens in Hi.
    repeat (apply elem_of_cons in Hi as [->|Hi]; [reflexivity|]).
    by apply elem_of_nil in Hi.
  - intros i r Hi Hr. unfold hyphens in Hi.
    do 36 (destruct i as [|i];
           [first [ by (injection Hr as <-; apply hexdigit_elem_of)
                  | by (exfalso; apply Hi; repeat constructor) ]|]).
    discriminate Hr.
  - cbn [lookup list_lookup]. by rewrite version_nibble.
  - eexists. split; [reflexivity|]. apply hexdigit_variant, variant_nibble.
  - exact Hsame.
Qed.

(** C7 on a GUID configuration whose other fields would not validate. *)
Lemma C7_uuid_layout_witness :
  exists s,
    Generate (mkOptions FormatGUID (-5) false false false false 9 0 0 0 0 0)
      counting = Ret s
    /\ String.length s = 36%nat
    /\ runes s !! 14%nat = Some "4"%char.
Proof.
  destruct (C7_uuid_layout
              (mkOptions FormatGUID (-5) false false false false 9 0 0 0 0 0)
              counting 3 eq_refl eq_refl)
    as (s & Hs & Hlen & _ & _ & Hv & _).
  exists s. repeat split; assumption.
Defined.

(** ** Failures of the random source (C6) *)

(** A failed draw of [randomRune] is returned as it is. *)
Lemma randomRune_failure_returned (set : list rune) rd p e :
  (2 <= length set)%nat -> rd p = Broken e ->
  randomRune set rd p = Fail (ErrRandom e).
Proof. apply randomRune_broken. Qed.

(** A failed read of [generateUUIDv4] is not returned either:
    [rand.Read] stops the process. *)
Lemma generateUUIDv4_failure_fatal o rd e :
  Format o = FormatGUID -> rd 0%nat = Broken e ->
  Generate o rd = Fatal (failed_read e).
Proof.
  intros Hf Hrd. rewrite Generate_guid by done.
  unfold run, generateUUIDv4, bind, rand_Read. by rewrite Hrd.
Qed.

(** A failed draw of the shuffle is not returned: the loop panics. *)
Lemma shuffleFrom_failure_panics i (r : list rune) rd p e :
  rd p = Broken e ->
  shuffleFrom (S i) r rd p
  = Panic "invalid memory address or nil pointer dereference".
Proof.
  intros Hrd. cbn [shuffleFrom]. unfold bind, rand_Int.
  destruct (Z.leb_spec (Z.of_nat (S i) + 1) 0); [lia|].
  destruct (Z.eqb_spec (Z.of_nat (S i) + 1) 1); [lia|].
  by rewrite Hrd.
Qed.

(** C6 at its failing input. [example_generic] makes five draws for the
    minima, five for the remainder and nine for the shuffle. A source
    failing at a draw for the minima or for the remainder has its error
    returned; a source failing at the first draw of the shuffle makes
    [Generate] panic instead of returning the error. *)
Theorem C6_shuffle_failure_panics :
  Generate example_generic (failing_from 2)
  = Fail (ErrRandom (IoError "entropy source unavailable"))
  /\ Generate example_generic (failing_from 7)
     = Fail (ErrRandom (IoError "entropy source unavailable"))
  /\ Generate example_generic (failing_from 10)
     = Panic "invalid memory address or nil pointer dereference"
  /\ Generate example_generic (failing_from 19) = Ret "dkr1jc4qx4"%string.
Proof. repeat split; vm_compute; reflexivity. Qed.


(** * Further properties of the generator *)

(** ** Which requests are made, and what a failed one does *)

Lemma answers_split rd p a b :
  answers rd p (a + b) -> answers rd p a /\ answers rd (p + a) b.
Proof.
  intros H. split; intros q Hq; apply H; lia.
Qed.

Lemma answers_join rd p a b :
  answers rd p a -> answers rd (p + a) b -> answers rd p (a + b).
Proof.
  intros Ha Hb q Hq. destruct (Nat.lt_ge_cases q (p + a)).
  - apply Ha. lia.
  - apply Hb. lia.
Qed.

Lemma fails_first_shift rd p q e n :
  fails_first rd p q e -> (p + n <= q)%nat ->
  answers rd p n /\ fails_first rd (p + n) q e.
Proof.
  intros (Hpq & Hq & Hans) Hn. split.
  - intros q' Hq'. apply Hans. lia.
  - repeat split; [lia|done|]. intros q' Hq'. apply Hans. lia.
Qed.

Lemma randomRune_answered (set : list rune) rd p raw :
  (2 <= length set)%nat -> rd p = Rnd raw ->
  exists r, randomRune set rd p = Ret (r, S p)
            /\ set !! Z.to_nat (raw mod Z.of_nat (length set)) = Some r.
Proof.
  intros Hlen Hrd. unfold randomRune, bind, rand_Int.
  destruct (Nat.eqb_spec (length set) 0); [lia|].
  destruct (Z.leb_spec (Z.of_nat (length set)) 0); [lia|].
  destruct (Z.eqb_spec (Z.of_nat (length set)) 1); [lia|].
  rewrite Hrd.
  pose proof (Z.mod_pos_bound raw (Z.of_nat (length set)) ltac:(lia)) as Hb.
  destruct (lookup_lt_is_Some_2 set (Z.to_nat (raw mod Z.of_nat (length set))))
    as [r Hr]; [lia|].
  exists r. by rewrite Hr.
Qed.

Lemma drawRunes_answered n (set out : list rune) rd p :
  (2 <= length set)%nat -> answers rd p n ->
  exists c, drawRunes n set out rd p = Ret (out ++ c, (p + n)%nat)
            /\ length c = n /\ Forall (.∈ set) c.
Proof.
  intros Hlen. revert out p. induction n as [|n IH]; intros out p Hans.
  - exists []. rewrite app_nil_r, Nat.add_0_r. by repeat split.
  - destruct (Hans p ltac:(lia)) as [raw Hraw].
    destruct (randomRune_answered set rd p raw Hlen Hraw) as (r & Hr & Hin).
    destruct (IH (out ++ [r]) (S p)) as (c & Hc & Hl & Hf).
    { intros q Hq. apply Hans. lia. }
    exists (r :: c). cbn [drawRunes]. unfold bind. rewrite Hr, Hc.
    rewrite <- app_assoc. replace (S p + n)%nat with (p + S n)%nat by lia.
    split; [reflexivity|]. split; [simpl; by rewrite Hl|].
    constructor; [by eapply list_elem_of_lookup_2|done].
Qed.

Lemma drawRunes_failed n (set out : list rune) rd p q e :
  (2 <= length set)%nat -> fails_first rd p q e -> (q < p + n)%nat ->
  drawRunes n set out rd p = Fail (ErrRandom e).
Proof.
  intros Hlen. revert out p. induction n as [|n IH]; intros out p Hf Hq.
  - destruct Hf as (Hpq & _). lia.
  - cbn [drawRunes]. unfold bind.
    destruct (Nat.eq_dec q p) as [->|Hne].
    + destruct Hf as (_ & Hb & _). by rewrite (randomRune_broken set rd p e).
    + destruct (fails_first_shift rd p q e 1 Hf ltac:(destruct Hf; lia)) as [Ha Hf'].
      destruct (Ha p ltac:(lia)) as [raw Hraw].
      destruct (randomRune_answered set rd p raw Hlen Hraw) as (r & Hr & _).
      rewrite Hr. replace (S p) with (p + 1)%nat by lia. apply IH; [done|lia].
Qed.

(** The number of draws that satisfy a list of minima. *)
Lemma satisfyMinima_answered sets mins (out : list rune) rd p :
  length sets = length mins ->
  Forall (fun set => (2 <= length set)%nat) sets ->
  answers rd p (foldr (fun m n => (Z.to_nat m + n)%nat) 0%nat mins) ->
  exists x, satisfyMinima sets mins out rd p
            = Ret (out ++ x, (p + foldr (fun m n => (Z.to_nat m + n)%nat) 0%nat mins)%nat)
            /\ composed sets mins x.
Proof.
  revert mins out p. induction sets as [|set sets IH]; intros mins out p Hlen Hall Hans.
  - destruct mins; [|discriminate]. exists []. simpl.
    by rewrite app_nil_r, Nat.add_0_r.
  - destruct mins as [|m mins]; [discriminate|]. cbn [satisfyMinima foldr] in *.
    inversion Hall as [|? ? Hset Hsets]; subst.
    apply answers_split in Hans as [Ha Hb].
    destruct (drawRunes_answered (Z.to_nat m) set out rd p Hset Ha)
      as (c & Hc & Hl & Hf).
    assert (Hlen' : length sets = length mins) by (by inversion Hlen).
    destruct (IH mins (out ++ c) (p + Z.to_nat m)%nat Hlen' Hsets Hb)
      as (x & Hx & Hcomp).
    exists (c ++ x). unfold bind. rewrite Hc, Hx.
    rewrite <- app_assoc, Nat.add_assoc. split; [done|].
    exists c, x. by repeat split.
Qed.

Lemma satisfyMinima_failed sets mins (out : list rune) rd p q e :
  length sets = length mins ->
  Forall (fun set => (2 <= length set)%nat) sets ->
  fails_first rd p q e ->
  (q < p + foldr (fun m n => (Z.to_nat m + n)%nat) 0%nat mins)%nat ->
  satisfyMinima sets mins out rd p = Fail (ErrRandom e).
Proof.
  revert mins out p. induction sets as [|set sets IH]; intros mins out p Hlen Hall Hf Hq.
  - destruct mins; [|discriminate]. simpl in Hq. destruct Hf as (? & _). lia.
  - destruct mins as [|m mins]; [discriminate|]. cbn [satisfyMinima foldr] in *.
    inversion Hall as [|? ? Hset Hsets]; subst. unfold bind.
    destruct (Nat.lt_ge_cases q (p + Z.to_nat m)%nat) as [Hlt|Hge].
    + by rewrite (drawRunes_failed (Z.to_nat m) set out rd p q e).
    + destruct (fails_first_shift rd p q e (Z.to_nat m) Hf Hge) as [Ha Hf'].
      destruct (drawRunes_answered (Z.to_nat m) set out rd p Hset Ha)
        as (c & Hc & _).
      rewrite Hc. apply IH; [by inversion Hlen|done|done|lia].
Qed.

Lemma shuffleFrom_answered i (r : list rune) rd p :
  (i < length r)%nat -> answers rd p i ->
  exists r', shuffleFrom i r rd p = Ret (r', (p + i)%nat) /\ r' ≡ₚ r.
Proof.
  revert r p. induction i as [|i IH]; intros r p Hi Hans.
  - exists r. by rewrite Nat.add_0_r.
  - destruct (Hans p ltac:(lia)) as [raw Hraw].
    cbn [shuffleFrom]. unfold bind, rand_Int.
    destruct (Z.leb_spec (Z.of_nat (S i) + 1) 0); [lia|].
    destruct (Z.eqb_spec (Z.of_nat (S i) + 1) 1); [lia|].
    rewrite Hraw.
    pose proof (Z.mod_pos_bound raw (Z.of_nat (S i) + 1) ltac:(lia)) as Hb.
    unfold swap.
    destruct (lookup_lt_is_Some_2 r (S i) Hi) as [ri Hri].
    destruct (lookup_lt_is_Some_2 r (Z.to_nat (raw mod (Z.of_nat (S i) + 1))))
      as [rj Hrj]; [lia|].
    rewrite Hri, Hrj. unfold ret.
    pose proof (Permutation_insert_swap r _ _ _ _ Hri Hrj) as Hperm.
    destruct (IH (<[Z.to_nat (raw mod (Z.of_nat (S i) + 1)):=ri]> (<[S i:=rj]> r))
                (S p)) as (r' & Hr' & Hp').
    { rewrite (Permutation_length Hperm). lia. }
    { intros q Hq. apply Hans. lia. }
    exists r'. rewrite Hr'. replace (S p + i)%nat with (p + S i)%nat by lia.
    split; [done|]. by rewrite Hp'.
Qed.

Lemma shuffleFrom_failed i (r : list rune) rd p q e :
  (i < length r)%nat -> fails_first rd p q e -> (q < p + i)%nat ->
  shuffleFrom i r rd p = Panic nil_dereference.
Proof.
  revert r p. induction i as [|i IH]; intros r p Hi Hf Hq.
  - destruct Hf as (? & _). lia.
  - destruct (Nat.eq_dec q p) as [->|Hne].
    + destruct Hf as (_ & Hb & _). by apply shuffleFrom_failure_panics with e.
    + destruct (fails_first_shift rd p q e 1 Hf ltac:(destruct Hf; lia)) as [Ha Hf'].
      destruct (Ha p ltac:(lia)) as [raw Hraw].
      cbn [shuffleFrom]. unfold bind, rand_Int.
      destruct (Z.leb_spec (Z.of_nat (S i) + 1) 0); [lia|].
      destruct (Z.eqb_spec (Z.of_nat (S i) + 1) 1); [lia|].
      rewrite Hraw.
      pose proof (Z.mod_pos_bound raw (Z.of_nat (S i) + 1) ltac:(lia)) as Hb.
      unfold swap.
      destruct (lookup_lt_is_Some_2 r (S i) Hi) as [ri Hri].
      destruct (lookup_lt_is_Some_2 r (Z.to_nat (raw mod (Z.of_nat (S i) + 1))))
        as [rj Hrj]; [lia|].
      rewrite Hri, Hrj. unfold ret.
      pose proof (Permutation_insert_swap r _ _ _ _ Hri Hrj) as Hperm.
      replace (S p) with (p + 1)%nat by lia. apply IH; [|done|lia].
      rewrite (Permutation_length Hperm). lia.
Qed.

Lemma answers_or_fails rd p n :
  answers rd p n \/ exists q e, fails_first rd p q e /\ (q < p + n)%nat.
Proof.
  induction n as [|n IH].
  - left. intros q Hq. lia.
  - destruct IH as [Ha|(q & e & Hf & Hq)].
    + destruct (rd (p + n)%nat) as [raw|e] eqn:Hrd.
      * left. intros q Hq. destruct (Nat.eq_dec q (p + n)%nat) as [->|Hne]; [eauto|].
        apply Ha. lia.
      * right. exists (p + n)%nat, e. split; [|lia].
        repeat split; [lia|done|]. intros q Hq. apply Ha. lia.
    + right. exists q, e. split; [done|lia].
Qed.

Lemma answers_not_fails rd p n q e :
  answers rd p n -> fails_first rd p q e -> (q < p + n)%nat -> False.
Proof.
  intros Ha (Hpq & Hb & _) Hq. destruct (Ha q ltac:(lia)) as [raw Hraw]. congruence.
Qed.

Lemma length_class_chars c : (2 <= length (class_chars c))%nat.
Proof. destruct c; vm_compute; lia. Qed.

Lemma length_pool o : enabled o <> [] -> (2 <= length (pool o))%nat.
Proof.
  unfold pool, enabled.
  destruct o as [? ? [] [] [] [] ? ? ? ? ? ?]; simpl; intros H; try done;
    vm_compute; lia.
Qed.

Lemma minima_draws_enabled o :
  (forall c, Use o c = true -> 0 <= Min o c) ->
  foldr (fun m n => (Z.to_nat m + n)%nat) 0%nat (Min o <$> enabled o)
  = Z.to_nat (sum_enabled_minima o).
Proof.
  intros Hon.
  pose proof (Hon Lower) as HL. pose proof (Hon Upper) as HU.
  pose proof (Hon Number) as HN. pose proof (Hon Symbol) as HS.
  unfold sum_enabled_minima, enabled.
  destruct o as [? ? [] [] [] [] ? ? ? ? ? ?]; simpl in *; lia.
Qed.

(** The draws of a generic generation that passes validation and
    allocates its runes: as many as the length for the composition, then
    one fewer for the shuffle. Answered, they give an output; the first
    one failed is returned as an error if it belongs to the composition,
    and panics if it belongs to the shuffle. *)
Lemma generateGeneric_requests o rd p :
  0 < Length o <= max_int ->
  enabled o <> [] ->
  (forall c, Use o c = true -> 0 <= Min o c) ->
  (forall c, Use o c = false -> Min o c <= 0) ->
  sum_enabled_minima o <= Length o ->
  4 * Length o <= maxAlloc ->
  let n := Z.to_nat (Length o) in
  (answers rd p (2 * n - 1) ->
   exists out, generateGeneric o rd p
               = Ret (string_of_list_ascii out, (p + (2 * n - 1))%nat)
               /\ generic_output o out)
  /\ (forall q e, fails_first rd p q e -> (q < p + n)%nat ->
       generateGeneric o rd p = Fail (ErrRandom e))
  /\ (forall q e, fails_first rd p q e -> (p + n <= q < p + (2 * n - 1))%nat ->
       generateGeneric o rd p = Panic nil_dereference).
Proof.
  intros HL Hne Hon Hoff Hsum Hcap n.
  pose proof (sum_enabled_minima_nonneg o Hon) as Hsum0.
  assert (Hsm : sumMinima (Min o <$> enabled o) = sum_enabled_minima o)
    by (apply sumMinima_exact; lia).
  pose proof (minima_draws_enabled o Hon) as Hdraws.
  set (m := Z.to_nat (sum_enabled_minima o)) in *.
  assert (Hmn : (m <= n)%nat) by (unfold m, n; lia).
  assert (Hsets : Forall (fun set : list rune => (2 <= length set)%nat)
                    (class_chars <$> enabled o)).
  { apply Forall_fmap, Forall_forall. intros c _. apply length_class_chars. }
  assert (Hlens : length (class_chars <$> enabled o) = length (Min o <$> enabled o))
    by (by rewrite !length_fmap).
  assert (Hpool : (2 <= length (concatClasses (class_chars <$> enabled o)))%nat).
  { rewrite concatClasses_concat. by apply length_pool. }
  assert (Hunfold : generateGeneric o rd p
            = bind (satisfyMinima (class_chars <$> enabled o) (Min o <$> enabled o) [])
                (fun out =>
                   bind (fillRemainder (concatClasses (class_chars <$> enabled o))
                           (Length o) out)
                     (fun out => bind (shuffleRunes out)
                                   (fun out => ret (string_of_list_ascii out)))) rd p).
  { unfold generateGeneric. destruct (Z.leb_spec (Length o) 0); [lia|].
    rewrite (collect_total o Hne Hon Hoff).
    destruct (Z.gtb_spec (sumMinima (Min o <$> enabled o)) (Length o)); [lia|].
    rewrite bind_makeRunes by lia. reflexivity. }
  rewrite Hunfold. clear Hunfold.
  assert (Hfill : forall x : list rune, length x = m ->
            Z.to_nat (Length o - Z.of_nat (length ([] ++ x))) = (n - m)%nat).
  { intros x Hx. simpl. unfold n, m in *. lia. }
  split; [|split].
  - intros Hans. unfold bind at 1.
    replace (2 * n - 1)%nat with (m + ((n - m) + (n - 1)))%nat in Hans by lia.
    apply answers_split in Hans as [Ha Hans].
    apply answers_split in Hans as [Hb Hc].
    rewrite <- Hdraws in Ha.
    destruct (satisfyMinima_answered _ _ [] rd p Hlens Hsets Ha) as (x & Hx & Hcomp).
    rewrite Hx, Hdraws. fold m.
    pose proof (composed_length_enabled o x Hon Hcomp) as Hxl.
    assert (Hxm : length x = m) by (unfold m; lia).
    unfold bind at 1, fillRemainder. rewrite (Hfill x Hxm).
    destruct (drawRunes_answered (n - m) _ ([] ++ x) rd (p + m)%nat Hpool Hb)
      as (f & Hf & Hfl & Hfin).
    rewrite Hf. unfold bind, shuffleRunes.
    destruct (shuffleFrom_answered (length (([] ++ x) ++ f) - 1) (([] ++ x) ++ f)
                rd (p + m + (n - m))%nat) as (r' & Hr' & Hperm).
    { simpl. rewrite length_app. lia. }
    { simpl. rewrite length_app, Hxm, Hfl.
      replace (m + (n - m) - 1)%nat with (n - 1)%nat by lia. exact Hc. }
    rewrite Hr'. unfold ret. exists r'. split.
    + do 2 f_equal. simpl. rewrite length_app, Hxm, Hfl. lia.
    + exists x, f. repeat split; try done.
      * simpl in Hfill. rewrite Hfl. symmetry. by apply (Hfill x).
      * by rewrite concatClasses_concat in Hfin.
  - intros q e Hf Hq. unfold bind at 1.
    destruct (Nat.lt_ge_cases q (p + m)%nat) as [Hlt|Hge].
    + rewrite (satisfyMinima_failed _ _ [] rd p q e Hlens Hsets Hf); [done|].
      rewrite Hdraws. exact Hlt.
    + destruct (fails_first_shift rd p q e m Hf Hge) as [Ha Hf'].
      rewrite <- Hdraws in Ha.
      destruct (satisfyMinima_answered _ _ [] rd p Hlens Hsets Ha) as (x & Hx & Hcomp).
      rewrite Hx, Hdraws. fold m.
      pose proof (composed_length_enabled o x Hon Hcomp) as Hxl.
      assert (Hxm : length x = m) by (unfold m; lia).
      unfold bind at 1, fillRemainder. rewrite (Hfill x Hxm).
      rewrite (drawRunes_failed (n - m) _ ([] ++ x) rd (p + m)%nat q e Hpool Hf');
        [done|lia].
  - intros q e Hf Hq. unfold bind at 1.
    destruct (fails_first_shift rd p q e m Hf ltac:(lia)) as [Ha Hf'].
    rewrite <- Hdraws in Ha.
    destruct (satisfyMinima_answered _ _ [] rd p Hlens Hsets Ha) as (x & Hx & Hcomp).
    rewrite Hx, Hdraws. fold m.
    pose proof (composed_length_enabled o x Hon Hcomp) as Hxl.
    assert (Hxm : length x = m) by (unfold m; lia).
    unfold bind at 1, fillRemainder. rewrite (Hfill x Hxm).
    destruct (fails_first_shift rd (p + m)%nat q e (n - m) Hf' ltac:(lia)) as [Hb Hf''].
    destruct (drawRunes_answered (n - m) _ ([] ++ x) rd (p + m)%nat Hpool Hb)
      as (f & Hfr & Hfl & Hfin).
    rewrite Hfr. unfold bind, shuffleRunes.
    rewrite (shuffleFrom_failed _ _ rd (p + m + (n - m))%nat q e); [done| |done|].
    + simpl. rewrite length_app. lia.
    + simpl. rewrite length_app, Hxm, Hfl. lia.
Qed.

Lemma valid_config_composable o :
  valid_config o ->
  Format o = FormatGeneric \/ Format o = FormatAppKey ->
  expected_length o <= max_int ->
  derivedLength o = derived_length o
  /\ 0 < derived_length o <= max_int
  /\ enabled o <> []
  /\ (forall c, Use o c = true -> 0 <= Min o c)
  /\ (forall c, Use o c = false -> Min o c <= 0)
  /\ sum_enabled_minima o <= derived_length o
  /\ (Format o = FormatAppKey -> 0 < Segments o /\ 0 < SegmentLength o)
  /\ (Format o = FormatAppKey ->
      0 <= wrap (derivedLength o + wrap (Segments o - 1))
      <= 2 * derived_length o).
Proof.
  intros Hvalid Hfmt Hfit.
  destruct (valid_config_sum o Hvalid) as [Hsum _].
  destruct Hvalid as (Hex & Hmin & Hoff & _ & HL & Hseg).
  destruct (derivedLength_exact o Hfmt HL Hseg Hfit) as (Hder & Hpos & Hgrow).
  split; [exact Hder|]. split.
  { split; [exact Hpos|]. unfold derived_length, expected_length in *.
    destruct Hfmt as [Hf|Hf]; rewrite Hf in *; simpl in *; [done|].
    destruct (Hseg eq_refl). lia. }
  split; [by apply enabled_nonempty|].
  split; [intros c _; apply Hmin|].
  split; [intros c Hc; rewrite (Hoff c Hc); done|].
  split; [exact Hsum|]. split; [exact Hseg|].
  intros Hf. destruct (Hgrow Hf) as [-> ?]. destruct (Hseg Hf) as [Hs Hk].
  unfold expected_length, derived_length in *. rewrite Hf in *. simpl in *. nia.
Qed.

(** The three ways a generation that passes validation and allocates
    its runes can end, by the requests the source answers. *)
Lemma Generate_requests o rd :
  valid_config o ->
  Format o = FormatGeneric \/ Format o = FormatAppKey ->
  expected_length o <= max_int ->
  4 * derived_length o <= maxAlloc ->
  let n := Z.to_nat (derived_length o) in
  (answers rd 0 (2 * n - 1) -> exists s, Generate o rd = Ret s)
  /\ (forall q e, fails_first rd 0 q e -> (q < n)%nat ->
      Generate o rd = Fail (ErrRandom e))
  /\ (forall q e, fails_first rd 0 q e -> (n <= q < 2 * n - 1)%nat ->
      Generate o rd = Panic nil_dereference).
Proof.
  intros Hvalid Hfmt Hfit Hcap n.
  destruct (valid_config_composable o Hvalid Hfmt Hfit)
    as (Hder & HL & Hne & Hon & Hoff & Hsum & Hseg & Hgrow).
  set (tmp := withLength o (derivedLength o)).
  destruct (generateGeneric_requests tmp rd 0%nat) as (Hok & Hfail & Hpanic);
    try assumption.
  { change (0 < derivedLength o <= max_int). by rewrite Hder. }
  { change (sum_enabled_minima o <= derivedLength o). by rewrite Hder. }
  { change (4 * derivedLength o <= maxAlloc). by rewrite Hder. }
  change (Z.to_nat (Length tmp)) with (Z.to_nat (derivedLength o)) in *.
  rewrite Hder in Hok, Hfail, Hpanic. fold n in Hok, Hfail, Hpanic.
  rewrite (Generate_from_generic o rd Hfmt Hseg). fold tmp.
  split; [|split].
  - intros Hans. destruct (Hok Hans) as (out & -> & _).
    destruct (String.eqb_spec (Format o) FormatAppKey) as [Hf|_]; [|eauto].
    specialize (Hgrow Hf).
    destruct (Z.ltb_spec (wrap (derivedLength o + wrap (Segments o - 1))) 0);
      [lia|].
    destruct (Z.ltb_spec maxAlloc (wrap (derivedLength o + wrap (Segments o - 1))));
      [lia|eauto].
  - intros q e Hf Hq. by rewrite (Hfail q e Hf Hq).
  - intros q e Hf Hq. by rewrite (Hpanic q e Hf Hq).
Qed.

(** X1. A generation that passes validation and whose runes are within
    the allocation limit succeeds exactly when the source answers its
    first [2 * L - 1] requests, [L] being the derived length: [L] draws
    compose the runes and [L - 1] shuffle them. *)
Theorem generation_succeeds_iff_requests_answered o rd :
  valid_config o ->
  Format o = FormatGeneric \/ Format o = FormatAppKey ->
  expected_length o <= max_int ->
  4 * derived_length o <= maxAlloc ->
  (exists s, Generate o rd = Ret s)
  <-> answers rd 0 (2 * Z.to_nat (derived_length o) - 1).
Proof.
  intros Hvalid Hfmt Hfit Hcap.
  destruct (Generate_requests o rd Hvalid Hfmt Hfit Hcap) as (Hok & Hfail & Hpanic).
  split; [|exact Hok].
  intros [s Hs].
  destruct (answers_or_fails rd 0 (2 * Z.to_nat (derived_length o) - 1))
    as [Ha|(q & e & Hf & Hq)]; [done|].
  destruct (Nat.lt_ge_cases q (Z.to_nat (derived_length o))) as [Hlt|Hge].
  - rewrite (Hfail q e Hf Hlt) in Hs. discriminate.
  - rewrite (Hpanic q e Hf) in Hs; [discriminate|lia].
Qed.

(** X2. In a generation that passes validation and whose runes are
    within the allocation limit, when the first request the source fails
    is one of the first [L] (a draw for a minimum or for the remainder),
    [Generate] returns the error of that request as it is. *)
Theorem composition_failure_returned o rd q e :
  valid_config o ->
  Format o = FormatGeneric \/ Format o = FormatAppKey ->
  expected_length o <= max_int ->
  4 * derived_length o <= maxAlloc ->
  fails_first rd 0 q e ->
  (q < Z.to_nat (derived_length o))%nat ->
  Generate o rd = Fail (ErrRandom e).
Proof.
  intros Hvalid Hfmt Hfit Hcap.
  destruct (Generate_requests o rd Hvalid Hfmt Hfit Hcap) as (_ & Hfail & _).
  apply Hfail.
Qed.

(** X3. In a generation that passes validation and whose runes are
    within the allocation limit, when the first request the source fails
    is one of the [L - 1] draws of the shuffle, [Generate] panics on the
    nil result and returns nothing. *)
Theorem shuffle_failure_panics o rd q e :
  valid_config o ->
  Format o = FormatGeneric \/ Format o = FormatAppKey ->
  expected_length o <= max_int ->
  4 * derived_length o <= maxAlloc ->
  fails_first rd 0 q e ->
  (Z.to_nat (derived_length o) <= q < 2 * Z.to_nat (derived_length o) - 1)%nat ->
  Generate o rd = Panic nil_dereference.
Proof.
  intros Hvalid Hfmt Hfit Hcap.
  destruct (Generate_requests o rd Hvalid Hfmt Hfit Hcap) as (_ & _ & Hpanic).
  apply Hpanic.
Qed.

Lemma valid_example_generic : valid_config example_generic.
Proof.
  repeat split; try done.
  - by exists Lower.
  - by intros [].
  - by intros [].
Qed.

Lemma answers_counting p n : answers counting p n.
Proof. intros q _. eexists. reflexivity. Qed.

Lemma fails_first_failing_from k :
  fails_first (failing_from k) 0 k (IoError "entropy source unavailable").
Proof.
  unfold fails_first, failing_from. split; [lia|]. split.
  - by rewrite Nat.ltb_irrefl.
  - intros q Hq. destruct (Nat.ltb_spec q k); [eauto|lia].
Qed.

(** X1 on [example_generic]: 19 requests answered. *)
Lemma generation_succeeds_iff_requests_answered_witness :
  valid_config example_generic
  /\ answers counting 0 19
  /\ exists s, Generate example_generic counting = Ret s.
Proof.
  split; [exact valid_example_generic|]. split; [apply answers_counting|].
  apply (generation_succeeds_iff_requests_answered example_generic counting
           valid_example_generic (or_introl eq_refl)).
  - vm_compute. discriminate.
  - vm_compute. discriminate.
  - apply answers_counting.
Defined.

(** X2 on [example_generic]: the eighth request fails, a draw for the
    remainder. *)
Lemma composition_failure_returned_witness :
  fails_first (failing_from 7) 0 7 (IoError "entropy source unavailable")
  /\ Generate example_generic (failing_from 7)
     = Fail (ErrRandom (IoError "entropy source unavailable")).
Proof.
  split; [apply fails_first_failing_from|].
  apply (composition_failure_returned example_generic (failing_from 7) 7%nat
           (IoError "entropy source unavailable")
           valid_example_generic (or_introl eq_refl)).
  - vm_compute. discriminate.
  - vm_compute. discriminate.
  - apply fails_first_failing_from.
  - vm_compute. lia.
Defined.

(** X3 on [example_generic]: the thirteenth request fails, the third
    draw of the shuffle. *)
Lemma shuffle_failure_panics_witness :
  fails_first (failing_from 12) 0 12 (IoError "entropy source unavailable")
  /\ Generate example_generic (failing_from 12) = Panic nil_dereference.
Proof.
  split; [apply fails_first_failing_from|].
  apply (shuffle_failure_panics example_generic (failing_from 12) 12%nat
           (IoError "entropy source unavailable")
           valid_example_generic (or_introl eq_refl)).
  - vm_compute. discriminate.
  - vm_compute. discriminate.
  - apply fails_first_failing_from.
  - vm_compute. lia.
Defined.

(** ** Errors of validation *)

Lemma collect_checks o :
  collectClassesAndValidate o
  = match class_checks o with
    | Some e => inr e
    | None => inl (class_chars <$> enabled o, Min o <$> enabled o)
    end.
Proof.
  unfold collectClassesAndValidate, collectClass, class_checks, enabled.
  destruct o as [? ? [] [] [] [] ? ? ? ? ? ?]; simpl;
    split_min_tests; reflexivity.
Qed.

Lemma sumMinima_enabled o :
  sumMinima (Min o <$> enabled o) = wrap (sum_enabled_minima o).
Proof. by rewrite sumMinima_wrap, sum_enabled_minima_foldr. Qed.

(** [generateGeneric] returns the error of the first check that fails,
    before any draw; with no check failing it allocates its runes, and
    makes its draws if they are within the limit. *)
Lemma generateGeneric_checks o rd p :
  match generic_checks o (Length o) with
  | Some e => generateGeneric o rd p = Fail e
  | None =>
      if maxAlloc <? 4 * Length o
      then generateGeneric o rd p = Panic makeslice_cap
      else spec rd (fun s => exists out, s = string_of_list_ascii out
                                         /\ generic_output o out)
             (generateGeneric o rd p)
  end.
Proof.
  unfold generic_checks.
  destruct (Z.leb_spec (Length o) 0) as [HL|HL].
  { unfold generateGeneric. destruct (Z.leb_spec (Length o) 0); [done|lia]. }
  pose proof (collect_checks o) as Hcol.
  destruct (class_checks o) as [e|].
  { by apply generateGeneric_collect_error. }
  destruct (collect_inl _ _ _ Hcol) as (_ & _ & Hne & Hon & Hoff).
  rewrite <- sumMinima_enabled.
  destruct (Z.gtb_spec (sumMinima (Min o <$> enabled o)) (Length o)) as [Hgt|Hle].
  - apply generateGeneric_minima_exceed; (assumption || lia).
  - destruct (Z.ltb_spec maxAlloc (4 * Length o)).
    + by apply generateGeneric_beyond_allocation.
    + by apply spec_generateGeneric.
Qed.

Lemma spec_Fail_not_validation {A} rd (P : A -> Prop) r e :
  spec rd P r -> r = Fail e -> validation_error e -> False.
Proof. intros H -> Hv. destruct H as [[io ->] _]. exact Hv. Qed.

(** X4. The checks of a configuration are made in a fixed order, before
    any request to the source: [Generate] fails with a validation error
    exactly when that error is the one of the first check that fails,
    whatever the source answers. *)
Theorem validation_errors_decided o rd e :
  validation_error e ->
  Generate o rd = Fail e <-> first_failed_check o = Some e.
Proof.
  intros Hv. unfold first_failed_check.
  destruct (String.eqb_spec (Format o) FormatGUID) as [Hg|Hg].
  { rewrite Generate_guid by done. unfold run, generateUUIDv4, bind, rand_Read.
    split; [|discriminate]. destruct (rd 0%nat); discriminate. }
  destruct (String.eqb_spec (Format o) FormatAppKey) as [Ha|Ha].
  - rewrite Generate_appkey by done. unfold run, generateAppKey, fail.
    destruct (Z.leb_spec (Segments o) 0); [split; intros [= <-]; done|].
    destruct (Z.leb_spec (SegmentLength o) 0); [split; intros [= <-]; done|].
    unfold bind, Grow.
    set (tmp := withLength o (wrap (Segments o * SegmentLength o))).
    pose proof (generateGeneric_checks tmp rd 0%nat) as Hg'.
    change (generic_checks tmp (Length tmp))
      with (generic_checks o (wrap (Segments o * SegmentLength o))) in Hg'.
    destruct (generic_checks o (wrap (Segments o * SegmentLength o))) as [e0|].
    + rewrite Hg'. split; intros [= <-]; done.
    + split; [|discriminate].
      destruct (generateGeneric tmp rd 0%nat) as [[core p]|e0|msg|msg] eqn:Hcore.
      * unfold panic, ret.
        destruct (wrap (wrap (Segments o * SegmentLength o) + wrap (Segments o - 1))
                  <? 0); [discriminate|].
        destruct (maxAlloc <? wrap (wrap (Segments o * SegmentLength o)
                                    + wrap (Segments o - 1))); discriminate.
      * intros [= <-]. exfalso.
        destruct (maxAlloc <? 4 * Length tmp); [discriminate|].
        by eapply spec_Fail_not_validation.
      * discriminate.
      * discriminate.
  - destruct (String.eqb_spec (Format o) FormatGeneric) as [Hf|Hf].
    + rewrite Generate_generic by done. unfold run.
      pose proof (generateGeneric_checks o rd 0%nat) as Hg'.
      destruct (generic_checks o (Length o)) as [e0|].
      * rewrite Hg'. split; intros [= <-]; done.
      * split; [|discriminate].
        destruct (generateGeneric o rd 0%nat) as [[core p]|e0|msg|msg] eqn:Hcore;
          try discriminate.
        intros [= <-]. exfalso.
        destruct (maxAlloc <? 4 * Length o); [discriminate|].
        by eapply spec_Fail_not_validation.
    + unfold Generate.
      destruct (String.eqb_spec (Format o) FormatGUID); [done|].
      destruct (String.eqb_spec (Format o) FormatAppKey); [done|].
      destruct (String.eqb_spec (Format o) FormatGeneric); [done|].
      split; intros [= <-]; done.
Qed.

(** X4 on [wrapping_to_zero], over a source that fails at once: the
    error is that of the length. *)
Lemma validation_errors_decided_witness :
  validation_error ErrLength
  /\ first_failed_check wrapping_to_zero = Some ErrLength
  /\ Generate wrapping_to_zero broken = Fail ErrLength.
Proof.
  split; [exact I|]. split; [reflexivity|].
  apply (validation_errors_decided wrapping_to_zero broken ErrLength I).
  reflexivity.
Defined.

(** X5. An app key whose segment count and segment length are positive
    but whose product wraps to zero or below fails with the error of the
    length, "length must be > 0". *)
Theorem appkey_wrapped_total_not_positive o rd :
  Format o = FormatAppKey ->
  0 < Segments o -> 0 < SegmentLength o ->
  wrap (Segments o * SegmentLength o) <= 0 ->
  Generate o rd = Fail ErrLength.
Proof.
  intros Hf Hs Hk Hw. rewrite Generate_appkey by done.
  unfold run, generateAppKey, bind, generateGeneric.
  destruct (Z.leb_spec (Segments o) 0); [lia|].
  destruct (Z.leb_spec (SegmentLength o) 0); [lia|].
  cbn [Length withLength].
  destruct (Z.leb_spec (wrap (Segments o * SegmentLength o)) 0); [done|lia].
Qed.

Lemma appkey_wrapped_total_not_positive_witness :
  wrap (Segments wrapping_to_zero * SegmentLength wrapping_to_zero) <= 0
  /\ Generate wrapping_to_zero counting = Fail ErrLength.
Proof.
  split; [vm_compute; discriminate|].
  apply (appkey_wrapped_total_not_positive wrapping_to_zero counting eq_refl
           eq_refl eq_refl).
  vm_compute. discriminate.
Defined.

(** ** Negative minima (C5) *)

Lemma Generate_Fail_check o rd e :
  validation_error e -> Generate o rd = Fail e -> first_failed_check o = Some e.
Proof.
  intros Hv. unfold first_failed_check.
  destruct (String.eqb_spec (Format o) FormatGUID) as [Hg|Hg].
  { rewrite Generate_guid by done. unfold run, generateUUIDv4, bind, rand_Read.
    destruct (rd 0%nat); discriminate. }
  destruct (String.eqb_spec (Format o) FormatAppKey) as [Ha|Ha].
  - rewrite Generate_appkey by done. unfold run, generateAppKey, fail.
    destruct (Z.leb_spec (Segments o) 0); [congruence|].
    destruct (Z.leb_spec (SegmentLength o) 0); [congruence|].
    unfold bind, Grow.
    set (tmp := withLength o (wrap (Segments o * SegmentLength o))).
    pose proof (generateGeneric_checks tmp rd 0%nat) as Hg'.
    change (generic_checks tmp (Length tmp))
      with (generic_checks o (wrap (Segments o * SegmentLength o))) in Hg'.
    destruct (generic_checks o (wrap (Segments o * SegmentLength o))) as [e0|].
    + rewrite Hg'. congruence.
    + destruct (generateGeneric tmp rd 0%nat) as [[core p]|e0|msg|msg] eqn:Hcore.
      * unfold panic, ret.
        destruct (wrap (wrap (Segments o * SegmentLength o) + wrap (Segments o - 1))
                  <? 0); [discriminate|].
        destruct (maxAlloc <? wrap (wrap (Segments o * SegmentLength o)
                                    + wrap (Segments o - 1))); discriminate.
      * intros [= <-]. exfalso.
        destruct (maxAlloc <? 4 * Length tmp); [discriminate|].
        by eapply spec_Fail_not_validation.
      * discriminate.
      * discriminate.
  - destruct (String.eqb_spec (Format o) FormatGeneric) as [Hf|Hf].
    + rewrite Generate_generic by done. unfold run.
      pose proof (generateGeneric_checks o rd 0%nat) as Hg'.
      destruct (generic_checks o (Length o)) as [e0|].
      * rewrite Hg'. congruence.
      * destruct (generateGeneric o rd 0%nat) as [[core p]|e0|msg|msg] eqn:Hcore;
          try discriminate.
        intros [= <-]. exfalso.
        destruct (maxAlloc <? 4 * Length o); [discriminate|].
        by eapply spec_Fail_not_validation.
    + unfold Generate.
      destruct (String.eqb_spec (Format o) FormatGUID); [done|].
      destruct (String.eqb_spec (Format o) FormatAppKey); [done|].
      destruct (String.eqb_spec (Format o) FormatGeneric); [done|].
      congruence.
Qed.

Lemma class_checks_negative o :
  class_checks o = Some ErrNegativeMinimum ->
  exists c, Use o c = true /\ Min o c < 0.
Proof.
  unfold class_checks.
  destruct o as [? ? uL uU uN uS mL mU mN mS ? ?]; simpl.
  destruct uL, uU, uN, uS; simpl; split_min_tests; try discriminate; intros _;
    first [ exists Lower; split; [reflexivity|simpl; lia]
          | exists Upper; split; [reflexivity|simpl; lia]
          | exists Number; split; [reflexivity|simpl; lia]
          | exists Symbol; split; [reflexivity|simpl; lia] ].
Qed.

Lemma generic_checks_negative o L :
  generic_checks o L = Some ErrNegativeMinimum ->
  exists c, Use o c = true /\ Min o c < 0.
Proof.
  unfold generic_checks. destruct (L <=? 0); [discriminate|].
  destruct (class_checks o) as [e|] eqn:Hc.
  - intros [= ->]. by apply class_checks_negative.
  - destruct (_ >? _); discriminate.
Qed.

Lemma collect_setMin o c m :
  Use o c = false -> Min o c <= 0 -> m <= 0 ->
  collectClassesAndValidate (setMin o c m) = collectClassesAndValidate o.
Proof.
  unfold collectClassesAndValidate, collectClass, setMin.
  destruct o as [? ? uL uU uN uS mL mU mN mS ? ?]. destruct c; simpl;
    intros -> Hmin Hm;
    repeat match goal with
           | |- context [?x >? 0] =>
               lazymatch x with
               | m => destruct (Z.gtb_spec m 0); [lia|]
               | mL => destruct (Z.gtb_spec mL 0); [lia|]
               | mU => destruct (Z.gtb_spec mU 0); [lia|]
               | mN => destruct (Z.gtb_spec mN 0); [lia|]
               | mS => destruct (Z.gtb_spec mS 0); [lia|]
               end
           end; reflexivity.
Qed.

Lemma generateGeneric_setMin o c m rd p :
  Use o c = false -> Min o c <= 0 -> m <= 0 ->
  generateGeneric (setMin o c m) rd p = generateGeneric o rd p.
Proof.
  intros Hc Hmin Hm. unfold generateGeneric.
  rewrite (collect_setMin o c m Hc Hmin Hm). reflexivity.
Qed.

(** C5 at its failing input, and the rule behind it. The minimum of a
    class that is off is compared with zero from above only: with the
    lowercase letters off and a minimum of -1 for them, [Generate]
    returns four runes where the specification asks for the
    negative-minimum error, while a negative minimum on a class that is
    on is reported. In general that error is raised for a negative
    minimum of a class that is on and for no other, and a minimum that is
    not above zero on a class that is off can be replaced by any other
    without changing what [Generate] does. A negative minimum on a class
    that is on is reported once the earlier checks have passed. *)
Theorem C5_negative_minimum_unexamined :
  Generate negative_on_disabled counting = Ret "DKRY"%string
  /\ Generate negative_on_enabled counting = Fail ErrNegativeMinimum
  /\ (forall o rd,
        Generate o rd = Fail ErrNegativeMinimum ->
        exists c, Use o c = true /\ Min o c < 0)
  /\ (forall o rd c m,
        Use o c = false -> Min o c <= 0 -> m <= 0 ->
        Generate (setMin o c m) rd = Generate o rd)
  /\ (forall o rd,
        Format o = FormatGeneric \/ Format o = FormatAppKey ->
        length_checks o ->
        (forall c, Use o c = false -> Min o c <= 0) ->
        (exists c, Use o c = true /\ Min o c < 0) ->
        Generate o rd = Fail ErrNegativeMinimum).
Proof.
  split; [vm_compute; reflexivity|]. split; [vm_compute; reflexivity|].
  split; [|split].
  - intros o rd Hgen. apply (Generate_Fail_check o rd ErrNegativeMinimum I) in Hgen.
    unfold first_failed_check in Hgen.
    destruct (Format o =? FormatGUID)%string; [discriminate|].
    destruct (Format o =? FormatAppKey)%string.
    + destruct (Segments o <=? 0); [discriminate|].
      destruct (SegmentLength o <=? 0); [discriminate|].
      by eapply generic_checks_negative.
    + destruct (Format o =? FormatGeneric)%string; [|discriminate].
      by eapply generic_checks_negative.
  - intros o rd c m Hc Hmin Hm. unfold Generate.
    change (Format (setMin o c m)) with (Format o).
    destruct (Format o =? FormatGUID)%string; [reflexivity|].
    destruct (Format o =? FormatAppKey)%string.
    + unfold run, generateAppKey, bind.
      change (Segments (setMin o c m)) with (Segments o).
      change (SegmentLength (setMin o c m)) with (SegmentLength o).
      destruct (Segments o <=? 0); [reflexivity|].
      destruct (SegmentLength o <=? 0); [reflexivity|].
      change (withLength (setMin o c m) (wrap (Segments o * SegmentLength o)))
        with (setMin (withLength o (wrap (Segments o * SegmentLength o))) c m).
      by rewrite generateGeneric_setMin.
    + destruct (Format o =? FormatGeneric)%string; [|reflexivity].
      unfold run. by rewrite generateGeneric_setMin.
  - intros o rd Hfmt Hlen Hoff Hneg.
    apply Generate_collect_error; [done..|].
    by apply collect_negative_minimum.
Qed.

(** ** Panics *)

Lemma quiet_bind {A B} (m : M A) (f : A -> M B) rd p :
  quiet (m rd p) -> (forall a p', quiet (f a rd p')) -> quiet (bind m f rd p).
Proof.
  unfold bind. destruct (m rd p) as [[a p']|e|msg|msg]; simpl; auto.
Qed.

Lemma quiet_randomRune (set : list rune) rd p : quiet (randomRune set rd p).
Proof.
  unfold randomRune. destruct (Nat.eqb_spec (length set) 0) as [H0|H0]; [done|].
  unfold bind, rand_Int.
  destruct (Z.leb_spec (Z.of_nat (length set)) 0); [lia|].
  destruct (Z.eqb_spec (Z.of_nat (length set)) 1) as [H1|H1].
  - destruct (lookup_lt_is_Some_2 set (Z.to_nat 0)) as [r Hr]; [simpl; lia|].
    by rewrite Hr.
  - destruct (rd p) as [raw|e]; [|done].
    pose proof (Z.mod_pos_bound raw (Z.of_nat (length set)) ltac:(lia)) as Hb.
    destruct (lookup_lt_is_Some_2 set (Z.to_nat (raw mod Z.of_nat (length set))))
      as [r Hr]; [lia|].
    by rewrite Hr.
Qed.

Lemma quiet_drawRunes n (set out : list rune) rd p : quiet (drawRunes n set out rd p).
Proof.
  revert out p. induction n as [|n IH]; intros out p; [done|].
  cbn [drawRunes]. apply quiet_bind; [apply quiet_randomRune|].
  intros r p'. apply IH.
Qed.

Lemma quiet_satisfyMinima sets mins (out : list rune) rd p :
  length sets = length mins -> quiet (satisfyMinima sets mins out rd p).
Proof.
  revert mins out p. induction sets as [|set sets IH]; intros mins out p Hlen; [done|].
  destruct mins as [|m mins]; [discriminate|]. cbn [satisfyMinima].
  apply quiet_bind; [apply quiet_drawRunes|].
  intros out' p'. apply IH. by inversion Hlen.
Qed.

Lemma swap_Ret i j (r : list rune) rd p :
  (i < length r)%nat -> (j < length r)%nat ->
  exists r', swap i j r rd p = Ret (r', p) /\ length r' = length r.
Proof.
  intros Hi Hj. unfold swap.
  destruct (lookup_lt_is_Some_2 r i Hi) as [ri Hri].
  destruct (lookup_lt_is_Some_2 r j Hj) as [rj Hrj].
  rewrite Hri, Hrj. eexists. split; [reflexivity|]. by rewrite !length_insert.
Qed.

Lemma quiet_shuffleFrom i (r : list rune) rd p :
  (i < length r)%nat -> quiet (shuffleFrom i r rd p).
Proof.
  revert r p. induction i as [|i IH]; intros r p Hi; [done|].
  cbn [shuffleFrom]. unfold bind at 1, rand_Int.
  destruct (Z.leb_spec (Z.of_nat (S i) + 1) 0); [lia|].
  destruct (Z.eqb_spec (Z.of_nat (S i) + 1) 1); [lia|].
  destruct (rd p) as [raw|e]; [|done].
  pose proof (Z.mod_pos_bound raw (Z.of_nat (S i) + 1) ltac:(lia)) as Hb.
  destruct (swap_Ret (S i) (Z.to_nat (raw mod (Z.of_nat (S i) + 1))) r rd (S p))
    as (r' & Hr' & Hlen); [lia..|].
  unfold bind. rewrite Hr'. apply IH. lia.
Qed.

Lemma quiet_shuffleRunes (r : list rune) rd p : quiet (shuffleRunes r rd p).
Proof.
  unfold shuffleRunes. destruct r as [|x r]; [done|].
  apply quiet_shuffleFrom. simpl. lia.
Qed.

Lemma quiet_generateGeneric o rd p :
  4 * Length o <= maxAlloc -> quiet (generateGeneric o rd p).
Proof.
  intros Hcap. unfold generateGeneric.
  destruct (Z.leb_spec (Length o) 0); [done|].
  destruct (collectClassesAndValidate o) as [[sets mins]|e] eqn:Hcol; [|done].
  destruct (collect_inl _ _ _ Hcol) as (-> & -> & _).
  destruct (_ >? _); [done|].
  rewrite bind_makeRunes by lia.
  apply quiet_bind; [apply quiet_satisfyMinima; by rewrite !length_fmap|].
  intros out p1. apply quiet_bind; [apply quiet_drawRunes|].
  intros out2 p2. apply quiet_bind; [apply quiet_shuffleRunes|].
  done.
Qed.

(** The panics of [generateGeneric]: that of [make], with every check
    passed and runes beyond the limit, and that of the shuffle, with a
    request that the source has failed. *)
Lemma panics_of_generateGeneric o rd p msg :
  generateGeneric o rd p = Panic msg ->
  (msg = makeslice_cap /\ maxAlloc < 4 * Length o)
  \/ (msg = nil_dereference /\ ~ healthy rd).
Proof.
  intros Hgen. pose proof (generateGeneric_checks o rd p) as Hc.
  destruct (generic_checks o (Length o)); [congruence|].
  destruct (Z.ltb_spec maxAlloc (4 * Length o)) as [Hbig|Hcap].
  - left. split; [congruence|done].
  - right. pose proof (quiet_generateGeneric o rd p Hcap) as Hq.
    rewrite Hgen in Hq, Hc. done.
Qed.

(** X6. For a configuration whose toggled-on minima sum within an
    [int], so that no [append] outgrows what [make] allocated,
    [Generate] panics in four ways only. On the nil result of a draw of
    the shuffle, and then the source has failed a request; in [make],
    when the runes of the derived length are beyond the allocation
    limit; and for an app key in [Grow], when the count of runes and
    separators wraps below zero or is beyond the limit. No index is ever
    out of range and no bound of a draw is ever zero. *)
Theorem panics_of_Generate o rd msg :
  sum_enabled_minima o <= max_int ->
  Generate o rd = Panic msg ->
  (msg = nil_dereference /\ ~ healthy rd
   /\ (Format o = FormatGeneric \/ Format o = FormatAppKey))
  \/ (msg = makeslice_cap
      /\ (Format o = FormatGeneric \/ Format o = FormatAppKey)
      /\ maxAlloc < 4 * derivedLength o)
  \/ (msg = negative_grow /\ Format o = FormatAppKey
      /\ wrap (derivedLength o + wrap (Segments o - 1)) < 0)
  \/ (msg = makeslice_len /\ Format o = FormatAppKey
      /\ maxAlloc < wrap (derivedLength o + wrap (Segments o - 1))).
Proof.
  intros _.
  destruct (String.eqb_spec (Format o) FormatGUID) as [Hg|Hg].
  { destruct (rd 0%nat) as [raw|e] eqn:Hrd.
    - rewrite Generate_guid_bytes with (raw := raw) by done. discriminate.
    - rewrite (generateUUIDv4_failure_fatal o rd e) by done. discriminate. }
  unfold Generate, derivedLength.
  destruct (String.eqb_spec (Format o) FormatGUID); [done|].
  destruct (String.eqb_spec (Format o) FormatAppKey) as [Ha|Ha].
  - unfold run, generateAppKey, fail.
    destruct (Z.leb_spec (Segments o) 0); [discriminate|].
    destruct (Z.leb_spec (SegmentLength o) 0); [discriminate|].
    unfold bind, Grow, panic, ret.
    set (tmp := withLength o (wrap (Segments o * SegmentLength o))).
    destruct (generateGeneric tmp rd 0%nat) as [[core p]|e|m|m] eqn:Hcore.
    + destruct (Z.ltb_spec (wrap (wrap (Segments o * SegmentLength o)
                                    + wrap (Segments o - 1))) 0).
      { intros [= <-]. right. right. left. done. }
      destruct (Z.ltb_spec maxAlloc (wrap (wrap (Segments o * SegmentLength o)
                                           + wrap (Segments o - 1))));
        [|discriminate].
      intros [= <-]. right. right. right. done.
    + discriminate.
    + intros [= <-].
      destruct (panics_of_generateGeneric tmp rd 0%nat m Hcore)
        as [[-> Hbig]|[-> Hh]].
      * right. left. split; [done|]. split; [by right|exact Hbig].
      * left. split; [done|]. split; [done|by right].
    + discriminate.
  - destruct (String.eqb_spec (Format o) FormatGeneric) as [Hf|Hf]; [|discriminate].
    unfold run.
    destruct (generateGeneric o rd 0%nat) as [[core p]|e|m|m] eqn:Hcore;
      try discriminate.
    intros [= <-].
    destruct (panics_of_generateGeneric o rd 0%nat m Hcore) as [[-> Hbig]|[-> Hh]].
    + right. left. split; [done|]. split; [by left|exact Hbig].
    + left. split; [done|]. split; [done|by left].
Qed.

Lemma panics_of_Generate_witness :
  Generate example_generic (failing_from 10) = Panic nil_dereference
  /\ ~ healthy (failing_from 10).
Proof.
  assert (Hgen : Generate example_generic (failing_from 10) = Panic nil_dereference)
    by (vm_compute; reflexivity).
  split; [exact Hgen|].
  destruct (panics_of_Generate example_generic (failing_from 10) nil_dereference)
    as [(_ & Hh & _)|[(Hm & _)|[(Hm & _)|(Hm & _)]]].
  - vm_compute. discriminate.
  - exact Hgen.
  - exact Hh.
  - discriminate Hm.
  - discriminate Hm.
  - discriminate Hm.
Defined.

(** ** Success and the checks *)

Lemma generic_checks_None o L :
  generic_checks o L = None ->
  0 < L /\ (exists c, Use o c = true)
  /\ (forall c, Use o c = true -> 0 <= Min o c)
  /\ (forall c, Use o c = false -> Min o c <= 0)
  /\ sumMinima (Min o <$> enabled o) <= L.
Proof.
  unfold generic_checks. destruct (Z.leb_spec L 0) as [|HL]; [discriminate|].
  pose proof (collect_checks o) as Hcol.
  destruct (class_checks o) as [e|]; [discriminate|].
  destruct (collect_inl _ _ _ Hcol) as (_ & _ & Hne & Hon & Hoff).
  rewrite sumMinima_enabled.
  destruct (Z.gtb_spec (wrap (sum_enabled_minima o)) L); [discriminate|].
  intros _. repeat split; try done.
  destruct (enabled o) as [|c cs] eqn:Hen; [done|].
  exists c. apply elem_of_enabled. rewrite Hen. by left.
Qed.

Lemma generic_checks_pass o L :
  0 < L -> (exists c, Use o c = true) ->
  (forall c, Use o c = true -> 0 <= Min o c) ->
  (forall c, Use o c = false -> Min o c <= 0) ->
  sumMinima (Min o <$> enabled o) <= L ->
  generic_checks o L = None.
Proof.
  intros HL Hex Hon Hoff Hsum. unfold generic_checks.
  destruct (Z.leb_spec L 0); [lia|].
  pose proof (collect_checks o) as Hcol.
  rewrite (collect_total o (enabled_nonempty o Hex) Hon Hoff) in Hcol.
  destruct (class_checks o); [discriminate|].
  rewrite <- sumMinima_enabled.
  destruct (Z.gtb_spec (sumMinima (Min o <$> enabled o)) L); [lia|done].
Qed.

(** With no check failing, the segment count and the segment length of
    an app key are positive and the generic checks pass for the derived
    length. *)
Lemma first_failed_check_None o :
  Format o = FormatGeneric \/ Format o = FormatAppKey ->
  first_failed_check o = None ->
  generic_checks o (derivedLength o) = None
  /\ (Format o = FormatAppKey -> 0 < Segments o /\ 0 < SegmentLength o).
Proof.
  unfold first_failed_check, derivedLength.
  intros [Hf|Hf] Hnone; rewrite Hf in *; simpl in *; [done|].
  destruct (Z.leb_spec (Segments o) 0); [discriminate|].
  destruct (Z.leb_spec (SegmentLength o) 0); [discriminate|]. done.
Qed.

(** X7. Over a source that never fails, and for a configuration whose
    toggled-on minima sum within an [int], a generic or app-key
    generation succeeds exactly when no check fails, the runes of the
    derived length are within the allocation limit and, for an app key,
    the count given to [Grow] is neither negative nor beyond the
    limit. *)
Theorem success_iff_checks_pass o rd :
  healthy rd ->
  Format o = FormatGeneric \/ Format o = FormatAppKey ->
  sum_enabled_minima o <= max_int ->
  (exists s, Generate o rd = Ret s)
  <-> first_failed_check o = None
      /\ 4 * derivedLength o <= maxAlloc
      /\ (Format o = FormatAppKey ->
          0 <= wrap (derivedLength o + wrap (Segments o - 1)) <= maxAlloc).
Proof.
  intros Hrd Hfmt _. split.
  - intros [s Hs].
    destruct (Generate_Ret o rd s Hfmt Hs) as ([Hseg HL] & Hon & Hoff & Hsum & Hout).
    pose proof (Generate_Ret_allocated o rd s Hfmt Hs) as Hcap.
    assert (Hex : exists c, Use o c = true).
    { destruct Hfmt as [Hf|Hf].
      - rewrite Generate_generic in Hs by done. apply run_Ret in Hs as [p Hs].
        apply generateGeneric_Ret in Hs as (_ & Hne & _).
        destruct (enabled o) as [|c cs] eqn:Hen; [done|].
        exists c. apply elem_of_enabled. rewrite Hen. by left.
      - rewrite Generate_appkey in Hs by done. apply run_Ret in Hs as [p Hs].
        apply generateAppKey_Ret in Hs as (_ & _ & _ & core & Hs & _).
        apply generateGeneric_Ret in Hs as (_ & Hne & _).
        change (enabled (withLength o (wrap (Segments o * SegmentLength o))))
          with (enabled o) in Hne.
        destruct (enabled o) as [|c cs] eqn:Hen; [done|].
        exists c. apply elem_of_enabled. rewrite Hen. by left. }
    pose proof (generic_checks_pass o (derivedLength o) HL Hex Hon Hoff Hsum) as Hg.
    split; [|split; [exact Hcap|]].
    + unfold first_failed_check, derivedLength in *.
      destruct Hfmt as [Hf|Hf]; rewrite Hf in *; simpl in *; [done|].
      destruct (Hseg eq_refl) as [Hs' Hk'].
      destruct (Z.leb_spec (Segments o) 0); [lia|].
      destruct (Z.leb_spec (SegmentLength o) 0); [lia|]. done.
    + intros Hf. rewrite Generate_appkey in Hs by done.
      apply run_Ret in Hs as [p Hs].
      apply generateAppKey_Ret in Hs as (_ & _ & Hgrow & _).
      unfold derivedLength. by rewrite Hf.
  - intros (Hnone & Hcap & Hgrow).
    destruct (first_failed_check_None o Hfmt Hnone) as [Hg Hseg].
    apply generic_checks_None in Hg as (HL & Hex & Hon & Hoff & Hsum).
    by apply Generate_healthy.
Qed.

(** X7 on [example_appkey]. *)
Lemma success_iff_checks_pass_witness :
  healthy counting
  /\ first_failed_check example_appkey = None
  /\ exists s, Generate example_appkey counting = Ret s.
Proof.
  split; [exact healthy_counting|]. split; [reflexivity|].
  apply (success_iff_checks_pass example_appkey counting healthy_counting
           (or_intror eq_refl)).
  - vm_compute. discriminate.
  - split; [reflexivity|]. split; [vm_compute; discriminate|].
    intros _. split; vm_compute; discriminate.
Defined.

(** ** Allocations beyond the limit *)

(** X17. A generic or app-key configuration that fails no check but
    whose runes are beyond the allocation limit makes [Generate] panic in
    [make], before any request to the source. *)
Theorem make_beyond_limit_panics o rd :
  Format o = FormatGeneric \/ Format o = FormatAppKey ->
  first_failed_check o = None ->
  maxAlloc < 4 * derivedLength o ->
  Generate o rd = Panic makeslice_cap.
Proof.
  intros Hfmt Hnone Hbig.
  destruct (first_failed_check_None o Hfmt Hnone) as [Hg Hseg].
  apply generic_checks_None in Hg as (HL & Hex & Hon & Hoff & Hsum).
  rewrite (Generate_from_generic o rd Hfmt Hseg).
  by rewrite (generateGeneric_beyond_allocation
                (withLength o (derivedLength o)) rd 0%nat HL
                (enabled_nonempty o Hex) Hon Hoff Hsum Hbig).
Qed.

(** X17 on [exact_beyond_allocation], over a source that fails at once. *)
Lemma make_beyond_limit_panics_witness :
  first_failed_check exact_beyond_allocation = None
  /\ Generate exact_beyond_allocation broken = Panic makeslice_cap.
Proof.
  split; [reflexivity|].
  apply (make_beyond_limit_panics exact_beyond_allocation broken
           (or_introl eq_refl) eq_refl).
  vm_compute. reflexivity.
Defined.

(** X18. An app key whose runes were generated, but whose count of runes
    and separators is beyond the allocation limit, makes [Generate] panic
    in [Grow]; and then the product of the segment count and the segment
    length has wrapped. *)
Theorem grow_beyond_limit_panics o rd core :
  Format o = FormatAppKey ->
  0 < Segments o -> 0 < SegmentLength o ->
  Generate (withLength o (derivedLength o)) rd = Ret core ->
  maxAlloc < wrap (derivedLength o + wrap (Segments o - 1)) ->
  Generate o rd = Panic makeslice_len
  /\ max_int < Segments o * SegmentLength o.
Proof.
  intros Hf Hs Hk Hcore Hbig.
  assert (Hseg : Format o = FormatAppKey -> 0 < Segments o /\ 0 < SegmentLength o)
    by done.
  split.
  - rewrite (Generate_from_generic o rd (or_intror Hf) Hseg).
    rewrite (Generate_generic (withLength o (derivedLength o)) rd eq_refl) in Hcore.
    apply run_Ret in Hcore as [p Hcore]. rewrite Hcore, Hf. simpl.
    destruct (Z.ltb_spec (wrap (derivedLength o + wrap (Segments o - 1))) 0);
      [unfold maxAlloc in *; lia|].
    destruct (Z.ltb_spec maxAlloc (wrap (derivedLength o + wrap (Segments o - 1))));
      [done|lia].
  - destruct (Z.lt_ge_cases max_int (Segments o * SegmentLength o)) as [|Hfit];
      [done|exfalso].
    pose proof (Generate_Ret_allocated (withLength o (derivedLength o)) rd core
                  (or_introl eq_refl) Hcore) as Hcap.
    change (derivedLength (withLength o (derivedLength o)))
      with (derivedLength o) in Hcap.
    unfold derivedLength in *. rewrite Hf in *. simpl in *.
    unfold max_int, maxAlloc in *.
    rewrite (wrap_id (Segments o * SegmentLength o)) in *
      by (unfold min_int, max_int; nia).
    rewrite (wrap_id (Segments o - 1)) in Hbig by (unfold min_int, max_int; nia).
    rewrite wrap_id in Hbig by (unfold min_int, max_int; nia).
    nia.
Qed.

(** X18 on [overgrown_appkey]: four runes are generated, and [Grow] is
    asked for 2^62 + 4 bytes. *)
Lemma grow_beyond_limit_panics_witness :
  Generate (withLength overgrown_appkey 4) counting = Ret "dkry"
  /\ Generate overgrown_appkey counting = Panic makeslice_len.
Proof.
  assert (Hcore : Generate (withLength overgrown_appkey 4) counting = Ret "dkry"%string)
    by (vm_compute; reflexivity).
  split; [exact Hcore|].
  apply (grow_beyond_limit_panics overgrown_appkey counting "dkry" eq_refl
           eq_refl eq_refl Hcore).
  vm_compute. reflexivity.
Defined.

(** X19. In the GUID format a failure of the source is never returned
    as an error: when the source fails the one request of [rand.Read],
    the process is stopped by a fatal error that carries the message of
    the failure, and [Generate] returns no error for any source. *)
Theorem guid_failure_is_fatal o rd :
  Format o = FormatGUID ->
  (forall e, rd 0%nat = Broken e -> Generate o rd = Fatal (failed_read e))
  /\ (forall e, Generate o rd <> Fail e).
Proof.
  intros Hg. split.
  - intros e Hrd. by apply generateUUIDv4_failure_fatal.
  - intros e. destruct (rd 0%nat) as [raw|e'] eqn:Hrd.
    + rewrite Generate_guid_bytes with (raw := raw) by done. discriminate.
    + rewrite (generateUUIDv4_failure_fatal o rd e') by done. discriminate.
Qed.

(** X19 on a GUID configuration, over a source that fails at once. *)
Lemma guid_failure_is_fatal_witness :
  Generate (mkOptions FormatGUID 0 true true true true 0 0 0 0 0 0) broken
  = Fatal "crypto/rand: failed to read random data (see https://go.dev/issue/66821): entropy source unavailable".
Proof.
  exact (proj1 (guid_failure_is_fatal
                  (mkOptions FormatGUID 0 true true true true 0 0 0 0 0 0)
                  broken eq_refl)
           (IoError "entropy source unavailable") eq_refl).
Defined.

(** ** The shuffle on its own *)

(** X8. A shuffle that returns has made one request per position but the
    first, all answered, and its result is a rearrangement of its input:
    no rune is lost, added or duplicated. *)
Theorem shuffleRunes_permutes (r r' : list rune) rd p p' :
  shuffleRunes r rd p = Ret (r', p') ->
  r' ≡ₚ r /\ p' = (p + (length r - 1))%nat /\ answers rd p (length r - 1).
Proof.
  unfold shuffleRunes. intros Hs.
  destruct r as [|x r].
  { injection Hs as <- <-. simpl. split; [done|]. split; [lia|].
    intros q Hq. lia. }
  assert (Hi : (length (x :: r) - 1 < length (x :: r))%nat) by (simpl; lia).
  destruct (answers_or_fails rd p (length (x :: r) - 1)) as [Ha|(q & e & Hf & Hq)].
  - destruct (shuffleFrom_answered _ (x :: r) rd p Hi Ha) as (r'' & Hr'' & Hperm).
    rewrite Hr'' in Hs. injection Hs as <- <-. by repeat split.
  - rewrite (shuffleFrom_failed _ (x :: r) rd p q e Hi Hf Hq) in Hs. discriminate.
Qed.

Lemma shuffleRunes_permutes_witness :
  shuffleRunes ["a"; "b"; "c"; "d"]%char counting 0%nat
  = Ret (["a"; "c"; "b"; "d"]%char, 3%nat)
  /\ ["a"; "c"; "b"; "d"]%char ≡ₚ ["a"; "b"; "c"; "d"]%char.
Proof.
  assert (Hs : shuffleRunes ["a"; "b"; "c"; "d"]%char counting 0%nat
               = Ret (["a"; "c"; "b"; "d"]%char, 3%nat))
    by (vm_compute; reflexivity).
  split; [exact Hs|].
  exact (proj1 (shuffleRunes_permutes _ _ counting 0%nat 3%nat Hs)).
Defined.

Lemma shuffleFrom_reaches i : forall (r t : list rune),
  (i < length r)%nat -> length t = length r ->
  take (S i) t ≡ₚ take (S i) r -> drop (S i) t = drop (S i) r ->
  exists js : list Z,
    length js = i
    /\ forall rd p, (forall k, (k < i)%nat -> rd (p + k)%nat = Rnd (nth k js 0)) ->
                    shuffleFrom i r rd p = Ret (t, (p + i)%nat).
Proof.
  induction i as [|i IH]; intros r t Hi Hlen Htake Hdrop.
  - exists []. split; [done|]. intros rd p _. rewrite Nat.add_0_r.
    destruct r as [|r0 r], t as [|t0 t]; simpl in *; try lia.
    rewrite !take_0 in Htake. apply Permutation_length_1 in Htake as ->.
    rewrite !drop_0 in Hdrop. by rewrite Hdrop.
  - destruct (lookup_lt_is_Some_2 t (S i)) as [x Hx]; [lia|].
    destruct (lookup_lt_is_Some_2 r (S i) Hi) as [ri Hri].
    assert (Hin : x ∈ take (S (S i)) r).
    { rewrite <- Htake. apply (list_elem_of_lookup_2 _ (S i)).
      rewrite lookup_take_lt by lia. done. }
    apply list_elem_of_lookup_1 in Hin as [j Hj].
    apply lookup_take_Some in Hj as [Hj Hjlt].
    set (r1 := <[j:=ri]> (<[S i:=x]> r)).
    assert (Hlen1 : length r1 = length r) by (unfold r1; by rewrite !length_insert).
    assert (Hx1 : r1 !! S i = Some x).
    { unfold r1. destruct (decide (j = S i)) as [->|Hne].
      - rewrite list_lookup_insert_eq by (rewrite length_insert; lia). congruence.
      - rewrite list_lookup_insert_ne by done.
        by rewrite list_lookup_insert_eq by lia. }
    assert (Hdrop1 : drop (S (S i)) r1 = drop (S (S i)) r).
    { unfold r1. by rewrite !drop_insert_lt by lia. }
    assert (Htake1 : take (S (S i)) r1 ≡ₚ take (S (S i)) r).
    { unfold r1. rewrite !take_insert_lt by lia.
      apply Permutation_insert_swap; rewrite lookup_take_lt by lia; done. }
    destruct (IH r1 t) as (js & Hjs & Hrun); [lia|lia| | |].
    { apply (Permutation_app_inv_r [x]).
      rewrite <- (take_S_r t (S i) x Hx), <- (take_S_r r1 (S i) x Hx1).
      by rewrite Htake, Htake1. }
    { rewrite (drop_S t x (S i) Hx), (drop_S r1 x (S i) Hx1).
      by rewrite Hdrop, Hdrop1. }
    exists (Z.of_nat j :: js). split; [simpl; by rewrite Hjs|].
    intros rd p Hrd. cbn [shuffleFrom]. unfold bind, rand_Int.
    destruct (Z.leb_spec (Z.of_nat (S i) + 1) 0); [lia|].
    destruct (Z.eqb_spec (Z.of_nat (S i) + 1) 1); [lia|].
    pose proof (Hrd 0%nat ltac:(lia)) as H0. rewrite Nat.add_0_r in H0.
    rewrite H0. cbn [nth].
    rewrite Z.mod_small by lia. rewrite Nat2Z.id.
    unfold swap. rewrite Hri, Hj. unfold ret. fold r1.
    rewrite (Hrun rd (S p)).
    + do 2 f_equal. lia.
    + intros k Hk. replace (S p + k)%nat with (p + S k)%nat by lia.
      rewrite Hrd by lia. done.
Qed.

(** X9. The shuffle can return every rearrangement of its input: for each
    one there are answers of the source that produce it. *)
Theorem shuffleRunes_reaches_every_permutation (r t : list rune) :
  t ≡ₚ r ->
  exists js : list Z,
    shuffleRunes r (reader_of js) 0%nat = Ret (t, (length r - 1)%nat).
Proof.
  intros Hperm. unfold shuffleRunes.
  destruct r as [|x r].
  { apply Permutation_nil_r in Hperm as ->. by exists []. }
  pose proof (Permutation_length Hperm) as Hlen.
  destruct (shuffleFrom_reaches (length (x :: r) - 1) (x :: r) t) as (js & _ & Hrun).
  - simpl. lia.
  - done.
  - rewrite !take_ge; [done|simpl; lia|simpl in *; lia].
  - rewrite !drop_ge; [done|simpl; lia|simpl in *; lia].
  - exists js. rewrite (Hrun (reader_of js) 0%nat); [done|].
    intros k _. reflexivity.
Qed.

Lemma shuffleRunes_reaches_every_permutation_witness :
  exists js : list Z,
    shuffleRunes ["a"; "b"; "c"]%char (reader_of js) 0%nat
    = Ret (["c"; "a"; "b"]%char, 2%nat).
Proof.
  apply (shuffleRunes_reaches_every_permutation ["a"; "b"; "c"]%char
           ["c"; "a"; "b"]%char).
  apply (bool_decide_unpack _). vm_compute. exact I.
Defined.

(** ** Single draws and the pool *)

(** X10. The runes that [randomRune] can return are exactly the runes
    of its set: it never returns anything else, and for each rune of the
    set there is an answer of the source on which it returns that rune.
    On the empty set it returns none. *)
Theorem randomRune_returns_exactly_its_set (set : list rune) (r : rune) :
  (exists rd p p', randomRune set rd p = Ret (r, p')) <-> r ∈ set.
Proof.
  split.
  - intros (rd & p & p' & Hr).
    destruct set as [|x set]; [discriminate Hr|].
    pose proof (spec_randomRune rd (x :: set) p ltac:(done)) as Hs.
    by rewrite Hr in Hs.
  - intros Hin. apply list_elem_of_lookup_1 in Hin as [i Hi].
    pose proof (lookup_lt_Some _ _ _ Hi) as Hlt.
    exists (reader_of [Z.of_nat i]), 0%nat. unfold randomRune, bind, rand_Int.
    destruct (Nat.eqb_spec (length set) 0); [lia|].
    destruct (Z.leb_spec (Z.of_nat (length set)) 0); [lia|].
    destruct (Z.eqb_spec (Z.of_nat (length set)) 1) as [H1|H1].
    + assert (i = 0%nat) as -> by lia. change (Z.to_nat 0) with 0%nat.
      rewrite Hi. eauto.
    + unfold reader_of. cbn [nth]. rewrite Z.mod_small by lia.
      rewrite Nat2Z.id, Hi. eauto.
Qed.

(** X11. The sets that [collectClassesAndValidate] returns, flattened by
    [concatClasses], hold every rune of every toggled-on class exactly
    once, and nothing else: a draw from the pool picks each of its runes
    through one index only. *)
Theorem pool_holds_each_rune_once o sets mins :
  collectClassesAndValidate o = inl (sets, mins) ->
  NoDup (concatClasses sets)
  /\ (forall r, r ∈ concatClasses sets
                <-> exists c, Use o c = true /\ r ∈ class_chars c)
  /\ length (concatClasses sets)
     = ((if UseLower o then 26 else 0) + (if UseUpper o then 26 else 0)
        + (if UseNumber o then 10 else 0) + (if UseSymbol o then 27 else 0))%nat.
Proof.
  intros Hcol. destruct (collect_inl _ _ _ Hcol) as (-> & _ & _).
  rewrite concatClasses_concat. fold (pool o). split; [|split].
  - unfold pool, enabled.
    destruct o as [? ? [] [] [] [] ? ? ? ? ? ?]; simpl;
      apply (bool_decide_unpack _); by vm_compute.
  - apply elem_of_pool.
  - unfold pool, enabled.
    by destruct o as [? ? [] [] [] [] ? ? ? ? ? ?].
Qed.

Lemma pool_holds_each_rune_once_witness :
  NoDup (concatClasses [lowerChars; upperChars; numberChars; symbolChars])
  /\ length (concatClasses [lowerChars; upperChars; numberChars; symbolChars])
     = 89%nat.
Proof.
  destruct (pool_holds_each_rune_once DefaultOptions
              [lowerChars; upperChars; numberChars; symbolChars] [0; 0; 0; 0]
              eq_refl) as (Hnd & _ & Hlen).
  split; [exact Hnd|exact Hlen].
Defined.

(** ** App keys and their generic core *)

(** X12. Taking the separators out of an app key gives back, rune for
    rune, what the generic generation returns for the total that
    [generateAppKey] computed, over the same source. *)
Theorem appkey_without_separators o rd s :
  Format o = FormatAppKey ->
  Generate o rd = Ret s ->
  Generate (withLength o (wrap (Segments o * SegmentLength o))) rd
  = Ret (string_of_list_ascii (generated o s)).
Proof.
  intros Hf Hs. unfold generated. rewrite Hf. simpl.
  rewrite Generate_appkey in Hs by done. apply run_Ret in Hs as [p Hs].
  apply generateAppKey_Ret in Hs as (_ & Hk & _ & core & Hcore & ->).
  rewrite runes_string_of_list.
  change 0%nat with (phase (SegmentLength o) 0).
  rewrite unsegment_writeSegments by lia.
  rewrite Generate_generic by reflexivity. unfold run. rewrite Hcore.
  unfold runes. by rewrite string_of_list_ascii_of_string.
Qed.

Lemma appkey_without_separators_witness :
  Generate example_appkey counting = Ret "r_dk0-7;>Tf-F%Mmy"
  /\ Generate (withLength example_appkey 15) counting = Ret "r_dk07;>TfF%Mmy".
Proof.
  assert (Hs : Generate example_appkey counting = Ret "r_dk0-7;>Tf-F%Mmy"%string)
    by (vm_compute; reflexivity).
  split; [exact Hs|].
  exact (appkey_without_separators example_appkey counting _ eq_refl Hs).
Defined.

(** X13. The app-key format does not read [Length], the generic format
    reads neither [Segments] nor [SegmentLength], and the GUID format
    reads no field but [Format]: changing them changes nothing, whatever
    the random source does. *)
Theorem unused_fields_ignored o rd :
  (Format o = FormatAppKey ->
   forall l, Generate (setLength o l) rd = Generate o rd)
  /\ (Format o = FormatGeneric ->
      forall n k, Generate (setSegments o n k) rd = Generate o rd)
  /\ (Format o = FormatGUID ->
      forall o', Format o' = FormatGUID -> Generate o' rd = Generate o rd).
Proof.
  split; [|split].
  - intros Hf l. rewrite !Generate_appkey by done. reflexivity.
  - intros Hf n k. rewrite !Generate_generic by done. reflexivity.
  - intros Hf o' Hf'. by rewrite !Generate_guid.
Qed.

Lemma unused_fields_ignored_witness :
  Generate (setLength example_appkey 0) counting = Generate example_appkey counting.
Proof.
  exact (proj1 (unused_fields_ignored example_appkey counting) eq_refl 0).
Defined.

(** ** UUIDs read back *)

Lemma byte_range v : 0 <= Z.land v 255 < 256.
Proof.
  change 255 with (Z.ones 8). rewrite Z.land_ones by lia.
  apply Z.mod_pos_bound. lia.
Qed.

Lemma Forall_bytes_of k raw : Forall (fun b => 0 <= b < 256) (bytes_of k raw).
Proof.
  unfold bytes_of. apply Forall_forall. intros b Hb.
  apply list_elem_of_In, in_map_iff in Hb as (i & <- & _). apply byte_range.
Qed.

Lemma version_byte v :
  0 <= Z.lor (Z.land v 15) 64 < 256
  /\ Z.land (Z.lor (Z.land v 15) 64) 15 = Z.land v 15.
Proof.
  change 15 with (Z.ones 4). rewrite Z.land_ones by lia.
  pose proof (Z.mod_pos_bound v (2 ^ 4) ltac:(lia)) as Hx.
  pose proof (forall_below
                (fun x => (0 <=? Z.lor x 64) && (Z.lor x 64 <? 256)
                          && (Z.land (Z.lor x 64) (Z.ones 4) =? x)) 16 eq_refl
                _ Hx) as H.
  apply andb_true_iff in H as [H H3]. apply andb_true_iff in H as [H1 H2].
  apply Z.eqb_eq in H3. split; [lia|exact H3].
Qed.

Lemma variant_byte v :
  0 <= Z.lor (Z.land v 63) 128 < 256
  /\ Z.land (Z.lor (Z.land v 63) 128) 63 = Z.land v 63.
Proof.
  change 63 with (Z.ones 6). rewrite Z.land_ones by lia.
  pose proof (Z.mod_pos_bound v (2 ^ 6) ltac:(lia)) as Hx.
  pose proof (forall_below
                (fun x => (0 <=? Z.lor x 128) && (Z.lor x 128 <? 256)
                          && (Z.land (Z.lor x 128) (Z.ones 6) =? x)) 64 eq_refl
                _ Hx) as H.
  apply andb_true_iff in H as [H H3]. apply andb_true_iff in H as [H1 H2].
  apply Z.eqb_eq in H3. split; [lia|exact H3].
Qed.

Lemma unhex_hex x :
  0 <= x < 256 -> unhex (hexdigit (Z.shiftr x 4)) (hexdigit (Z.land x 15)) = x.
Proof.
  intros Hx. apply Z.eqb_eq.
  apply (forall_below
           (fun x => unhex (hexdigit (Z.shiftr x 4)) (hexdigit (Z.land x 15)) =? x)
           256); [by vm_compute|exact Hx].
Qed.

Lemma hexdigit_not_hyphen x : Ascii.eqb (hexdigit x) "-" = false.
Proof.
  pose proof (hexdigit_elem_of x) as H.
  assert (Hall : Forall (fun r => Ascii.eqb r "-" = false) hexdigits)
    by (repeat constructor).
  rewrite Forall_forall in Hall. by apply Hall.
Qed.

Lemma parseHex_hex x (s : list rune) :
  0 <= x < 256 ->
  parseHex (hexdigit (Z.shiftr x 4) :: hexdigit (Z.land x 15) :: s)
  = x :: parseHex s.
Proof.
  intros Hx. cbn [parseHex]. by rewrite hexdigit_not_hyphen, unhex_hex.
Qed.

Lemma parseHex_hyphen (s : list rune) : parseHex ("-"%char :: s) = parseHex s.
Proof. reflexivity. Qed.

(** X14. A UUID read back gives the 16 bytes drawn, but for the six bits
    that the version and the variant take: every byte other than bytes 6
    and 8 is kept, and so are the low four bits of byte 6 and the low six
    bits of byte 8. *)
Theorem uuid_read_back o rd raw :
  Format o = FormatGUID ->
  rd 0%nat = Rnd raw ->
  exists s b,
    Generate o rd = Ret s
    /\ parseHex (runes s) = b
    /\ length b = 16%nat
    /\ (forall i, i <> 6%nat -> i <> 8%nat -> b !! i = bytes_of 16 raw !! i)
    /\ (exists b6 v6, bytes_of 16 raw !! 6%nat = Some b6 /\ b !! 6%nat = Some v6
                      /\ Z.shiftr v6 4 = 4 /\ Z.land v6 15 = Z.land b6 15)
    /\ (exists b8 v8, bytes_of 16 raw !! 8%nat = Some b8 /\ b !! 8%nat = Some v8
                      /\ 8 <= Z.shiftr v8 4 <= 11 /\ Z.land v8 63 = Z.land b8 63).
Proof.
  intros Hf Hrd.
  exists (string_of_list_ascii (writeUUID 0 (stamped (bytes_of 16 raw)))),
    (stamped (bytes_of 16 raw)).
  split; [by apply Generate_guid_bytes|].
  rewrite runes_string_of_list.
  pose proof (length_bytes_of 16 raw) as Hlen.
  pose proof (Forall_bytes_of 16 raw) as Hall.
  destruct (bytes_of 16 raw)
    as [|b0 [|b1 [|b2 [|b3 [|b4 [|b5 [|b6 [|b7 [|b8 [|b9 [|b10 [|b11 [|b12
        [|b13 [|b14 [|b15 [|b16 b]]]]]]]]]]]]]]]]]; try discriminate Hlen.
  clear Hlen. rewrite stamped_16, writeUUID_16.
  repeat match goal with
         | H : Forall _ (_ :: _) |- _ => apply Forall_cons in H as [? H]
         end.
  destruct (version_byte b6) as [Hr6 Hl6]. destruct (variant_byte b8) as [Hr8 Hl8].
  split.
  { repeat first [rewrite parseHex_hex by assumption | rewrite parseHex_hyphen].
    reflexivity. }
  split; [reflexivity|]. split; [|split].
  - intros i Hi6 Hi8.
    do 16 (destruct i as [|i]; [first [reflexivity | congruence]|]).
    reflexivity.
  - exists b6, (Z.lor (Z.land b6 15) 64). repeat split; try done.
    apply version_nibble.
  - exists b8, (Z.lor (Z.land b8 63) 128). repeat split; try done;
      apply variant_nibble.
Qed.

Lemma uuid_read_back_witness :
  exists s, Generate (mkOptions FormatGUID 0 true true true true 0 0 0 0 0 0)
              (reader_of [1234567890123456789012345678901234567]) = Ret s
            /\ length (parseHex (runes s)) = 16%nat.
Proof.
  destruct (uuid_read_back (mkOptions FormatGUID 0 true true true true 0 0 0 0 0 0)
              (reader_of [1234567890123456789012345678901234567])
              1234567890123456789012345678901234567 eq_refl eq_refl)
    as (s & b & Hs & Hb & Hl & _).
  exists s. split; [exact Hs|]. rewrite Hb. exact Hl.
Defined.

(** ** The sets and the minima collected *)

(** X15. The sets and the minima that [collectClassesAndValidate] returns
    go together: there are as many minima as sets, between one and four;
    the sets come in the order lower, upper, number, symbol; and the set
    at each index is the set of a toggled-on class whose minimum, not
    negative, is the minimum at that index. *)
Theorem collected_sets_and_minima_aligned o sets mins :
  collectClassesAndValidate o = inl (sets, mins) ->
  length sets = length mins
  /\ (0 < length sets <= 4)%nat
  /\ sublist sets [lowerChars; upperChars; numberChars; symbolChars]
  /\ forall i set,
       sets !! i = Some set ->
       exists c, Use o c = true /\ set = class_chars c
                 /\ mins !! i = Some (Min o c) /\ 0 <= Min o c.
Proof.
  intros Hcol. apply collect_inl in Hcol as (-> & -> & Hne & Hon & _).
  rewrite !length_fmap.
  assert (Huse : forall c, c ∈ enabled o -> Use o c = true)
    by (intros c; apply elem_of_enabled).
  split; [done|]. split; [|split].
  - destruct (enabled o) as [|c l] eqn:He; [done|]. split; [simpl; lia|].
    rewrite <- He. unfold enabled.
    destruct (UseLower o), (UseUpper o), (UseNumber o), (UseSymbol o); simpl; lia.
  - unfold enabled.
    destruct (UseLower o), (UseUpper o), (UseNumber o), (UseSymbol o); simpl;
      repeat first [apply sublist_nil | apply sublist_skip | apply sublist_cons].
  - intros i set Hi. rewrite list_lookup_fmap in Hi.
    destruct (enabled o !! i) as [c|] eqn:Hc; [|discriminate].
    injection Hi as <-. exists c.
    assert (Use o c = true) by (apply Huse; by eapply list_elem_of_lookup_2).
    split; [done|]. split; [done|]. split; [|by apply Hon].
    by rewrite list_lookup_fmap, Hc.
Qed.

Lemma collected_sets_and_minima_aligned_witness :
  length [lowerChars; numberChars] = length [3; 2]
  /\ (0 < length [lowerChars; numberChars] <= 4)%nat
  /\ sublist [lowerChars; numberChars]
       [lowerChars; upperChars; numberChars; symbolChars]
  /\ forall i set,
       [lowerChars; numberChars] !! i = Some set ->
       exists c, Use example_generic c = true /\ set = class_chars c
                 /\ [3; 2] !! i = Some (Min example_generic c)
                 /\ 0 <= Min example_generic c.
Proof.
  exact (collected_sets_and_minima_aligned example_generic
           [lowerChars; numberChars] [3; 2] eq_refl).
Defined.

(** ** The command line with its defaults *)

Lemma healthy_answers rd p n : healthy rd -> answers rd p n.
Proof. intros Hrd q _. apply Hrd. Qed.

Lemma Generate_Ret_length o rd s :
  valid_config o ->
  Format o = FormatGeneric \/ Format o = FormatAppKey ->
  expected_length o <= max_int ->
  Generate o rd = Ret s ->
  Z.of_nat (String.length s) = expected_length o.
Proof.
  intros Hvalid Hfmt Hfit Hgen.
  destruct (valid_config_sum o Hvalid) as [Hsum Hsum0].
  destruct Hvalid as (Hex & Hmin & Hoff & _ & HL & Hseg).
  destruct (derivedLength_exact o Hfmt HL Hseg Hfit) as (Hder & Hpos & _).
  destruct (Generate_Ret o rd s Hfmt Hgen) as (_ & Hon & _ & _ & Hout).
  apply generic_output_length in Hout; [|exact Hon].
  change (sum_enabled_minima (withLength o (derivedLength o)))
    with (sum_enabled_minima o) in Hout.
  change (Length (withLength o (derivedLength o))) with (derivedLength o) in Hout.
  rewrite Hder, Z.max_r in Hout by done.
  unfold generated, derived_length, expected_length in *.
  destruct Hfmt as [Hf|Hf]; rewrite Hf in *; simpl in *.
  - by rewrite <- length_runes.
  - rewrite Generate_appkey in Hgen by done. apply run_Ret in Hgen as [p Hgen].
    apply generateAppKey_Ret in Hgen as (Hs & Hk & _ & core & _ & ->).
    rewrite runes_string_of_list in Hout.
    change 0%nat with (phase (SegmentLength o) 0) in Hout.
    rewrite unsegment_writeSegments in Hout by lia.
    rewrite <- length_runes, runes_string_of_list.
    rewrite <- (Z2Nat.id (SegmentLength o)) at 1 by lia.
    rewrite (length_writeSegments (Z.to_nat (Segments o))); lia.
Qed.

Lemma valid_default_flags format :
  valid_config (optionsOfFlags (withFormat defaultFlags format)).
Proof.
  repeat split; try done.
  - by exists Lower.
  - by intros [].
  - by intros [].
  - unfold derived_length. by destruct (String.eqb _ _).
Qed.

Lemma runGenerate_default_length format rd :
  healthy rd ->
  format = FormatGeneric \/ format = FormatAppKey ->
  exists pw,
    runGenerate (withFormat defaultFlags format) rd
    = Ret (pw +:+ String "010"%char EmptyString)
    /\ Z.of_nat (String.length pw)
       = expected_length (optionsOfFlags (withFormat defaultFlags format)).
Proof.
  intros Hrd Hfmt.
  pose proof (valid_default_flags format) as Hvalid.
  assert (Hfit : expected_length (optionsOfFlags (withFormat defaultFlags format))
                 <= max_int).
  { unfold expected_length. by destruct (String.eqb _ _). }
  assert (Hcap : 4 * derived_length (optionsOfFlags (withFormat defaultFlags format))
                 <= maxAlloc).
  { unfold derived_length. by destruct (String.eqb _ _). }
  destruct (Generate_requests _ rd Hvalid Hfmt Hfit Hcap) as (Hok & _).
  destruct (Hok (healthy_answers _ _ _ Hrd)) as [pw Hpw].
  exists pw. unfold runGenerate. rewrite Hpw. split; [done|].
  by apply (Generate_Ret_length _ rd).
Qed.

(** X16. With the flags left at the defaults that [init] registers and a
    source that never fails, the root command builds the configuration
    of [DefaultOptions] up to the fields the generic format does not
    read, and prints one line: 16 runes in the generic format, 19 in the
    app-key format, 36 in the GUID format; any other [--format] is
    returned as the unknown-format error and nothing is printed. *)
Theorem default_flags_output rd :
  healthy rd ->
  Generate (optionsOfFlags defaultFlags) rd = Generate DefaultOptions rd
  /\ (exists pw,
        runGenerate defaultFlags rd = Ret (pw +:+ String "010"%char EmptyString)
        /\ String.length pw = 16%nat)
  /\ (exists pw,
        runGenerate (withFormat defaultFlags FormatAppKey) rd
        = Ret (pw +:+ String "010"%char EmptyString)
        /\ String.length pw = 19%nat)
  /\ (exists pw,
        runGenerate (withFormat defaultFlags FormatGUID) rd
        = Ret (pw +:+ String "010"%char EmptyString)
        /\ String.length pw = 36%nat)
  /\ (forall format,
        format <> FormatGeneric -> format <> FormatAppKey ->
        format <> FormatGUID ->
        runGenerate (withFormat defaultFlags format) rd
        = Fail (ErrUnknownFormat format)).
Proof.
  intros Hrd. split; [|split; [|split; [|split]]].
  - rewrite !Generate_generic by done. reflexivity.
  - destruct (runGenerate_default_length FormatGeneric rd Hrd (or_introl eq_refl))
      as (pw & Hpw & Hlen).
    exists pw. split; [exact Hpw|].
    change (expected_length _) with 16 in Hlen. lia.
  - destruct (runGenerate_default_length FormatAppKey rd Hrd (or_intror eq_refl))
      as (pw & Hpw & Hlen).
    exists pw. split; [exact Hpw|].
    change (expected_length _) with 19 in Hlen. lia.
  - destruct (Hrd 0%nat) as [raw Hraw].
    exists (string_of_list_ascii (writeUUID 0 (stamped (bytes_of 16 raw)))).
    unfold runGenerate.
    rewrite (Generate_guid_bytes
               (optionsOfFlags (withFormat defaultFlags FormatGUID)) rd raw
               eq_refl Hraw).
    split; [done|].
    rewrite <- length_runes, runes_string_of_list.
    pose proof (length_bytes_of 16 raw) as Hlen.
    destruct (bytes_of 16 raw)
      as [|b0 [|b1 [|b2 [|b3 [|b4 [|b5 [|b6 [|b7 [|b8 [|b9 [|b10 [|b11 [|b12
          [|b13 [|b14 [|b15 [|b16 b]]]]]]]]]]]]]]]]]; try discriminate Hlen.
    by rewrite stamped_16, writeUUID_16.
  - intros format Hg Ha Hu. unfold runGenerate, Generate.
    change (Format (optionsOfFlags (withFormat defaultFlags format))) with format.
    destruct (String.eqb_spec format FormatGUID); [done|].
    destruct (String.eqb_spec format FormatAppKey); [done|].
    destruct (String.eqb_spec format FormatGeneric); done.
Qed.

Lemma default_flags_output_witness :
  exists pw,
    runGenerate defaultFlags counting = Ret (pw +:+ String "010"%char EmptyString)
    /\ String.length pw = 16%nat.
Proof.
  exact (proj1 (proj2 (default_flags_output counting healthy_counting))).
Defined.
